(** * xwax timecode decoder

    A shallow embedding of the timecode decoder core of xwax
    (the catalogue of timecode definitions, the linear feedback shift
    register, the lookup table build, the zero-crossing detector, the
    bitstream assembler, the sample pipeline, the monitor and the position
    query), followed by the properties established about it.

    Conventions.  [bits_t] is [unsigned __int128]: a register is a [Z] in
    [0, 2^128) and every operation that can leave that range is wrapped by
    [u128].  [unsigned int] values are wrapped by [u32], [int] values by
    [s32] (two's complement).  [double] is the binary64 type [float] of the
    kernel.  A failed [assert] is the result [None]. *)

From Stdlib Require Import ZArith List Bool Lia String Ascii Uint63 Floats Btauto.
From coqutil Require Import Z.bitblast.
From stdpp Require Import gmap.

Local Open Scope Z_scope.
Local Open Scope bool_scope.

(** ** Machine integers *)

Definition u128 (z : Z) : Z := z mod 2 ^ 128.
Definition u32 (z : Z) : Z := z mod 2 ^ 32.
Definition s32 (z : Z) : Z := (z + 2 ^ 31) mod 2 ^ 32 - 2 ^ 31.
Definition s64 (z : Z) : Z := (z + 2 ^ 63) mod 2 ^ 64 - 2 ^ 63.
Definition u8 (z : Z) : Z := z mod 2 ^ 8.

Definition INT_MAX : Z := 2 ^ 31 - 1.
Definition INT_MIN : Z := - 2 ^ 31.

(** [UINT128(hi, lo)]: [((__uint128_t) (hi)) << 64 | (lo)]. *)
Definition UINT128 (hi lo : Z) : Z := Z.lor (u128 (Z.shiftl hi 64)) lo.

Definition REF_PEAKS_AVG : Z := 48.
Definition VALID_BITS : Z := 24.
Definition MONITOR_DECAY_EVERY : Z := 512.
Definition ZERO_THRESHOLD : Z := Z.shiftl 128 16.

Definition SWITCH_PHASE : Z := 0x1.
Definition SWITCH_PRIMARY : Z := 0x2.
Definition SWITCH_POLARITY : Z := 0x4.
Definition OFFSET_MODULATION : Z := 0x8.

(** [flags & F] read as a condition. *)
Definition has_flag (flags f : Z) : bool := negb (Z.land flags f =? 0).

(** ** The lookup table

    [lut.h] and [lut.c] are not part of the sources at hand. *)

(** Modelled from the spec: the lookup table of [lut.c] (missing here), "a
    mapping from LFSR state to ordinal position in [0, length)" that
    "returns a sentinel 'not present' for absent keys".  [avail] is the
    next free slot; a pushed state takes it. *)
Record lut_t : Type := {
  slots : gmap Z Z;
  avail : Z
}.

(** Modelled from the spec: what [build_lookup] compares a lookup with,
    [(unsigned __int128)-1]. *)
Definition LUT_ABSENT : Z := 2 ^ 128 - 1.

(** Modelled from the spec: [lut_init], an empty table (the allocation
    itself is the caller's [mem_ok]). *)
Definition lut_init : lut_t := {| slots := ∅; avail := 0 |}.

(** Modelled from the spec: [lut_push], the state takes the next
    position. *)
Definition lut_push (l : lut_t) (x : Z) : lut_t :=
  {| slots := <[x := avail l]> (slots l); avail := avail l + 1 |}.

(** Modelled from the spec: [lut_lookup], the position of a state or the
    sentinel. *)
Definition lut_lookup (l : lut_t) (x : Z) : Z :=
  match slots l !! x with
  | Some p => p
  | None => LUT_ABSENT
  end.

(** Modelled from the spec: [lut_clear], the table is released. *)
Definition lut_clear (l : lut_t) : lut_t := lut_init.

(** ** Timecode definitions *)

Record timecode_def : Type := {
  name : string;
  desc : string;
  resolution : Z;
  flags : Z;
  bits : Z;
  seed : Z;
  taps : Z;
  length : Z;
  safe : Z;
  lookup : bool;
  lut : lut_t
}.

(** An entry of the static table: the fields left out of the initialiser
    are zero. *)
Definition entry (n d : string) (res fl b sd tp len sf : Z) : timecode_def :=
  {| name := n; desc := d; resolution := res; flags := fl; bits := b;
     seed := sd; taps := tp; length := len; safe := sf;
     lookup := false; lut := lut_init |}.

Definition timecodes : list timecode_def :=
  [ entry "serato_2a" "Serato 2nd Ed., side A"
      1000 0 20 0x59017 0x361e4 712000 707000;
    entry "serato_2b" "Serato 2nd Ed., side B"
      1000 0 20 0x8f3c6 0x4f0d8 922000 917000;
    entry "serato_cd" "Serato CD"
      1000 0 20 0xd8b40 0x34d54 950000 940000;
    entry "traktor_a" "Traktor Scratch, side A"
      2000 (Z.lor (Z.lor SWITCH_PRIMARY SWITCH_POLARITY) SWITCH_PHASE)
      23 0x134503 0x041040 1500000 1480000;
    entry "traktor_b" "Traktor Scratch, side B"
      2000 (Z.lor (Z.lor SWITCH_PRIMARY SWITCH_POLARITY) SWITCH_PHASE)
      23 0x32066c 0x041040 2110000 2090000;
    entry "traktor_mk2_a" "Traktor Scratch MK2, side A"
      2500 OFFSET_MODULATION 110
      (UINT128 0x339c1f39f18c 0x7fe0063f8f83e0f9)
      (UINT128 0x400000000040 0x0000010800000001)
      1620000 1600000;
    entry "traktor_mk2_b" "Traktor Scratch MK2, side B"
      2500 OFFSET_MODULATION 110
      (UINT128 0x20e73fc0707c 0xf8c00e7ffcf807c0)
      (UINT128 0x400000000040 0x0000010800000001)
      2295000 2285000;
    entry "traktor_mk2_cd" "Traktor Scratch MK2, CD"
      3000 OFFSET_MODULATION 113
      (UINT128 0x1f9fff01f1ff9 0xfe7f9c1ff9cff3e3)
      (UINT128 0x400000000000 0x1000010800000001)
      4950000 4940000;
    entry "mixvibes_v2" "MixVibes V2"
      1300 SWITCH_PHASE 20 0x22c90 0x00008 950000 923000;
    entry "mixvibes_7inch"
      (String.append "MixVibes 7" (String (ascii_of_nat 34) EmptyString))
      1300 SWITCH_PHASE 20 0x22c90 0x00008 312000 310000;
    entry "pioneer_a" "Pioneer RekordBox DVS Control Vinyl, side A"
      1000 SWITCH_POLARITY 20 0x78370 0x7933a 635000 614000;
    entry "pioneer_b" "Pioneer RekordBox DVS Control Vinyl, side B"
      1000 SWITCH_POLARITY 20 0xf7012 0x2ef1c 918500 913000 ].

(** ** The linear feedback shift register *)

(** The loop of [lfsr]: [while (taken != 0) { xrs += taken & 1; taken >>= 1; }],
    by recursion on the binary digits of [taken]. *)
Fixpoint lfsr_loop (taken : positive) (xrs : Z) : Z :=
  match taken with
  | xH => xrs + 1
  | xO p => lfsr_loop p (xrs + 0)
  | xI p => lfsr_loop p (xrs + 1)
  end.

Definition lfsr_while (taken xrs : Z) : Z :=
  match taken with
  | Zpos p => lfsr_loop p xrs
  | _ => xrs
  end.

Definition lfsr (code taps : Z) : Z :=
  let taken := Z.land code taps in
  let xrs := lfsr_while taken 0 in
  Z.land xrs 0x1.

Definition fwd (current : Z) (def : timecode_def) : Z :=
  let l := lfsr current (Z.lor (taps def) 0x1) in
  Z.lor (Z.shiftr current 0x1) (u128 (Z.shiftl l (bits def - 0x1))).

Definition rev (current : Z) (def : timecode_def) : Z :=
  let one := 1 in
  let taps_shifted := Z.shiftr (taps def) one in
  let bits_shifted := u128 (Z.shiftl one (u128 (bits def - one))) in
  let mask := u128 (u128 (Z.shiftl one (bits def)) - one) in
  let l := lfsr current (Z.lor taps_shifted bits_shifted) in
  Z.lor (Z.land (u128 (Z.shiftl current one)) mask) l.

(** The sequence pressed on the medium: [x_0 = seed], [x_(i+1) = fwd x_i]. *)
Fixpoint lfsr_seq (def : timecode_def) (i : nat) : Z :=
  match i with
  | O => seed def
  | S k => fwd (lfsr_seq def k) def
  end.

(** The register values that occur in the sequence of a definition. *)
Inductive reachable_code (def : timecode_def) : Z -> Prop :=
| reach_seed : reachable_code def (seed def)
| reach_fwd x : reachable_code def x -> reachable_code def (fwd x def).

(** Parity of the number of set bits, the value the loop of [lfsr]
    leaves in the low bit of [xrs]. *)
Fixpoint Pparity (p : positive) : bool :=
  match p with
  | xH => true
  | xO q => Pparity q
  | xI q => negb (Pparity q)
  end.

Definition Zparity (z : Z) : bool :=
  match z with
  | Zpos p => Pparity p
  | _ => false
  end.

(** The side conditions the decoder relies on for an entry of the table:
    the register fits [bits_t] with room for the mask, and the seed fits the
    register. *)
Definition def_ok (d : timecode_def) : bool :=
  (0 <? bits d) && (bits d <? 128) && (0 <=? taps d) &&
  (0 <=? seed d) && (seed d <? 2 ^ bits d) && (0 <=? length d) && (length d <? 2 ^ 31).

(** ** A two-word implementation of the forward step

    The sequences of the catalogue are millions of steps long.  To walk
    them inside the logic, the register is held in two machine words of 62
    bits each ([hi] above [lo]) and the step is computed with the kernel's
    63-bit integers; it is shown below to compute exactly [fwd]. *)

Section FastLfsr.
Local Open Scope uint63_scope.

(** Parity of a word, by folding it onto its low bit. *)
Definition fold63 (k x : int) : int := x lxor (x >> k).

Definition par63 (x : int) : int :=
  fold63 1 (fold63 2 (fold63 4 (fold63 8 (fold63 16 (fold63 32 x))))) land 1.

(** [thi, tlo]: the words of [taps | 1]; [ihi, ilo]: the words of
    [1 << (bits - 1)]. *)
Definition fast_fwd (thi tlo ihi ilo : int) (s : int * int) : int * int :=
  let (hi, lo) := s in
  let l := par63 ((hi land thi) lxor (lo land tlo)) in
  let lo' := (lo >> 1) lor ((hi land 1) << 61) in
  let hi' := hi >> 1 in
  if l =? 0 then (hi', lo') else (hi' lor ihi, lo' lor ilo).

(** One step of the walk: advance; stop with [false] when the seed
    [(shi, slo)] has come back, go on with [k] otherwise. *)
Definition fast_advance (F : int * int -> int * int) (shi slo : int)
    (s : int * int) (k : int * int -> bool) : bool :=
  let (hi, lo) := F s in
  if ((hi lxor shi) lor (lo lxor slo)) =? 0 then false else k (hi, lo).

(** [p] steps of the walk, then [k].  Each state is computed before the
    walk goes on from it. *)
Fixpoint fast_walk (F : int * int -> int * int) (shi slo : int)
    (p : positive) (k : int * int -> bool) (s : int * int) : bool :=
  match p with
  | xH => fast_advance F shi slo s k
  | xO p' =>
      fast_walk F shi slo p' (fun s' => fast_walk F shi slo p' k s') s
  | xI p' =>
      fast_advance F shi slo s
        (fun s1 =>
           fast_walk F shi slo p' (fun s' => fast_walk F shi slo p' k s') s1)
  end.
End FastLfsr.

Definition hi62 (z : Z) : int := Uint63.of_Z (Z.shiftr z 62).
Definition lo62 (z : Z) : int := Uint63.of_Z (Z.land z (Z.ones 62)).

(** The register held by two words. *)
Definition word2 (s : int * int) : Z :=
  Z.lor (Z.shiftl (Uint63.to_Z (fst s)) 62) (Uint63.to_Z (snd s)).

(** Walk [length - 1] steps from the seed; [true] when the seed was not met
    again on the way. *)
Definition seed_never_recurs (d : timecode_def) : bool :=
  let t := Z.lor (taps d) 1 in
  let i := Z.shiftl 1 (bits d - 1) in
  (bits d <=? 124) && (t <? 2 ^ 124) &&
  match length d - 1 with
  | Zpos p =>
      fast_walk (fast_fwd (hi62 t) (lo62 t) (hi62 i) (lo62 i))
        (hi62 (seed d)) (lo62 (seed d)) p (fun _ => true)
        (hi62 (seed d), lo62 (seed d))
  | _ => true
  end.

(** ** Building the lookup table *)

Definition set_lut (def : timecode_def) (l : lut_t) (built : bool) : timecode_def :=
  {| name := name def; desc := desc def; resolution := resolution def;
     flags := flags def; bits := bits def; seed := seed def; taps := taps def;
     length := length def; safe := safe def; lookup := built; lut := l |}.

(** The body of the [for] loop of [build_lookup], [n] iterations from the
    state [current]; [None] when one of its two assertions fails. *)
Fixpoint build_loop (def : timecode_def) (n : nat) (l : lut_t) (current : Z)
  : option lut_t :=
  match n with
  | O => Some l
  | S n' =>
      (* timecode must not wrap *)
      if negb (lut_lookup l current =? LUT_ABSENT) then None
      else
        let l := lut_push l current in
        (* check symmetry of the lfsr functions *)
        let next := fwd current def in
        if negb (rev next def =? current) then None
        else build_loop def n' l next
  end.

(** [build_lookup]: the returned [int] and the definition as it leaves it;
    [mem_ok] tells whether [lut_init] finds the memory. *)
Definition build_lookup (mem_ok : bool) (def : timecode_def)
  : option (Z * timecode_def) :=
  if lookup def then Some (0, def)
  else if negb mem_ok then Some (-1, def)
  else
    match build_loop def (Z.to_nat (length def)) lut_init (seed def) with
    | None => None
    | Some l => Some (0, set_lut def l true)
    end.

(** The loop of [timecoder_find_definition] over the entries [todo], the
    entries [done] having another name.  The result is the table and the
    index of the definition found, if any. *)
Fixpoint find_definition_loop (mem_ok : bool) (nm : string)
    (done todo : list timecode_def) : option (list timecode_def * option nat) :=
  match todo with
  | [] => Some (done, None)
  | def :: rest =>
      if negb (String.eqb (name def) nm)
      then find_definition_loop mem_ok nm (done ++ [def]) rest
      else
        match build_lookup mem_ok def with
        | None => None
        | Some (r, def') =>
            if r =? -1 then Some (done ++ def' :: rest, None)
            else Some (done ++ def' :: rest, Some (List.length done))
        end
  end.

Definition timecoder_find_definition (mem_ok : bool) (nm : string)
    (tbl : list timecode_def) : option (list timecode_def * option nat) :=
  find_definition_loop mem_ok nm [] tbl.

Definition timecoder_free_lookup (tbl : list timecode_def) : list timecode_def :=
  map (fun def => if lookup def then set_lut def (lut_clear (lut def)) true
                  else def) tbl.

(** The table holds exactly the first [k] states of the sequence, each at
    its index. *)
Definition lut_holds (def : timecode_def) (l : lut_t) (k : nat) : Prop :=
  avail l = Z.of_nat k /\
  forall y p, slots l !! y = Some p <->
              exists i, (i < k)%nat /\ y = lfsr_seq def i /\ p = Z.of_nat i.

(** ** Floating point

    [double] is IEEE 754 binary64, the kernel's [float]. *)

Definition s16 (z : Z) : Z := (z + 2 ^ 15) mod 2 ^ 16 - 2 ^ 15.

(** [0.001], as the nearest binary64 value. *)
Definition ZERO_RC : float := 0x1.0624dd2f1a9fcp-10%float.

(** [(double) z] for an [int] or [unsigned int] [z]; exact below [2^53]. *)
Definition double_of_int (z : Z) : float :=
  if z <? 0 then PrimFloat.opp (PrimFloat.of_uint63 (Uint63.of_Z (- z)))
  else PrimFloat.of_uint63 (Uint63.of_Z z).

(** [(int) f]: the fraction is dropped.  C leaves the conversion of a value
    outside [int] (or of a NaN) undefined; the model gives what x86-64's
    [cvttsd2si] gives there, [INT_MIN]. *)
Definition int_of_double (f : float) : Z :=
  match Prim2SF f with
  | S754_zero _ => 0
  | S754_finite s m e =>
      let mag := if 0 <=? e then Zpos m * 2 ^ e else Zpos m / 2 ^ (- e) in
      let v := if s then - mag else mag in
      if (INT_MIN <=? v) && (v <=? INT_MAX) then v else INT_MIN
  | _ => INT_MIN
  end.

(** ** Collaborators of the decoder

    [filters.h], [pitch.h] and the circular buffer are not part of the
    sources at hand. *)

(** Modelled from the spec: the state of the filters of [filters.h]
    (missing here), "referenced as externs with process-wide scope". *)
Record filters : Type := {
  ema_primary_old : Z;
  ema_secondary_old : Z;
  primary_old : Z;
  secondary_old : Z;
  left_old : Z;
  right_old : Z
}.

(** Modelled from the spec: [ema] of [filters.h] (missing here),
    "y = alpha * x + (1 - alpha) * prev; prev = y; return y".  The result
    and the new state. *)
Definition ema (x old : Z) (alpha : float) : Z * Z :=
  let y := int_of_double
             (PrimFloat.add (PrimFloat.mul alpha (double_of_int x))
                (PrimFloat.mul (PrimFloat.sub 1%float alpha) (double_of_int old))) in
  (y, y).

(** Modelled from the spec: [discrete_derivative] of [filters.h] (missing
    here), "d = x - prev; prev = x; return d". *)
Definition discrete_derivative (x old : Z) : Z * Z := (s32 (x - old), x).

(** Modelled from the spec: the pitch observer of [pitch.h] (missing
    here), which "accumulates observed displacement"; the model keeps the
    observations, latest first. *)
Record pitch_t : Type := {
  pitch_dt : float;
  observed : list float
}.

Definition pitch_init (dt : float) : pitch_t :=
  {| pitch_dt := dt; observed := [] |}.

Definition pitch_dt_observation (p : pitch_t) (dx : float) : pitch_t :=
  {| pitch_dt := pitch_dt p; observed := dx :: observed p |}.

(** Modelled from the spec: the "offset-modulation circular buffer (size 10
    samples)" (its header is missing here). *)
Record cbuf_t : Type := {
  array : list Z;
  size : Z;
  read_ptr : Z;
  write_ptr : Z
}.

(** Modelled from the spec: [cbuf_push], the sample is stored at the write
    position, which advances round the buffer. *)
Definition cbuf_push (c : cbuf_t) (m : Z) : cbuf_t :=
  {| array := <[Z.to_nat (write_ptr c) := m]> (array c);
     size := size c;
     read_ptr := read_ptr c;
     write_ptr := Z.rem (write_ptr c + 1) (size c) |}.

(** ** Decoder state *)

Record timecoder_channel : Type := {
  positive : bool;
  swapped : bool;
  zero : Z;
  crossing_ticker : Z
}.

Definition set_positive (ch : timecoder_channel) (v : bool) : timecoder_channel :=
  {| positive := v; swapped := swapped ch; zero := zero ch;
     crossing_ticker := crossing_ticker ch |}.

Definition set_swapped (ch : timecoder_channel) (v : bool) : timecoder_channel :=
  {| positive := positive ch; swapped := v; zero := zero ch;
     crossing_ticker := crossing_ticker ch |}.

Definition set_zero (ch : timecoder_channel) (v : Z) : timecoder_channel :=
  {| positive := positive ch; swapped := swapped ch; zero := v;
     crossing_ticker := crossing_ticker ch |}.

Definition set_crossing_ticker (ch : timecoder_channel) (v : Z) : timecoder_channel :=
  {| positive := positive ch; swapped := swapped ch; zero := zero ch;
     crossing_ticker := v |}.

(** [struct timecoder].  [def] points into the table [timecodes]: it is the
    index of the entry.  [mon] is [None] for a null pointer. *)
Record timecoder : Type := {
  def : nat;
  speed : float;
  dt : float;
  zero_alpha : float;
  threshold : Z;
  forwards : bool;
  primary : timecoder_channel;
  secondary : timecoder_channel;
  pitch : pitch_t;
  ref_level : Z;
  bitstream : Z;
  timecode : Z;
  valid_counter : Z;
  timecode_ticker : Z;
  mon : option (list Z);
  mon_size : Z;
  mon_counter : Z;
  cbuf : cbuf_t
}.

Definition set_def (tc : timecoder) (v : nat) : timecoder :=
  {| def := v; speed := speed tc; dt := dt tc;
     zero_alpha := zero_alpha tc; threshold := threshold tc;
     forwards := forwards tc; primary := primary tc;
     secondary := secondary tc; pitch := pitch tc;
     ref_level := ref_level tc; bitstream := bitstream tc;
     timecode := timecode tc; valid_counter := valid_counter tc;
     timecode_ticker := timecode_ticker tc; mon := mon tc;
     mon_size := mon_size tc; mon_counter := mon_counter tc;
     cbuf := cbuf tc |}.

Definition set_speed (tc : timecoder) (v : float) : timecoder :=
  {| def := def tc; speed := v; dt := dt tc; zero_alpha := zero_alpha tc;
     threshold := threshold tc; forwards := forwards tc;
     primary := primary tc; secondary := secondary tc; pitch := pitch tc;
     ref_level := ref_level tc; bitstream := bitstream tc;
     timecode := timecode tc; valid_counter := valid_counter tc;
     timecode_ticker := timecode_ticker tc; mon := mon tc;
     mon_size := mon_size tc; mon_counter := mon_counter tc;
     cbuf := cbuf tc |}.

Definition set_dt (tc : timecoder) (v : float) : timecoder :=
  {| def := def tc; speed := speed tc; dt := v;
     zero_alpha := zero_alpha tc; threshold := threshold tc;
     forwards := forwards tc; primary := primary tc;
     secondary := secondary tc; pitch := pitch tc;
     ref_level := ref_level tc; bitstream := bitstream tc;
     timecode := timecode tc; valid_counter := valid_counter tc;
     timecode_ticker := timecode_ticker tc; mon := mon tc;
     mon_size := mon_size tc; mon_counter := mon_counter tc;
     cbuf := cbuf tc |}.

Definition set_zero_alpha (tc : timecoder) (v : float) : timecoder :=
  {| def := def tc; speed := speed tc; dt := dt tc; zero_alpha := v;
     threshold := threshold tc; forwards := forwards tc;
     primary := primary tc; secondary := secondary tc; pitch := pitch tc;
     ref_level := ref_level tc; bitstream := bitstream tc;
     timecode := timecode tc; valid_counter := valid_counter tc;
     timecode_ticker := timecode_ticker tc; mon := mon tc;
     mon_size := mon_size tc; mon_counter := mon_counter tc;
     cbuf := cbuf tc |}.

Definition set_threshold (tc : timecoder) (v : Z) : timecoder :=
  {| def := def tc; speed := speed tc; dt := dt tc;
     zero_alpha := zero_alpha tc; threshold := v; forwards := forwards tc;
     primary := primary tc; secondary := secondary tc; pitch := pitch tc;
     ref_level := ref_level tc; bitstream := bitstream tc;
     timecode := timecode tc; valid_counter := valid_counter tc;
     timecode_ticker := timecode_ticker tc; mon := mon tc;
     mon_size := mon_size tc; mon_counter := mon_counter tc;
     cbuf := cbuf tc |}.

Definition set_forwards (tc : timecoder) (v : bool) : timecoder :=
  {| def := def tc; speed := speed tc; dt := dt tc;
     zero_alpha := zero_alpha tc; threshold := threshold tc;
     forwards := v; primary := primary tc; secondary := secondary tc;
     pitch := pitch tc; ref_level := ref_level tc;
     bitstream := bitstream tc; timecode := timecode tc;
     valid_counter := valid_counter tc;
     timecode_ticker := timecode_ticker tc; mon := mon tc;
     mon_size := mon_size tc; mon_counter := mon_counter tc;
     cbuf := cbuf tc |}.

Definition set_primary (tc : timecoder) (v : timecoder_channel) : timecoder :=
  {| def := def tc; speed := speed tc; dt := dt tc;
     zero_alpha := zero_alpha tc; threshold := threshold tc;
     forwards := forwards tc; primary := v; secondary := secondary tc;
     pitch := pitch tc; ref_level := ref_level tc;
     bitstream := bitstream tc; timecode := timecode tc;
     valid_counter := valid_counter tc;
     timecode_ticker := timecode_ticker tc; mon := mon tc;
     mon_size := mon_size tc; mon_counter := mon_counter tc;
     cbuf := cbuf tc |}.

Definition set_secondary (tc : timecoder) (v : timecoder_channel) : timecoder :=
  {| def := def tc; speed := speed tc; dt := dt tc;
     zero_alpha := zero_alpha tc; threshold := threshold tc;
     forwards := forwards tc; primary := primary tc; secondary := v;
     pitch := pitch tc; ref_level := ref_level tc;
     bitstream := bitstream tc; timecode := timecode tc;
     valid_counter := valid_counter tc;
     timecode_ticker := timecode_ticker tc; mon := mon tc;
     mon_size := mon_size tc; mon_counter := mon_counter tc;
     cbuf := cbuf tc |}.

Definition set_pitch (tc : timecoder) (v : pitch_t) : timecoder :=
  {| def := def tc; speed := speed tc; dt := dt tc;
     zero_alpha := zero_alpha tc; threshold := threshold tc;
     forwards := forwards tc; primary := primary tc;
     secondary := secondary tc; pitch := v; ref_level := ref_level tc;
     bitstream := bitstream tc; timecode := timecode tc;
     valid_counter := valid_counter tc;
     timecode_ticker := timecode_ticker tc; mon := mon tc;
     mon_size := mon_size tc; mon_counter := mon_counter tc;
     cbuf := cbuf tc |}.

Definition set_ref_level (tc : timecoder) (v : Z) : timecoder :=
  {| def := def tc; speed := speed tc; dt := dt tc;
     zero_alpha := zero_alpha tc; threshold := threshold tc;
     forwards := forwards tc; primary := primary tc;
     secondary := secondary tc; pitch := pitch tc; ref_level := v;
     bitstream := bitstream tc; timecode := timecode tc;
     valid_counter := valid_counter tc;
     timecode_ticker := timecode_ticker tc; mon := mon tc;
     mon_size := mon_size tc; mon_counter := mon_counter tc;
     cbuf := cbuf tc |}.

Definition set_bitstream (tc : timecoder) (v : Z) : timecoder :=
  {| def := def tc; speed := speed tc; dt := dt tc;
     zero_alpha := zero_alpha tc; threshold := threshold tc;
     forwards := forwards tc; primary := primary tc;
     secondary := secondary tc; pitch := pitch tc;
     ref_level := ref_level tc; bitstream := v; timecode := timecode tc;
     valid_counter := valid_counter tc;
     timecode_ticker := timecode_ticker tc; mon := mon tc;
     mon_size := mon_size tc; mon_counter := mon_counter tc;
     cbuf := cbuf tc |}.

Definition set_timecode (tc : timecoder) (v : Z) : timecoder :=
  {| def := def tc; speed := speed tc; dt := dt tc;
     zero_alpha := zero_alpha tc; threshold := threshold tc;
     forwards := forwards tc; primary := primary tc;
     secondary := secondary tc; pitch := pitch tc;
     ref_level := ref_level tc; bitstream := bitstream tc; timecode := v;
     valid_counter := valid_counter tc;
     timecode_ticker := timecode_ticker tc; mon := mon tc;
     mon_size := mon_size tc; mon_counter := mon_counter tc;
     cbuf := cbuf tc |}.

Definition set_valid_counter (tc : timecoder) (v : Z) : timecoder :=
  {| def := def tc; speed := speed tc; dt := dt tc;
     zero_alpha := zero_alpha tc; threshold := threshold tc;
     forwards := forwards tc; primary := primary tc;
     secondary := secondary tc; pitch := pitch tc;
     ref_level := ref_level tc; bitstream := bitstream tc;
     timecode := timecode tc; valid_counter := v;
     timecode_ticker := timecode_ticker tc; mon := mon tc;
     mon_size := mon_size tc; mon_counter := mon_counter tc;
     cbuf := cbuf tc |}.

Definition set_timecode_ticker (tc : timecoder) (v : Z) : timecoder :=
  {| def := def tc; speed := speed tc; dt := dt tc;
     zero_alpha := zero_alpha tc; threshold := threshold tc;
     forwards := forwards tc; primary := primary tc;
     secondary := secondary tc; pitch := pitch tc;
     ref_level := ref_level tc; bitstream := bitstream tc;
     timecode := timecode tc; valid_counter := valid_counter tc;
     timecode_ticker := v; mon := mon tc; mon_size := mon_size tc;
     mon_counter := mon_counter tc; cbuf := cbuf tc |}.

Definition set_mon (tc : timecoder) (v : option (list Z)) : timecoder :=
  {| def := def tc; speed := speed tc; dt := dt tc;
     zero_alpha := zero_alpha tc; threshold := threshold tc;
     forwards := forwards tc; primary := primary tc;
     secondary := secondary tc; pitch := pitch tc;
     ref_level := ref_level tc; bitstream := bitstream tc;
     timecode := timecode tc; valid_counter := valid_counter tc;
     timecode_ticker := timecode_ticker tc; mon := v;
     mon_size := mon_size tc; mon_counter := mon_counter tc;
     cbuf := cbuf tc |}.

Definition set_mon_size (tc : timecoder) (v : Z) : timecoder :=
  {| def := def tc; speed := speed tc; dt := dt tc;
     zero_alpha := zero_alpha tc; threshold := threshold tc;
     forwards := forwards tc; primary := primary tc;
     secondary := secondary tc; pitch := pitch tc;
     ref_level := ref_level tc; bitstream := bitstream tc;
     timecode := timecode tc; valid_counter := valid_counter tc;
     timecode_ticker := timecode_ticker tc; mon := mon tc; mon_size := v;
     mon_counter := mon_counter tc; cbuf := cbuf tc |}.

Definition set_mon_counter (tc : timecoder) (v : Z) : timecoder :=
  {| def := def tc; speed := speed tc; dt := dt tc;
     zero_alpha := zero_alpha tc; threshold := threshold tc;
     forwards := forwards tc; primary := primary tc;
     secondary := secondary tc; pitch := pitch tc;
     ref_level := ref_level tc; bitstream := bitstream tc;
     timecode := timecode tc; valid_counter := valid_counter tc;
     timecode_ticker := timecode_ticker tc; mon := mon tc;
     mon_size := mon_size tc; mon_counter := v; cbuf := cbuf tc |}.

Definition set_cbuf (tc : timecoder) (v : cbuf_t) : timecoder :=
  {| def := def tc; speed := speed tc; dt := dt tc;
     zero_alpha := zero_alpha tc; threshold := threshold tc;
     forwards := forwards tc; primary := primary tc;
     secondary := secondary tc; pitch := pitch tc;
     ref_level := ref_level tc; bitstream := bitstream tc;
     timecode := timecode tc; valid_counter := valid_counter tc;
     timecode_ticker := timecode_ticker tc; mon := mon tc;
     mon_size := mon_size tc; mon_counter := mon_counter tc; cbuf := v |}.

(** ** The decoder *)

Definition null_def : timecode_def := entry "" "" 0 0 0 0 0 0 0.

(** [(double) 0.3] and [1.25], as binary64 values. *)
Definition ALPHA : float := 0x1.3333333333333p-2%float.
Definition MON_SCALE : float := 1.25%float.

Definition init_channel (ch : timecoder_channel) : timecoder_channel :=
  set_zero (set_positive ch false) 0.

(** [detect_zero_crossing]: update channel information with
    axis-crossings. *)
Definition detect_zero_crossing (ch : timecoder_channel) (v : Z)
    (alpha : float) (threshold : Z) : timecoder_channel :=
  let ch := set_crossing_ticker ch (u32 (crossing_ticker ch + 1)) in
  let ch := set_swapped ch false in
  let ch :=
    if (s32 (zero ch + threshold) <? v) && negb (positive ch) then
      set_crossing_ticker (set_positive (set_swapped ch true) true) 0
    else if (v <? s32 (zero ch - threshold)) && positive ch then
      set_crossing_ticker (set_positive (set_swapped ch true) false) 0
    else ch in
  set_zero ch
    (int_of_double
       (PrimFloat.add (double_of_int (zero ch))
          (PrimFloat.mul alpha (double_of_int (s32 (v - zero ch)))))).

Section Decoder.
(** The value of the [int] expression [1 << n] where C leaves it
    undefined ([n] not below 31): whatever the target produces. *)
Variable wide_shl : Z -> Z.

(** The table [timecodes] as it stands (lookup tables built or not). *)
Variable tbl : list timecode_def.

(** [1 << n] in [int] arithmetic. *)
Definition int_shl1 (n : Z) : Z :=
  if (0 <=? n) && (n <? 31) then 2 ^ n else s32 (wide_shl n).

(** [tc->def], dereferenced. *)
Definition tc_def (tc : timecoder) : timecode_def := nth (def tc) tbl null_def.

(** [timecoder_init]; [tc] is the memory the caller hands over, [d] the
    definition ([None] for a null pointer). *)
Definition timecoder_init (tc : timecoder) (d : option nat) (sp : float)
    (sample_rate : Z) (phono : bool) : option timecoder :=
  match d with
  | None => None
  | Some i =>
      if negb (lookup (nth i tbl null_def)) then None
      else
        let dt' := PrimFloat.div 1%float (double_of_int (u32 sample_rate)) in
        let th := if phono then Z.shiftr ZERO_THRESHOLD 5 else ZERO_THRESHOLD in
        let cb :=
          if has_flag (flags (nth i tbl null_def)) OFFSET_MODULATION then
            {| array := map (fun _ => 0) (firstn (Z.to_nat (size (cbuf tc)))
                                            (array (cbuf tc)))
                        ++ skipn (Z.to_nat (size (cbuf tc))) (array (cbuf tc));
               size := 10; read_ptr := 0; write_ptr := 0 |}
          else cbuf tc in
        Some {| def := i; speed := sp; dt := dt';
                zero_alpha := PrimFloat.div dt' (PrimFloat.add ZERO_RC dt');
                threshold := th; forwards := true;
                primary := init_channel (primary tc);
                secondary := init_channel (secondary tc);
                pitch := pitch_init dt';
                ref_level := INT_MAX; bitstream := 0; timecode := 0;
                valid_counter := 0; timecode_ticker := 0;
                mon := None; mon_size := mon_size tc;
                mon_counter := mon_counter tc; cbuf := cb |}
  end.

Definition timecoder_clear (tc : timecoder) : option timecoder :=
  match mon tc with
  | None => Some tc
  | Some _ => None
  end.

(** [timecoder_monitor_init]; [malloc_ok] tells whether [malloc] finds
    the memory.  The returned [int] and the decoder. *)
Definition timecoder_monitor_init (malloc_ok : bool) (tc : timecoder)
    (sz : Z) : option (Z * timecoder) :=
  match mon tc with
  | Some _ => None
  | None =>
      let tc := set_mon_size tc sz in
      let n := s32 (mon_size tc * mon_size tc) in
      if malloc_ok && (0 <=? n) then
        let tc := set_mon tc (Some (repeat 0 (Z.to_nat n))) in
        Some (0, set_mon_counter tc 0)
      else Some (-1, tc)
  end.

Definition timecoder_monitor_clear (tc : timecoder) : option timecoder :=
  match mon tc with
  | None => None
  | Some _ => Some (set_mon tc None)
  end.

(** [update_monitor]: plot the given sample value in the x-y monitor. *)
Definition update_monitor (tc : timecoder) (x y : Z) : option timecoder :=
  match mon tc with
  | None => Some tc
  | Some buf =>
      let sz := mon_size tc in
      let ref := ref_level tc in
      let tc := set_mon_counter tc (s32 (mon_counter tc + 1)) in
      let buf :=
        if Z.rem (mon_counter tc) MONITOR_DECAY_EVERY =? 0 then
          map (fun p => if p =? 0 then p else u8 (Z.quot (p * 7) 8))
              (firstn (Z.to_nat (s32 (sz * sz))) buf)
          ++ skipn (Z.to_nat (s32 (sz * sz))) buf
        else buf in
      let tc := set_mon tc (Some buf) in
      if negb (0 <? ref) then None
      else
        let px := s32 (Z.quot sz 2 + Z.quot (Z.quot (x * sz) ref) 8) in
        let py := s32 (Z.quot sz 2 + Z.quot (Z.quot (y * sz) ref) 8) in
        if (px <? 0) || (sz <=? px) || (py <? 0) || (sz <=? py) then Some tc
        else
          Some (set_mon tc (Some (<[Z.to_nat (s32 (py * sz + px)) := 0xff]> buf)))
  end.

(** [process_bitstream], the shifts: add the bit to the bitstream, and
    work out what we were expecting (timecode). *)
Definition shift_bit (tc : timecoder) (b : Z) : timecoder :=
  let d := tc_def tc in
  if forwards tc then
    let tc := set_timecode tc (fwd (timecode tc) d) in
    set_bitstream tc
      (u128 (Z.shiftr (bitstream tc) 1 + u128 (Z.shiftl b (bits d - 1))))
  else
    let mask := u128 (s32 (int_shl1 (bits d) - 1)) in
    let tc := set_timecode tc (rev (timecode tc) d) in
    set_bitstream tc
      (u128 (Z.land (u128 (Z.shiftl (bitstream tc) 1)) mask + b)).

(** [process_bitstream], the comparison of what was read with what was
    expected. *)
Definition score_validity (tc : timecoder) : timecoder :=
  if timecode tc =? bitstream tc
  then set_valid_counter tc (u32 (valid_counter tc + 1))
  else set_valid_counter (set_timecode tc (bitstream tc)) 0.

(** [process_bitstream], the reference level adjusted on the new peak. *)
Definition track_envelope (tc : timecoder) (m : Z) : timecoder :=
  let tc :=
    set_ref_level tc
      (s32 (ref_level tc - Z.quot (ref_level tc) REF_PEAKS_AVG)) in
  set_ref_level tc (s32 (ref_level tc + Z.quot m REF_PEAKS_AVG)).

(** [process_bitstream]: extract the bitstream from the sample value. *)
Definition process_bitstream (tc : timecoder) (m : Z) : timecoder :=
  let tc :=
    if has_flag (flags (tc_def tc)) OFFSET_MODULATION
    then set_cbuf tc (cbuf_push (cbuf tc) m) else tc in
  let b := Z.b2z (ref_level tc <? m) in
  let tc := shift_bit tc b in
  let tc := score_validity tc in
  let tc := set_timecode_ticker tc 0 in
  track_envelope tc m.
End Decoder.

Section Pipeline.
Variable wide_shl : Z -> Z.
Variable tbl : list timecode_def.

(** [process_sample], first part: both channels through
    [detect_zero_crossing], on the derivative of the smoothed signal for
    an offset-modulated timecode. *)
Definition track_channels (fs : filters) (tc : timecoder)
    (primary_v secondary_v : Z) : filters * timecoder :=
  if has_flag (flags (tc_def tbl tc)) OFFSET_MODULATION then
    let (pe, pe_old) := ema primary_v (ema_primary_old fs) ALPHA in
    let (primary_deriv, p_old) := discrete_derivative pe (primary_old fs) in
    let (se, se_old) := ema secondary_v (ema_secondary_old fs) ALPHA in
    let (secondary_deriv, s_old) := discrete_derivative se (secondary_old fs) in
    let fs := {| ema_primary_old := pe_old; ema_secondary_old := se_old;
                 primary_old := p_old; secondary_old := s_old;
                 left_old := left_old fs; right_old := right_old fs |} in
    let tc := set_primary tc
                (detect_zero_crossing (primary tc) primary_deriv
                   (zero_alpha tc) (threshold tc)) in
    (fs, set_secondary tc
           (detect_zero_crossing (secondary tc) secondary_deriv
              (zero_alpha tc) (threshold tc)))
  else
    let tc := set_primary tc
                (detect_zero_crossing (primary tc) primary_v
                   (zero_alpha tc) (threshold tc)) in
    (fs, set_secondary tc
           (detect_zero_crossing (secondary tc) secondary_v
              (zero_alpha tc) (threshold tc))).

(** The direction of the vinyl computed from a crossing. *)
Definition crossing_direction (tc : timecoder) : bool :=
  let fw :=
    if swapped (primary tc)
    then negb (eqb (positive (primary tc)) (positive (secondary tc)))
    else eqb (positive (primary tc)) (positive (secondary tc)) in
  if has_flag (flags (tc_def tbl tc)) SWITCH_PHASE then negb fw else fw.

(** [process_sample], second part: if an axis has been crossed, use the
    direction of the crossing to work out the direction of the vinyl. *)
Definition infer_direction (tc : timecoder) : timecoder :=
  if swapped (primary tc) || swapped (secondary tc) then
    let fw := crossing_direction tc in
    if negb (eqb fw (forwards tc))
    then set_valid_counter (set_forwards tc fw) 0
    else tc
  else tc.

(** [process_sample], third part: register movement using the pitch
    counters. *)
Definition observe_pitch (tc : timecoder) : timecoder :=
  if negb (swapped (primary tc)) && negb (swapped (secondary tc))
  then set_pitch tc (pitch_dt_observation (pitch tc) 0%float)
  else
    let dx := PrimFloat.div
                (PrimFloat.div 1%float
                   (double_of_int (resolution (tc_def tbl tc))))
                4%float in
    let dx := if negb (forwards tc) then PrimFloat.opp dx else dx in
    set_pitch tc (pitch_dt_observation (pitch tc) dx).

(** [process_sample], fourth part: read off a timecode 0 or 1 value. *)
Definition read_bit (tc : timecoder) (primary_v : Z) : timecoder :=
  if swapped (secondary tc) &&
     eqb (positive (primary tc))
         (Z.land (flags (tc_def tbl tc)) SWITCH_POLARITY =? 0)
  then
    let m := s32 (Z.abs (s32 (Z.quot primary_v 2
                              - Z.quot (zero (primary tc)) 2))) in
    process_bitstream wide_shl tbl tc m
  else tc.

(** [process_sample]: process a single sample from the incoming audio. *)
Definition process_sample (fs : filters) (tc : timecoder)
    (primary_v secondary_v : Z) : filters * timecoder :=
  let (fs, tc) := track_channels fs tc primary_v secondary_v in
  let tc := infer_direction tc in
  let tc := observe_pitch tc in
  let tc := read_bit tc primary_v in
  (fs, set_timecode_ticker tc (u32 (timecode_ticker tc + 1))).

(** [def++], back to the first entry after the last. *)
Definition next_index (i : nat) : nat :=
  if (List.length tbl <=? S i)%nat then O else S i.

(** The loop of [next_definition], at most [fuel] times round; [None]
    when it has not stopped by then. *)
Fixpoint next_definition_loop (fuel : nat) (i : nat) : option nat :=
  match fuel with
  | O => None
  | S fuel' =>
      let i := next_index i in
      if negb (lookup (nth i tbl null_def)) then next_definition_loop fuel' i
      else Some i
  end.

(** [next_definition]: once round the table visits every entry, so the
    loop that has not stopped by then never stops. *)
Definition next_definition (i : nat) : option nat :=
  next_definition_loop (List.length tbl) i.

Definition timecoder_cycle_definition (tc : timecoder) : option timecoder :=
  match next_definition (def tc) with
  | None => None
  | Some i =>
      Some (set_timecode_ticker (set_valid_counter (set_def tc i) 0) 0)
  end.

(** One turn of the loop of [timecoder_submit], on the frame
    [(pcm[0], pcm[1])]. *)
Definition submit_frame (st : filters * timecoder) (frame : Z * Z)
  : option (filters * timecoder) :=
  let (fs, tc) := st in
  let left := s32 (Z.shiftl (s16 (fst frame)) 16) in
  let right := s32 (Z.shiftl (s16 (snd frame)) 16) in
  let primary_v :=
    if has_flag (flags (tc_def tbl tc)) SWITCH_PRIMARY then left else right in
  let secondary_v :=
    if has_flag (flags (tc_def tbl tc)) SWITCH_PRIMARY then right else left in
  let (fs, tc) := process_sample fs tc primary_v secondary_v in
  if has_flag (flags (tc_def tbl tc)) OFFSET_MODULATION then
    let (mon_left, l_old) := discrete_derivative left (left_old fs) in
    let (mon_right, r_old) := discrete_derivative right (right_old fs) in
    let fs := {| ema_primary_old := ema_primary_old fs;
                 ema_secondary_old := ema_secondary_old fs;
                 primary_old := primary_old fs;
                 secondary_old := secondary_old fs;
                 left_old := l_old; right_old := r_old |} in
    match update_monitor tc
            (int_of_double (PrimFloat.mul (double_of_int mon_left) MON_SCALE))
            (int_of_double (PrimFloat.mul (double_of_int mon_right) MON_SCALE))
    with
    | None => None
    | Some tc => Some (fs, tc)
    end
  else
    match update_monitor tc left right with
    | None => None
    | Some tc => Some (fs, tc)
    end.

(** [timecoder_submit]: submit and decode a block of PCM audio data. *)
Fixpoint timecoder_submit (st : filters * timecoder) (pcm : list (Z * Z))
  : option (filters * timecoder) :=
  match pcm with
  | [] => Some st
  | frame :: rest =>
      match submit_frame st frame with
      | None => None
      | Some st => timecoder_submit st rest
      end
  end.

(** [timecoder_get_position]: the returned [int], the content of [*when]
    ([None] for a null pointer) and the decoder. *)
Definition timecoder_get_position (tc : timecoder) (when : option float)
  : Z * option float * timecoder :=
  if valid_counter tc <=? VALID_BITS then (-1, when, tc)
  else
    let r := s32 (lut_lookup (lut (tc_def tbl tc)) (bitstream tc)) in
    if r =? -1 then (-1, when, tc)
    else
      let when :=
        match when with
        | None => None
        | Some _ =>
            Some (PrimFloat.mul (double_of_int (timecode_ticker tc)) (dt tc))
        end in
      (r, when, tc).
End Pipeline.

(** ** The decoder in use

    What a host can do with a decoder: the table, the state of the filters
    (both process-wide) and one decoder. *)

Record world : Type := {
  w_tbl : list timecode_def;
  w_filters : filters;
  w_tc : timecoder
}.

Inductive op : Type :=
| Submit (pcm : list (Z * Z))
| CycleDefinition
| MonitorInit (sz : Z) (malloc_ok : bool)
| MonitorClear
| GetPosition (when : option float)
| FindDefinition (nm : string) (mem_ok : bool)
| FreeLookup
| Clear.

(** The world after an operation; [None] when the operation aborts on an
    assertion or does not return. *)
Definition run_op (wide_shl : Z -> Z) (w : world) (o : op) : option world :=
  match o with
  | Submit pcm =>
      match timecoder_submit wide_shl (w_tbl w) (w_filters w, w_tc w) pcm with
      | None => None
      | Some (fs, tc) => Some {| w_tbl := w_tbl w; w_filters := fs; w_tc := tc |}
      end
  | CycleDefinition =>
      match timecoder_cycle_definition (w_tbl w) (w_tc w) with
      | None => None
      | Some tc =>
          Some {| w_tbl := w_tbl w; w_filters := w_filters w; w_tc := tc |}
      end
  | MonitorInit sz malloc_ok =>
      match timecoder_monitor_init malloc_ok (w_tc w) sz with
      | None => None
      | Some (_, tc) =>
          Some {| w_tbl := w_tbl w; w_filters := w_filters w; w_tc := tc |}
      end
  | MonitorClear =>
      match timecoder_monitor_clear (w_tc w) with
      | None => None
      | Some tc =>
          Some {| w_tbl := w_tbl w; w_filters := w_filters w; w_tc := tc |}
      end
  | GetPosition when =>
      let '(_, _, tc) := timecoder_get_position (w_tbl w) (w_tc w) when in
      Some {| w_tbl := w_tbl w; w_filters := w_filters w; w_tc := tc |}
  | FindDefinition nm mem_ok =>
      match timecoder_find_definition mem_ok nm (w_tbl w) with
      | None => None
      | Some (tbl, _) =>
          Some {| w_tbl := tbl; w_filters := w_filters w; w_tc := w_tc w |}
      end
  | FreeLookup =>
      Some {| w_tbl := timecoder_free_lookup (w_tbl w);
              w_filters := w_filters w; w_tc := w_tc w |}
  | Clear =>
      match timecoder_clear (w_tc w) with
      | None => None
      | Some tc =>
          Some {| w_tbl := w_tbl w; w_filters := w_filters w; w_tc := tc |}
      end
  end.

(** The worlds a host can bring about: a decoder initialised on some
    memory, then any operations. *)
Inductive reachable (wide_shl : Z -> Z) : world -> Prop :=
| reachable_init tbl fs tc0 i sp rate phono tc :
    timecoder_init tbl tc0 (Some i) sp rate phono = Some tc ->
    reachable wide_shl {| w_tbl := tbl; w_filters := fs; w_tc := tc |}
| reachable_step w o w' :
    reachable wide_shl w -> run_op wide_shl w o = Some w' ->
    reachable wide_shl w'.

(** What the target of the usual x86-64 build produces for [1 << n] with a
    register count: the count is taken modulo 32. *)
Definition x86_shl (n : Z) : Z := 2 ^ (n mod 32).

(** ** Concrete states used below *)

Definition blank_channel : timecoder_channel :=
  {| positive := false; swapped := false; zero := 0; crossing_ticker := 0 |}.

(** Zeroed memory for a [struct timecoder]. *)
Definition blank_timecoder : timecoder :=
  {| def := O; speed := 0%float; dt := 0%float; zero_alpha := 0%float;
     threshold := 0; forwards := false;
     primary := blank_channel; secondary := blank_channel;
     pitch := pitch_init 0%float;
     ref_level := 0; bitstream := 0; timecode := 0;
     valid_counter := 0; timecode_ticker := 0;
     mon := None; mon_size := 0; mon_counter := 0;
     cbuf := {| array := []; size := 0; read_ptr := 0; write_ptr := 0 |} |}.

Definition blank_filters : filters :=
  {| ema_primary_old := 0; ema_secondary_old := 0; primary_old := 0;
     secondary_old := 0; left_old := 0; right_old := 0 |}.

(** The table once every definition has been found and the lookup tables
    freed again ([timecoder_free_lookup] leaves the flags set). *)
Definition found_table : list timecode_def :=
  map (fun d => set_lut d lut_init true) timecodes.

(** Peaks that put the bits 1, fifty-eight 0 and 1 into the bitstream, once
    sixty low peaks have brought the reference level down. *)
Definition mk2_peaks : list Z :=
  repeat 0 60 ++ [2 ^ 30] ++ repeat 0 58 ++ [2 ^ 30].

(** A decoder on [traktor_mk2_a] (entry 5, 110 bits) that has read these
    peaks forwards. *)
Definition mk2_forward : timecoder :=
  match timecoder_init found_table blank_timecoder (Some 5%nat)
          1%float 44100 false with
  | Some tc => fold_left (process_bitstream x86_shl found_table) mk2_peaks tc
  | None => blank_timecoder
  end.

(** The same decoder when the direction has changed (what
    [process_sample] does then): it plays in reverse, and its bitstream
    holds the bits 109 and 50. *)
Definition mk2_reverse : timecoder :=
  set_valid_counter (set_forwards mk2_forward false) 0.

(** The positions of a table are those of a sequence shorter than
    [INT_MAX], as [build_lookup] leaves them ([length] is an
    [unsigned int] below [2^31] for every entry of the catalogue). *)
Definition lut_positions_fit (l : lut_t) : Prop :=
  forall x p, slots l !! x = Some p -> 0 <= p < 2 ^ 31.

(** A table of one definition whose lookup table holds the states 5 and 9,
    and a decoder on it that has read 30 good bits and stands on 9. *)
Definition small_table : list timecode_def :=
  [ set_lut (entry "small" "small" 1000 0 4 5 1 2 2)
            (lut_push (lut_push lut_init 5) 9) true ].

Definition small_decoder : timecoder :=
  set_timecode_ticker
    (set_dt (set_valid_counter (set_bitstream blank_timecoder 9) 30) 0.5%float)
    3.

(** What holds of a decoder between two operations: the expected register
    equals the one read, the reference level is a positive [int], and the
    baseline of the primary channel is an [int]. *)
Definition decoder_inv (tc : timecoder) : Prop :=
  timecode tc = bitstream tc /\
  1 <= ref_level tc <= INT_MAX /\
  INT_MIN <= zero (primary tc) <= INT_MAX.

(** A decoder initialised on zeroed memory, at 48 kHz. *)
Definition small_world : world :=
  {| w_tbl := small_table; w_filters := blank_filters;
     w_tc := match timecoder_init small_table blank_timecoder (Some O)
                     1%float 48000 false with
             | Some tc => tc
             | None => blank_timecoder
             end |}.


(** ** Auxiliary notions *)

(** What [timecoder_free_lookup] does to one entry. *)
Definition free_entry (d : timecode_def) : timecode_def :=
  if lookup d then set_lut d (lut_clear (lut d)) true else d.

(** A pixel of the monitor, an [unsigned char]. *)
Definition pixel (p : Z) : Prop := 0 <= p < 256.

(** What no sample changes: the definition, the settings made by
    [timecoder_init], and the size of the monitor. *)
Definition settings (tc : timecoder) : nat * float * float * float * Z * Z :=
  (def tc, speed tc, dt tc, zero_alpha tc, threshold tc, mon_size tc).

(** The number of pixels of the monitor, if there is one. *)
Definition monitor_pixels (tc : timecoder) : option nat :=
  match mon tc with
  | None => None
  | Some buf => Some (List.length buf)
  end.

(** A definition of four bits whose sequence starts 1, 8, 4, 2, 9, ... and
    does not come back within its length; the table with that definition
    built; a decoder on it at position 0, forwards, with 24 valid bits;
    and one at position 1, in reverse. *)
Definition ring_def : timecode_def := entry "ring" "ring" 1000 0 4 1 3 8 8.

Definition ring_table : list timecode_def :=
  match build_lookup true ring_def with
  | Some (_, d) => [d]
  | None => []
  end.

Definition ring_decoder : timecoder :=
  match timecoder_init ring_table blank_timecoder (Some O) 1%float 44100 false with
  | Some tc =>
      set_valid_counter
        (set_ref_level (set_timecode (set_bitstream tc 1) 1) 10) 24
  | None => blank_timecoder
  end.

Definition ring_decoder_reverse : timecoder :=
  set_forwards (set_timecode (set_bitstream ring_decoder 8) 8) false.

(** Two decoders on the same definition, both forwards, with the same
    reference level, whose bitstreams agree on their [k] top bits. *)
Definition agree (tbl : list timecode_def) (k : Z) (tc1 tc2 : timecoder)
  : Prop :=
  def tc1 = def tc2 /\ forwards tc1 = true /\ forwards tc2 = true /\
  ref_level tc1 = ref_level tc2 /\
  0 <= bitstream tc1 < 2 ^ bits (tc_def tbl tc1) /\
  0 <= bitstream tc2 < 2 ^ bits (tc_def tbl tc1) /\
  Z.shiftr (bitstream tc1) (bits (tc_def tbl tc1) - k)
  = Z.shiftr (bitstream tc2) (bits (tc_def tbl tc1) - k).

(** A decoder on [serato_2a] at 44100 Hz that has read a hundred frames of
    a quiet signal, pcm -2 on both channels; a sample at full scale, pcm
    32767; and a channel whose zero level is five below [INT_MAX]. *)
Definition quiet_pcm : list (Z * Z) := repeat (-2, -2) 100.

Definition drifted : timecoder :=
  match timecoder_init found_table blank_timecoder (Some O) 1%float 44100 false with
  | Some tc =>
      match timecoder_submit x86_shl found_table (blank_filters, tc) quiet_pcm with
      | Some (_, tc') => tc'
      | None => blank_timecoder
      end
  | None => blank_timecoder
  end.

Definition full_scale : Z := s32 (Z.shiftl (s16 32767) 16).

Definition edge_channel : timecoder_channel :=
  {| positive := false; swapped := false; zero := INT_MAX - 5;
     crossing_ticker := 0 |}.

(** The assertions of [build_lookup]. *)
Inductive build_stop : Type :=
| stop_wrap       (* timecode must not wrap *)
| stop_symmetry.  (* check symmetry of the lfsr functions *)

(** The loop of [build_lookup] once more, telling which assertion stops
    it, if any: [None] when the loop runs to its end. *)
Fixpoint build_loop_stops (def : timecode_def) (n : nat) (l : lut_t)
    (current : Z) : option build_stop :=
  match n with
  | O => None
  | S n' =>
      if negb (lut_lookup l current =? LUT_ABSENT) then Some stop_wrap
      else
        let l := lut_push l current in
        let next := fwd current def in
        if negb (rev next def =? current) then Some stop_symmetry
        else build_loop_stops def n' l next
  end.

(* ================================================================== *)
(** * Properties *)

(** ** Machine integers *)

Lemma u128_small z : 0 <= z < 2 ^ 128 -> u128 z = z.
Proof. intros H. unfold u128. now apply Z.mod_small. Qed.

(** ** Parity *)

Lemma lfsr_while_unfold taken xrs :
  0 <= taken ->
  lfsr_while taken xrs =
  if taken =? 0 then xrs
  else lfsr_while (Z.shiftr taken 1) (xrs + Z.land taken 0x1).
Proof.
  intros H. destruct taken as [|p|p]; [reflexivity| |lia].
  destruct p; cbn -[Z.add]; reflexivity.
Qed.

Lemma lfsr_loop_odd p xrs :
  Z.odd (lfsr_loop p xrs) = xorb (Z.odd xrs) (Pparity p).
Proof.
  revert xrs; induction p as [p IH|p IH|]; intros xrs; cbn [lfsr_loop Pparity].
  - rewrite IH, Z.odd_add. cbn. now destruct (Z.odd xrs), (Pparity p).
  - rewrite IH, Z.add_0_r. reflexivity.
  - rewrite Z.odd_add. cbn. now destruct (Z.odd xrs).
Qed.

Lemma land_1_odd z : Z.land z 1 = Z.b2z (Z.odd z).
Proof.
  change 1 with (Z.ones 1). rewrite Z.land_ones by lia.
  rewrite <- Z.bit0_odd. symmetry. apply Z.bit0_mod.
Qed.

Lemma lfsr_parity code taps :
  lfsr code taps = Z.b2z (Zparity (Z.land code taps)).
Proof.
  unfold lfsr. rewrite land_1_odd. f_equal.
  destruct (Z.land code taps) as [|p|p]; cbn; try reflexivity.
  rewrite lfsr_loop_odd. reflexivity.
Qed.

Lemma lfsr_bit code taps : lfsr code taps = 0 \/ lfsr code taps = 1.
Proof. rewrite lfsr_parity. destruct (Zparity _); cbn; auto. Qed.

Lemma Zparity_Ndouble n :
  Zparity (Z.of_N (Pos.Ndouble n)) = Zparity (Z.of_N n).
Proof. now destruct n. Qed.

Lemma Zparity_Nsucc_double n :
  Zparity (Z.of_N (Pos.Nsucc_double n)) = negb (Zparity (Z.of_N n)).
Proof. now destruct n. Qed.

#[local] Arguments Pos.lxor _ _ : simpl nomatch.

Lemma Pparity_lxor p q :
  Zparity (Z.of_N (Pos.lxor p q)) = xorb (Pparity p) (Pparity q).
Proof.
  revert q; induction p as [p IH|p IH|]; intros [q|q|]; simpl Pos.lxor;
    rewrite ?Zparity_Ndouble, ?Zparity_Nsucc_double, ?IH;
    cbn [Z.of_N Zparity Pparity]; try clear IH;
    repeat match goal with |- context [Pparity ?r] => destruct (Pparity r) end;
    reflexivity.
Qed.

Lemma Zparity_lxor a b :
  0 <= a -> 0 <= b -> Zparity (Z.lxor a b) = xorb (Zparity a) (Zparity b).
Proof.
  intros Ha Hb. destruct a as [|p|p], b as [|q|q]; try lia; cbn [Z.lxor Zparity].
  - reflexivity.
  - reflexivity.
  - now rewrite xorb_false_r.
  - apply Pparity_lxor.
Qed.

Lemma Zparity_b2z b : Zparity (Z.b2z b) = b.
Proof. now destruct b. Qed.

Lemma Zparity_double a : 0 <= a -> Zparity (2 * a) = Zparity a.
Proof. intros H. destruct a; try lia; reflexivity. Qed.

Lemma Zparity_shiftl a k : 0 <= a -> 0 <= k -> Zparity (Z.shiftl a k) = Zparity a.
Proof.
  intros Ha Hk. revert a Ha. pattern k. apply natlike_ind; [ | | exact Hk].
  - intros a _. now rewrite Z.shiftl_0_r.
  - intros n Hn IH a Ha. replace (Z.succ n) with (1 + n) by lia.
    rewrite <- Z.shiftl_shiftl by lia.
    rewrite IH by (apply Z.shiftl_nonneg; lia).
    rewrite Z.shiftl_mul_pow2 by lia. rewrite Z.mul_comm. now apply Zparity_double.
Qed.

Lemma Zparity_shiftr1 a :
  0 <= a -> Zparity a = xorb (Z.odd a) (Zparity (Z.shiftr a 1)).
Proof.
  intros H. destruct a as [|p|p]; try lia; [reflexivity|].
  destruct p; cbn; reflexivity.
Qed.

(** ** One step forwards and back *)

Ltac bitblast_eqb :=
  Z.bitblast;
  repeat match goal with
         | |- context [?a =? ?b] => destruct (Z.eqb_spec a b)
         end;
  try (exfalso; lia);
  try (subst;
       repeat match goal with
              | |- context [Z.testbit ?a ?n] =>
                  rewrite (Z.testbit_neg_r a n) by lia
              end);
  try btauto.

Lemma small_land x n : 0 <= x < 2 ^ n -> x = Z.land x (Z.ones n).
Proof.
  intros H. assert (0 <= n).
  { destruct (Z.le_gt_cases 0 n); [assumption|].
    rewrite Z.pow_neg_r in H by lia. lia. }
  rewrite Z.land_ones by lia. symmetry. now apply Z.mod_small.
Qed.

Lemma testbit_above x n i : 0 <= x < 2 ^ n -> n <= i -> Z.testbit x i = false.
Proof.
  intros Hx Hi. rewrite (small_land x n Hx).
  assert (0 <= n).
  { destruct (Z.le_gt_cases 0 n); [assumption|].
    rewrite Z.pow_neg_r in Hx by lia. lia. }
  rewrite Z.land_spec, Z.ones_spec_high by lia. apply andb_false_r.
Qed.

Section Lfsr_step.
Variable def : timecode_def.
Hypothesis bits_range : 0 < bits def < 128.
Hypothesis taps_nonneg : 0 <= taps def.

Lemma mask_ones : u128 (u128 (Z.shiftl 1 (bits def)) - 1) = Z.ones (bits def).
Proof.
  rewrite Z.shiftl_1_l, Z.ones_equiv.
  assert (2 ^ bits def <= 2 ^ 127) by (apply Z.pow_le_mono_r; lia).
  assert (0 < 2 ^ bits def) by (apply Z.pow_pos_nonneg; lia).
  rewrite (u128_small (2 ^ bits def)) by lia.
  rewrite u128_small by lia. lia.
Qed.

Lemma b2z_shiftl_small (l : bool) k :
  0 <= k < 128 -> u128 (Z.shiftl (Z.b2z l) k) = Z.shiftl (Z.b2z l) k.
Proof.
  intros Hk. apply u128_small. rewrite Z.shiftl_mul_pow2 by lia.
  assert (0 < 2 ^ k) by (apply Z.pow_pos_nonneg; lia).
  assert (2 ^ k <= 2 ^ 127) by (apply Z.pow_le_mono_r; lia).
  destruct l; cbn [Z.b2z]; lia.
Qed.

Lemma fwd_eq x :
  fwd x def =
  Z.lor (Z.shiftr x 1)
    (Z.shiftl (Z.b2z (Zparity (Z.land x (Z.lor (taps def) 1)))) (bits def - 1)).
Proof.
  unfold fwd. cbv zeta. rewrite lfsr_parity, b2z_shiftl_small by lia.
  reflexivity.
Qed.

Lemma rev_eq x :
  rev x def =
  Z.lor (Z.land (u128 (Z.shiftl x 1)) (Z.ones (bits def)))
    (Z.b2z (Zparity (Z.land x (Z.lor (Z.shiftr (taps def) 1)
                                     (Z.shiftl 1 (bits def - 1)))))).
Proof.
  unfold rev. cbv zeta. rewrite lfsr_parity, mask_ones.
  rewrite (u128_small (bits def - 1)) by lia.
  change 1 with (Z.b2z true) at 3. rewrite b2z_shiftl_small by lia.
  reflexivity.
Qed.

Lemma parity_after_fwd x (l : bool) :
  0 <= x < 2 ^ bits def ->
  Z.land (Z.lor (Z.shiftr x 1) (Z.shiftl (Z.b2z l) (bits def - 1)))
         (Z.lor (Z.shiftr (taps def) 1) (Z.shiftl 1 (bits def - 1)))
  = Z.lxor (Z.land (Z.shiftr x 1) (Z.shiftr (taps def) 1))
           (Z.shiftl (Z.b2z l) (bits def - 1)).
Proof.
  intros Hx. rewrite (small_land x (bits def) Hx).
  destruct l; cbn [Z.b2z]; rewrite ?Z.shiftl_1_l, ?Z.shiftl_0_l.
  - bitblast_eqb.
  - bitblast_eqb.
Qed.

Lemma lfsr_bit_fwd x :
  0 <= x < 2 ^ bits def ->
  Zparity (Z.land (fwd x def)
             (Z.lor (Z.shiftr (taps def) 1) (Z.shiftl 1 (bits def - 1))))
  = Z.odd x.
Proof.
  intros Hx. rewrite fwd_eq, parity_after_fwd by assumption.
  rewrite Zparity_lxor, Zparity_shiftl, Zparity_b2z.
  - rewrite (Zparity_shiftr1 (Z.land x _)).
    + rewrite Z.shiftr_land, Z.shiftr_lor. change (Z.shiftr 1 1) with 0.
      rewrite Z.lor_0_r, <- Z.bit0_odd, Z.land_spec, Z.lor_spec.
      change (Z.testbit 1 0) with true. rewrite orb_true_r, andb_true_r.
      rewrite Z.bit0_odd.
      now destruct (Z.odd x), (Zparity _).
    + apply Z.land_nonneg. lia.
  - now destruct (Zparity _).
  - lia.
  - apply Z.land_nonneg. left. apply Z.shiftr_nonneg. lia.
  - apply Z.shiftl_nonneg. now destruct (Zparity _).
Qed.

Theorem rev_fwd_id x :
  0 <= x < 2 ^ bits def -> rev (fwd x def) def = x.
Proof.
  intros Hx. rewrite rev_eq, lfsr_bit_fwd by assumption.
  rewrite fwd_eq. rewrite <- land_1_odd. unfold u128.
  set (l := Zparity _). clearbody l.
  change (Z.land x 1) with (Z.land x (Z.ones 1)).
  rewrite (small_land x (bits def) Hx).
  destruct l; cbn [Z.b2z]; rewrite ?Z.shiftl_1_l, ?Z.shiftl_0_l;
    bitblast_eqb; rewrite Z.land_spec, Z.ones_spec_low by lia; btauto.
Qed.

Lemma rev_shiftr x l :
  0 <= x < 2 ^ bits def ->
  Z.shiftr (Z.lor (Z.land (u128 (Z.shiftl x 1)) (Z.ones (bits def))) (Z.b2z l)) 1
  = Z.land x (Z.ones (bits def - 1)).
Proof.
  intros Hx. unfold u128.
  destruct l; cbn [Z.b2z]; [change 1 with (Z.ones 1) at 2|];
    bitblast_eqb.
Qed.

Lemma rev_odd x l :
  Z.odd (Z.land (Z.lor (Z.land (u128 (Z.shiftl x 1)) (Z.ones (bits def))) (Z.b2z l))
                (Z.lor (taps def) 1)) = l.
Proof.
  rewrite <- Z.bit0_odd. unfold u128.
  rewrite Z.land_spec, !Z.lor_spec, Z.land_spec, Z.testbit_mod_pow2 by lia.
  rewrite Z.shiftl_spec_low by lia. cbn [andb orb].
  change (Z.testbit 1 0) with true. rewrite orb_true_r, andb_true_r.
  now destruct l.
Qed.

Lemma top_bit_split x :
  0 <= x < 2 ^ bits def ->
  Z.land x (Z.lor (Z.shiftr (taps def) 1) (Z.shiftl 1 (bits def - 1)))
  = Z.lxor (Z.land (Z.land x (Z.ones (bits def - 1))) (Z.shiftr (taps def) 1))
           (Z.shiftl (Z.b2z (Z.testbit x (bits def - 1))) (bits def - 1)).
Proof.
  intros Hx. destruct (Z.testbit x (bits def - 1)) eqn:E; cbn [Z.b2z];
    rewrite ?Z.shiftl_1_l, ?Z.shiftl_0_l; bitblast_eqb;
    subst; try rewrite E; try btauto;
    rewrite (testbit_above x (bits def)) by (assumption || lia); btauto.
Qed.

Theorem fwd_rev_id x :
  0 <= x < 2 ^ bits def -> fwd (rev x def) def = x.
Proof.
  intros Hx. rewrite fwd_eq, rev_eq.
  set (l := Zparity (Z.land x _)).
  rewrite (Zparity_shiftr1 (Z.land _ (Z.lor (taps def) 1))), rev_odd.
  2:{ apply Z.land_nonneg. right. apply Z.lor_nonneg. lia. }
  rewrite Z.shiftr_land, (Z.shiftr_lor (taps def) 1), !rev_shiftr by assumption.
  change (Z.shiftr 1 1) with 0. rewrite Z.lor_0_r.
  assert (El : l = xorb (Zparity (Z.land (Z.land x (Z.ones (bits def - 1)))
                                   (Z.shiftr (taps def) 1)))
                        (Z.testbit x (bits def - 1))).
  { unfold l. rewrite top_bit_split by assumption.
    rewrite Zparity_lxor, Zparity_shiftl, Zparity_b2z; try lia; try reflexivity.
    - now destruct (Z.testbit x _).
    - apply Z.land_nonneg. right. apply Z.shiftr_nonneg. lia.
    - apply Z.shiftl_nonneg. now destruct (Z.testbit x _). }
  rewrite El. set (P := Zparity _). 
  replace (xorb (xorb P (Z.testbit x (bits def - 1))) P)
    with (Z.testbit x (bits def - 1)) by (now destruct P, (Z.testbit x _)).
  destruct (Z.testbit x (bits def - 1)) eqn:E; cbn [Z.b2z];
    rewrite ?Z.shiftl_1_l, ?Z.shiftl_0_l; bitblast_eqb;
    subst; try rewrite E; try btauto;
    (destruct (Z.eq_dec i (bits def - 1)) as [->|];
     [first [exfalso; lia | rewrite E; btauto]
     |rewrite (testbit_above x (bits def)) by (assumption || lia); btauto]).
Qed.
End Lfsr_step.




Lemma lor_bound a b n :
  0 <= a < 2 ^ n -> 0 <= b < 2 ^ n -> 0 <= Z.lor a b < 2 ^ n.
Proof.
  intros Ha Hb. split; [apply Z.lor_nonneg; lia|].
  destruct (Z.eq_dec (Z.lor a b) 0) as [->|Hne]; [lia|].
  assert (0 <= Z.lor a b) by (apply Z.lor_nonneg; lia).
  apply Z.log2_lt_pow2; [lia|].
  rewrite Z.log2_lor by lia.
  destruct (Z.eq_dec a 0) as [->|]; destruct (Z.eq_dec b 0) as [->|];
    cbn [Z.log2]; try (rewrite Z.lor_0_r in Hne || rewrite Z.lor_0_l in Hne);
    try lia.
  - rewrite Z.max_r by apply Z.log2_nonneg. apply Z.log2_lt_pow2; lia.
  - rewrite Z.max_l by apply Z.log2_nonneg. apply Z.log2_lt_pow2; lia.
  - apply Z.max_lub_lt; apply Z.log2_lt_pow2; lia.
Qed.

Lemma land_bound_r a b n :
  0 <= a -> 0 <= b < 2 ^ n -> 0 <= Z.land a b < 2 ^ n.
Proof.
  intros Ha Hb. split; [apply Z.land_nonneg; lia|].
  assert (0 <= n).
  { destruct (Z.le_gt_cases 0 n); [assumption|].
    rewrite Z.pow_neg_r in Hb by lia. lia. }
  assert (E : Z.land a b = Z.land (Z.land a b) (Z.ones n)).
  { rewrite (small_land b n Hb) at 1. now rewrite Z.land_assoc. }
  rewrite E, Z.land_ones by lia. apply Z.mod_pos_bound. apply Z.pow_pos_nonneg; lia.
Qed.

Section Lfsr_bounds.
Variable def : timecode_def.
Hypothesis bits_range : 0 < bits def < 128.
Hypothesis taps_nonneg : 0 <= taps def.

Lemma fwd_bound x : 0 <= x < 2 ^ bits def -> 0 <= fwd x def < 2 ^ bits def.
Proof.
  intros Hx. rewrite fwd_eq by assumption.
  assert (Hp : 2 ^ bits def = 2 * 2 ^ (bits def - 1)).
  { rewrite <- Z.pow_succ_r by lia. f_equal. lia. }
  assert (0 < 2 ^ (bits def - 1)) by (apply Z.pow_pos_nonneg; lia).
  apply lor_bound.
  - rewrite Z.shiftr_div_pow2 by lia. change (2 ^ 1) with 2.
    split; [apply Z.div_pos; lia|]. apply Z.div_lt_upper_bound; lia.
  - rewrite Z.shiftl_mul_pow2 by lia. destruct (Zparity _); cbn [Z.b2z]; lia.
Qed.

Lemma rev_bound x : 0 <= x -> 0 <= rev x def < 2 ^ bits def.
Proof.
  intros Hx. rewrite rev_eq by assumption.
  assert (0 < 2 ^ bits def) by (apply Z.pow_pos_nonneg; lia).
  assert (Hp : 2 ^ bits def = 2 * 2 ^ (bits def - 1)).
  { rewrite <- Z.pow_succ_r by lia. f_equal. lia. }
  assert (0 < 2 ^ (bits def - 1)) by (apply Z.pow_pos_nonneg; lia).
  apply lor_bound.
  - apply land_bound_r.
    + unfold u128. apply Z.mod_pos_bound. lia.
    + rewrite Z.ones_equiv. lia.
  - destruct (Zparity _); cbn [Z.b2z]; lia.
Qed.
End Lfsr_bounds.

(** ** The catalogue *)

Lemma timecodes_ok : forallb def_ok timecodes = true.
Proof. vm_compute. reflexivity. Qed.

Lemma catalogue_bounds d :
  In d timecodes ->
  0 < bits d < 128 /\ 0 <= taps d /\ 0 <= seed d < 2 ^ bits d /\ 0 <= length d < 2 ^ 31.
Proof.
  intros Hd. pose proof timecodes_ok as H.
  rewrite forallb_forall in H. specialize (H d Hd). unfold def_ok in H.
  rewrite !andb_true_iff in H. lia.
Qed.

Lemma reachable_code_bound d x :
  In d timecodes -> reachable_code d x -> 0 <= x < 2 ^ bits d.
Proof.
  intros Hd Hx. destruct (catalogue_bounds d Hd) as (Hb & Ht & Hs & _).
  induction Hx; [assumption|]. now apply fwd_bound.
Qed.

(** C2.  For every timecode definition of the catalogue and every register
    value on the sequence generated from its seed, one step forwards and
    one step in reverse cancel, in either order. *)
Theorem fwd_rev_mutually_inverse d x :
  In d timecodes -> reachable_code d x ->
  rev (fwd x d) d = x /\ fwd (rev x d) d = x.
Proof.
  intros Hd Hx. pose proof (reachable_code_bound d x Hd Hx) as Hb.
  destruct (catalogue_bounds d Hd) as (Hbits & Ht & _).
  split; [now apply rev_fwd_id | now apply fwd_rev_id].
Qed.

Lemma fwd_rev_mutually_inverse_witness :
  let d := entry "traktor_a" "Traktor Scratch, side A"
      2000 (Z.lor (Z.lor SWITCH_PRIMARY SWITCH_POLARITY) SWITCH_PHASE)
      23 0x134503 0x041040 1500000 1480000 in
  rev (fwd 0x134503 d) d = 0x134503 /\ fwd (rev 0x134503 d) d = 0x134503.
Proof.
  intros d. apply (fwd_rev_mutually_inverse d 0x134503).
  - unfold timecodes. do 3 right. left. reflexivity.
  - exact (reach_seed d).
Defined.

(** C4 (as stated).  The table does not have thirteen entries. *)
Lemma timecodes_not_13 : List.length timecodes <> 13%nat.
Proof. cbv. discriminate. Qed.

(** C4 (amended).  The built-in catalogue has exactly twelve formats, with
    the names listed (pairwise distinct), and each entry's resolution, bits,
    seed, taps, length, safe and flags are the values of the source; the
    wide seeds and taps are the 128-bit values [(hi << 64) | lo]. *)
Theorem timecodes_catalogue :
  List.length timecodes = 12%nat /\
  List.NoDup (map name timecodes) /\
  map (fun d => (name d, (resolution d, bits d, seed d, taps d),
                 (length d, safe d, flags d))) timecodes =
  [ ("serato_2a", (1000, 20, 0x59017, 0x361e4), (712000, 707000, 0));
    ("serato_2b", (1000, 20, 0x8f3c6, 0x4f0d8), (922000, 917000, 0));
    ("serato_cd", (1000, 20, 0xd8b40, 0x34d54), (950000, 940000, 0));
    ("traktor_a", (2000, 23, 0x134503, 0x041040), (1500000, 1480000, 7));
    ("traktor_b", (2000, 23, 0x32066c, 0x041040), (2110000, 2090000, 7));
    ("traktor_mk2_a",
      (2500, 110, 0x339c1f39f18c7fe0063f8f83e0f9, 0x4000000000400000010800000001),
      (1620000, 1600000, 8));
    ("traktor_mk2_b",
      (2500, 110, 0x20e73fc0707cf8c00e7ffcf807c0, 0x4000000000400000010800000001),
      (2295000, 2285000, 8));
    ("traktor_mk2_cd",
      (3000, 113, 0x1f9fff01f1ff9fe7f9c1ff9cff3e3, 0x4000000000001000010800000001),
      (4950000, 4940000, 8));
    ("mixvibes_v2", (1300, 20, 0x22c90, 0x00008), (950000, 923000, 1));
    ("mixvibes_7inch", (1300, 20, 0x22c90, 0x00008), (312000, 310000, 1));
    ("pioneer_a", (1000, 20, 0x78370, 0x7933a), (635000, 614000, 4));
    ("pioneer_b", (1000, 20, 0xf7012, 0x2ef1c), (918500, 913000, 4)) ]%string.
Proof.
  split; [reflexivity|]. split; [|vm_compute; reflexivity].
  cbn [map timecodes name entry].
  repeat (apply List.NoDup_cons; [cbn [In]; intuition discriminate|]).
  apply List.NoDup_nil.
Qed.

(** ** The two-word step computes [fwd] *)

Lemma fold_parity z k :
  0 <= z -> 0 <= k ->
  Zparity (z mod 2 ^ (k + k)) = Zparity (Z.lxor z (Z.shiftr z k) mod 2 ^ k).
Proof.
  intros Hz Hk.
  assert (E1 : z mod 2 ^ (k + k) =
               Z.lxor (Z.shiftl (Z.shiftr z k mod 2 ^ k) k) (z mod 2 ^ k))
    by bitblast_eqb.
  assert (E2 : Z.lxor z (Z.shiftr z k) mod 2 ^ k =
               Z.lxor (Z.shiftr z k mod 2 ^ k) (z mod 2 ^ k))
    by bitblast_eqb.
  assert (0 < 2 ^ k) by (apply Z.pow_pos_nonneg; lia).
  assert (0 <= Z.shiftr z k mod 2 ^ k) by (apply Z.mod_pos_bound; lia).
  assert (0 <= z mod 2 ^ k) by (apply Z.mod_pos_bound; lia).
  rewrite E1, E2, !Zparity_lxor, Zparity_shiftl; try lia; try reflexivity.
  apply Z.shiftl_nonneg; lia.
Qed.

Lemma lsr_shiftr (x k : int) :
  Uint63.to_Z (x >> k)%uint63 = Z.shiftr (Uint63.to_Z x) (Uint63.to_Z k).
Proof.
  rewrite lsr_spec, Z.shiftr_div_pow2; [reflexivity|].
  apply Uint63.to_Z_bounded.
Qed.

Lemma fold63_parity (k x : int) K :
  Uint63.to_Z k = K ->
  Zparity (Uint63.to_Z (fold63 k x) mod 2 ^ K) =
  Zparity (Uint63.to_Z x mod 2 ^ (K + K)).
Proof.
  intros <-. unfold fold63. rewrite lxor_spec', lsr_shiftr.
  symmetry. apply fold_parity; apply Uint63.to_Z_bounded.
Qed.

Lemma par63_spec x :
  Uint63.to_Z (par63 x) = Z.b2z (Zparity (Uint63.to_Z x)).
Proof.
  unfold par63. rewrite land_spec'. change (Uint63.to_Z 1) with 1.
  rewrite land_1_odd. f_equal.
  rewrite <- Z.bit0_odd, <- (Zparity_b2z (Z.testbit _ 0)), Z.bit0_mod.
  change 2 with (2 ^ 1) at 1.
  rewrite (fold63_parity 1 _ 1), (fold63_parity 2 _ 2), (fold63_parity 4 _ 4),
    (fold63_parity 8 _ 8), (fold63_parity 16 _ 16), (fold63_parity 32 _ 32)
    by reflexivity.
  f_equal. apply Z.mod_small.
  pose proof (Uint63.to_Z_bounded x) as Hx. change wB with (2 ^ 63) in Hx. lia.
Qed.

Lemma word2_land H L TH TL :
  0 <= L < 2 ^ 62 -> 0 <= TL < 2 ^ 62 ->
  Z.land (Z.lor (Z.shiftl H 62) L) (Z.lor (Z.shiftl TH 62) TL)
  = Z.lxor (Z.shiftl (Z.land H TH) 62) (Z.land L TL).
Proof.
  intros HL HTL. rewrite (small_land L 62 HL), (small_land TL 62 HTL).
  bitblast_eqb.
Qed.

Lemma word2_shiftr H L :
  0 <= L < 2 ^ 62 ->
  Z.shiftr (Z.lor (Z.shiftl H 62) L) 1
  = Z.lor (Z.shiftl (Z.shiftr H 1) 62)
          (Z.lor (Z.shiftr L 1) (Z.shiftl (Z.land H (Z.ones 1)) 61)).
Proof.
  intros HL. rewrite (small_land L 62 HL). bitblast_eqb.
Qed.

Lemma word2_lor A B C D :
  Z.lor (Z.shiftl (Z.lor A B) 62) (Z.lor C D)
  = Z.lor (Z.lor (Z.shiftl A 62) C) (Z.lor (Z.shiftl B 62) D).
Proof. bitblast_eqb. Qed.

Lemma split62 z :
  0 <= z < 2 ^ 124 ->
  Uint63.to_Z (hi62 z) = Z.shiftr z 62 /\
  Uint63.to_Z (lo62 z) = Z.land z (Z.ones 62) /\
  word2 (hi62 z, lo62 z) = z.
Proof.
  intros Hz. unfold word2, hi62, lo62. cbn [fst snd].
  rewrite !of_Z_spec. change wB with (2 ^ 63).
  assert (0 <= Z.shiftr z 62 < 2 ^ 62).
  { rewrite Z.shiftr_div_pow2 by lia. split; [apply Z.div_pos; lia|].
    apply Z.div_lt_upper_bound; [lia|]. change (2 ^ 62 * 2 ^ 62) with (2 ^ 124). lia. }
  assert (0 <= Z.land z (Z.ones 62) < 2 ^ 62).
  { rewrite Z.land_ones by lia. apply Z.mod_pos_bound. lia. }
  rewrite !Z.mod_small by lia. repeat split. bitblast_eqb.
Qed.

Lemma same_words (hi lo shi slo : int) :
  (((hi lxor shi) lor (lo lxor slo)) =? 0)%uint63 = true <->
  hi = shi /\ lo = slo.
Proof.
  rewrite Uint63.eqb_spec. split.
  - intros E. apply (f_equal Uint63.to_Z) in E.
    rewrite lor_spec', !lxor_spec' in E. change (Uint63.to_Z 0) with 0 in E.
    apply Z.lor_eq_0_iff in E. destruct E as [E1 E2].
    apply Z.lxor_eq in E1. apply Z.lxor_eq in E2.
    split; [exact (Uint63.to_Z_inj _ _ E1)|exact (Uint63.to_Z_inj _ _ E2)].
  - intros [-> ->]. apply Uint63.to_Z_inj.
    rewrite lor_spec', !lxor_spec', !Z.lxor_nilpotent. reflexivity.
Qed.

Lemma fast_advance_spec F shi slo s k :
  fast_advance F shi slo s k = true -> F s <> (shi, slo) /\ k (F s) = true.
Proof.
  unfold fast_advance. destruct (F s) as [hi lo].
  destruct (_ =? _)%uint63 eqn:Et; [discriminate|]. intros Hk. split; [|exact Hk].
  intros [= -> ->].
  assert (Ht : (((shi lxor shi) lor (slo lxor slo)) =? 0)%uint63 = true)
    by (apply same_words; auto).
  rewrite Ht in Et. discriminate Et.
Qed.

Lemma fast_walk_spec F shi slo p : forall k s,
  fast_walk F shi slo p k s = true ->
  (forall j, (0 < j <= Pos.to_nat p)%nat -> Nat.iter j F s <> (shi, slo)) /\
  k (Nat.iter (Pos.to_nat p) F s) = true.
Proof.
  induction p as [p IH|p IH|]; intros k s; cbn [fast_walk].
  - intros H. apply fast_advance_spec in H. destruct H as [Hs H].
    apply IH in H. destruct H as [H1 H]. apply IH in H. destruct H as [H2 H].
    rewrite Pos2Nat.inj_xI.
    replace (S (2 * Pos.to_nat p)) with (Pos.to_nat p + (Pos.to_nat p + 1))%nat by lia.
    rewrite !Nat.iter_add. cbn [Nat.iter nat_rect]. split; [|exact H].
    intros j Hj.
    destruct (Nat.eq_dec j 1%nat) as [->|]; [exact Hs|].
    destruct (Nat.le_gt_cases j (S (Pos.to_nat p))) as [Hle|Hgt].
    + replace j with ((j - 1) + 1)%nat by lia. rewrite Nat.iter_add.
      apply H1. lia.
    + replace j with ((j - 1 - Pos.to_nat p) + (Pos.to_nat p + 1))%nat by lia.
      rewrite !Nat.iter_add. apply H2. lia.
  - intros H. apply IH in H. destruct H as [H1 H]. apply IH in H.
    destruct H as [H2 H]. rewrite Pos2Nat.inj_xO.
    replace (2 * Pos.to_nat p)%nat with (Pos.to_nat p + Pos.to_nat p)%nat by lia.
    rewrite Nat.iter_add. split; [|exact H]. intros j Hj.
    destruct (Nat.le_gt_cases j (Pos.to_nat p)) as [Hle|Hgt].
    + apply H1. lia.
    + replace j with ((j - Pos.to_nat p) + Pos.to_nat p)%nat by lia.
      rewrite Nat.iter_add. apply H2. lia.
  - intros H. apply fast_advance_spec in H. destruct H as [Hs H].
    split; [|exact H]. intros j Hj. now replace j with 1%nat by lia.
Qed.

Section FastRefine.
Variable d : timecode_def.
Hypothesis bits_range : 0 < bits d <= 124.
Hypothesis taps_nonneg : 0 <= taps d.
Hypothesis taps_fit : Z.lor (taps d) 1 < 2 ^ 124.

Lemma inject_fit : 0 <= Z.shiftl 1 (bits d - 1) < 2 ^ 124.
Proof.
  rewrite Z.shiftl_1_l.
  assert (0 < 2 ^ (bits d - 1)) by (apply Z.pow_pos_nonneg; lia).
  assert (2 ^ (bits d - 1) <= 2 ^ 123) by (apply Z.pow_le_mono_r; lia).
  lia.
Qed.

Lemma fast_parity hi lo :
  Uint63.to_Z lo < 2 ^ 62 ->
  Uint63.to_Z
    (par63 ((hi land hi62 (Z.lor (taps d) 1))
            lxor (lo land lo62 (Z.lor (taps d) 1))))%uint63
  = Z.b2z (Zparity (Z.land (word2 (hi, lo)) (Z.lor (taps d) 1))).
Proof.
  intros Hlo.
  assert (Ht : 0 <= Z.lor (taps d) 1 < 2 ^ 124)
    by (split; [apply Z.lor_nonneg; lia | assumption]).
  destruct (split62 _ Ht) as (Eh & El & Ew).
  pose proof (Uint63.to_Z_bounded lo) as Hl.
  pose proof (Uint63.to_Z_bounded hi) as Hh.
  rewrite par63_spec, lxor_spec', !land_spec'. f_equal.
  rewrite <- Ew at 3. unfold word2. cbn [fst snd].
  assert (0 <= Uint63.to_Z (lo62 (Z.lor (taps d) 1)) < 2 ^ 62).
  { rewrite El, Z.land_ones by lia. apply Z.mod_pos_bound. lia. }
  rewrite word2_land by lia.
  rewrite !Zparity_lxor, Zparity_shiftl; try lia; try reflexivity;
    try (apply Z.land_nonneg; lia).
  apply Z.shiftl_nonneg. apply Z.land_nonneg; lia.
Qed.

Lemma fast_fwd_spec s :
  Uint63.to_Z (snd s) < 2 ^ 62 -> word2 s < 2 ^ bits d ->
  let s' := fast_fwd (hi62 (Z.lor (taps d) 1)) (lo62 (Z.lor (taps d) 1))
              (hi62 (Z.shiftl 1 (bits d - 1))) (lo62 (Z.shiftl 1 (bits d - 1))) s in
  word2 s' = fwd (word2 s) d /\ Uint63.to_Z (snd s') < 2 ^ 62.
Proof.
  destruct s as [hi lo]. cbn [snd]. intros Hlo Hw. cbv zeta.
  pose proof (Uint63.to_Z_bounded lo) as Hl.
  pose proof (Uint63.to_Z_bounded hi) as Hh.
  destruct (split62 _ inject_fit) as (Eh & El & Ew).
  assert (Hil : 0 <= Uint63.to_Z (lo62 (Z.shiftl 1 (bits d - 1))) < 2 ^ 62).
  { rewrite El, Z.land_ones by lia. apply Z.mod_pos_bound. lia. }
  assert (Hlo' : 0 <= Z.lor (Z.shiftr (Uint63.to_Z lo) 1)
                   (Z.shiftl (Z.land (Uint63.to_Z hi) (Z.ones 1)) 61) < 2 ^ 62).
  { apply lor_bound.
    - rewrite Z.shiftr_div_pow2 by lia. split; [apply Z.div_pos; lia|].
      apply Z.div_lt_upper_bound; lia.
    - rewrite Z.land_ones, Z.shiftl_mul_pow2 by lia.
      pose proof (Z.mod_pos_bound (Uint63.to_Z hi) (2 ^ 1) eq_refl).
      change (2 ^ 1) with 2 in *. lia. }
  assert (Elo : Uint63.to_Z ((lo >> 1) lor ((hi land 1) << 61))%uint63
                = Z.lor (Z.shiftr (Uint63.to_Z lo) 1)
                    (Z.shiftl (Z.land (Uint63.to_Z hi) (Z.ones 1)) 61)).
  { rewrite lor_spec', lsr_shiftr, lsl_spec, land_spec'.
    change (Uint63.to_Z 1) with 1. change (Uint63.to_Z 61) with 61.
    change (Z.ones 1) with 1.
    rewrite Z.shiftl_mul_pow2 by lia. f_equal. apply Z.mod_small.
    change 1 with (Z.ones 1). rewrite Z.land_ones by lia.
    pose proof (Z.mod_pos_bound (Uint63.to_Z hi) (2 ^ 1) eq_refl).
    change (2 ^ 1) with 2 in *. change wB with (2 ^ 63). lia. }
  unfold fast_fwd. cbv zeta.
  pose proof (fast_parity hi lo Hlo) as Hp.
  rewrite (fwd_eq d) by lia.
  set (lb := Zparity (Z.land (word2 (hi, lo)) (Z.lor (taps d) 1))) in *.
  set (l := par63 _) in *.
  destruct (Uint63.eqb l 0) eqn:E.
  - apply Uint63.eqb_spec in E. rewrite E in Hp. change (Uint63.to_Z 0) with 0 in Hp.
    destruct lb; [discriminate Hp|]. cbn [Z.b2z].
    rewrite Z.shiftl_0_l, Z.lor_0_r. unfold word2. cbn [fst snd].
    rewrite Elo, lsr_shiftr. change (Uint63.to_Z 1) with 1.
    split; [|lia]. symmetry. apply word2_shiftr. lia.
  - destruct lb.
    2:{ cbn [Z.b2z] in Hp. change 0 with (Uint63.to_Z 0) in Hp.
        apply Uint63.to_Z_inj in Hp. rewrite Hp in E. discriminate E. }
    cbn [Z.b2z]. unfold word2. cbn [fst snd].
    rewrite (lor_spec' _ (hi62 _)), (lor_spec' _ (lo62 _)), Elo, lsr_shiftr.
    change (Uint63.to_Z 1) with 1.
    split; [|apply lor_bound; lia].
    rewrite word2_lor. rewrite <- word2_shiftr by lia.
    f_equal. exact Ew.
Qed.

Lemma word2_inj s z :
  Uint63.to_Z (snd s) < 2 ^ 62 -> word2 s = z ->
  fst s = hi62 z /\ snd s = lo62 z.
Proof.
  destruct s as [hi lo]. cbn [fst snd]. unfold word2. cbn [fst snd].
  intros Hlo <-. pose proof (Uint63.to_Z_bounded lo) as Hl.
  assert (Hs : 0 <= Uint63.to_Z lo < 2 ^ 62) by lia.
  unfold hi62, lo62. split.
  - rewrite <- (of_to_Z hi) at 1. f_equal.
    rewrite (small_land _ 62 Hs). bitblast_eqb.
  - rewrite <- (of_to_Z lo) at 1. f_equal.
    rewrite (small_land _ 62 Hs). bitblast_eqb.
Qed.

Hypothesis seed_range : 0 <= seed d < 2 ^ bits d.

Lemma seed_fit : 0 <= seed d < 2 ^ 124.
Proof.
  assert (2 ^ bits d <= 2 ^ 124) by (apply Z.pow_le_mono_r; lia). lia.
Qed.

Lemma lfsr_seq_bound n : 0 <= lfsr_seq d n < 2 ^ bits d.
Proof.
  induction n; cbn [lfsr_seq]; [assumption|]. apply fwd_bound; lia.
Qed.

Lemma fast_iter_spec n :
  let s := Nat.iter n
      (fast_fwd (hi62 (Z.lor (taps d) 1)) (lo62 (Z.lor (taps d) 1))
         (hi62 (Z.shiftl 1 (bits d - 1))) (lo62 (Z.shiftl 1 (bits d - 1))))
      (hi62 (seed d), lo62 (seed d)) in
  word2 s = lfsr_seq d n /\ Uint63.to_Z (snd s) < 2 ^ 62.
Proof.
  induction n as [|n IH]; cbn [lfsr_seq].
  - destruct (split62 _ seed_fit) as (Eh & El & Ew). cbn [Nat.iter nat_rect fst snd].
    split; [exact Ew|].
    rewrite El, Z.land_ones by lia. apply Z.mod_pos_bound. lia.
  - cbv zeta in IH |- *. rewrite Nat.iter_succ.
    destruct IH as (Ew & Hlo). pose proof (lfsr_seq_bound n) as Hb.
    destruct (fast_fwd_spec _ Hlo) as (Ew' & Hlo'); [rewrite Ew; lia|].
    rewrite Ew in Ew'. split; assumption.
Qed.

Theorem seed_never_recurs_sound :
  seed_never_recurs d = true ->
  forall k, (0 < k)%nat -> Z.of_nat k < length d -> lfsr_seq d k <> seed d.
Proof.
  unfold seed_never_recurs. cbv zeta. rewrite !andb_true_iff.
  intros [_ Hw] k Hk Hlen Heq.
  destruct (length d - 1) as [|p|p] eqn:El; try lia.
  apply fast_walk_spec in Hw. destruct Hw as [Hw _].
  apply (Hw k); [lia|].
  destruct (fast_iter_spec k) as (Ew & Hlo). cbv zeta in Ew, Hlo.
  rewrite Heq in Ew.
  destruct (word2_inj _ _ Hlo Ew) as [E1 E2].
  destruct (Nat.iter k _ _) as [hi lo]. cbn [fst snd] in E1, E2. now subst.
Qed.

Theorem lfsr_seq_injective i j :
  seed_never_recurs d = true ->
  (i < j)%nat -> Z.of_nat j < length d -> lfsr_seq d i <> lfsr_seq d j.
Proof.
  intros Hw. revert j. induction i as [|i IH]; intros j Hij Hj.
  - intros E. apply (seed_never_recurs_sound Hw j Hij Hj). now symmetry.
  - destruct j as [|j]; [lia|]. cbn [lfsr_seq]. intros E.
    apply (IH j); [lia|lia|].
    assert (Ei : rev (fwd (lfsr_seq d i) d) d = lfsr_seq d i)
      by (apply rev_fwd_id; try apply lfsr_seq_bound; lia).
    assert (Ej : rev (fwd (lfsr_seq d j) d) d = lfsr_seq d j)
      by (apply rev_fwd_id; try apply lfsr_seq_bound; lia).
    congruence.
Qed.
End FastRefine.

(** A four-bit register that only rotates comes back after four steps:
    the walk accepts a length of four and refuses a length of five. *)
Example rotation_walks :
  seed_never_recurs (entry "" "" 1000 0 4 1 1 4 4) = true /\
  seed_never_recurs (entry "" "" 1000 0 4 1 1 5 5) = false.
Proof. split; vm_compute; reflexivity. Qed.

(** ** The lookup table build *)

Lemma timecodes_never_recur : forallb seed_never_recurs timecodes = true.
Proof. vm_compute. reflexivity. Qed.

Section Build.
Variable d : timecode_def.
Hypothesis bits_range : 0 < bits d < 128.
Hypothesis taps_nonneg : 0 <= taps d.
Hypothesis seed_range : 0 <= seed d < 2 ^ bits d.

Lemma lfsr_seq_in_range n : 0 <= lfsr_seq d n < 2 ^ bits d.
Proof.
  induction n; cbn [lfsr_seq]; [assumption|]. now apply fwd_bound.
Qed.

Lemma lut_holds_init : lut_holds d lut_init 0.
Proof.
  split; [reflexivity|]. intros y p. cbn [slots lut_init].
  rewrite lookup_empty. split; [discriminate|]. intros (i & Hi & _). lia.
Qed.

Lemma lut_holds_push l k :
  lut_holds d l k ->
  (forall i, (i < k)%nat -> lfsr_seq d i <> lfsr_seq d k) ->
  lut_lookup l (lfsr_seq d k) = LUT_ABSENT /\
  lut_holds d (lut_push l (lfsr_seq d k)) (S k).
Proof.
  intros [Ha Hs] Hfresh. split.
  - unfold lut_lookup. destruct (slots l !! lfsr_seq d k) as [p|] eqn:E;
      [|reflexivity].
    apply Hs in E. destruct E as (i & Hi & E & _). now elim (Hfresh i Hi).
  - split; [cbn [avail lut_push]; lia|]. intros y p. cbn [slots lut_push].
    destruct (Z.eq_dec (lfsr_seq d k) y) as [<-|Hne].
    + rewrite lookup_insert_eq, Ha. split.
      * intros [= <-]. exists k. repeat split; lia.
      * intros (i & Hi & E & ->). destruct (Nat.eq_dec i k) as [->|]; [reflexivity|].
        elim (Hfresh i); [lia|now symmetry].
    + rewrite lookup_insert_ne by assumption. rewrite Hs. split.
      * intros (i & Hi & E & ->). exists i. repeat split; [lia|assumption].
      * intros (i & Hi & E & ->). exists i. repeat split; try assumption.
        destruct (Nat.eq_dec i k) as [->|]; [now elim Hne|lia].
Qed.

Lemma build_loop_spec n : forall k l,
  lut_holds d l k ->
  (forall i j, (i < j)%nat -> (j < k + n)%nat -> lfsr_seq d i <> lfsr_seq d j) ->
  exists l', build_loop d n l (lfsr_seq d k) = Some l' /\
             lut_holds d l' (k + n).
Proof.
  induction n as [|n IH]; intros k l Hl Hd; cbn [build_loop].
  - exists l. rewrite Nat.add_0_r. auto.
  - destruct (lut_holds_push l k Hl) as [Hab Hl'].
    { intros i Hi. apply Hd; lia. }
    rewrite Hab, Z.eqb_refl. cbn [negb].
    rewrite rev_fwd_id, Z.eqb_refl by (try apply lfsr_seq_in_range; assumption).
    cbn [negb]. change (fwd (lfsr_seq d k) d) with (lfsr_seq d (S k)).
    destruct (IH (S k) _ Hl') as (l' & E & H').
    { intros i j Hij Hj. apply Hd; lia. }
    exists l'. split; [assumption|]. now replace (k + S n)%nat with (S k + n)%nat by lia.
Qed.

Lemma lut_holds_lookup l k i :
  lut_holds d l k -> (i < k)%nat ->
  lut_lookup l (lfsr_seq d i) = Z.of_nat i.
Proof.
  intros [_ Hs] Hi. unfold lut_lookup.
  assert (E : slots l !! lfsr_seq d i = Some (Z.of_nat i)).
  { apply Hs. exists i. auto. }
  now rewrite E.
Qed.

Lemma lut_holds_absent l k y :
  lut_holds d l k -> (forall i, (i < k)%nat -> lfsr_seq d i <> y) ->
  lut_lookup l y = LUT_ABSENT.
Proof.
  intros [_ Hs] Hy. unfold lut_lookup.
  destruct (slots l !! y) as [p|] eqn:E; [|reflexivity].
  apply Hs in E. destruct E as (i & Hi & E & _). now elim (Hy i Hi).
Qed.
End Build.

Lemma timecodes_unbuilt d : In d timecodes -> lookup d = false.
Proof.
  intros Hd. assert (H : forallb (fun d => negb (lookup d)) timecodes = true)
    by (vm_compute; reflexivity).
  rewrite forallb_forall in H. specialize (H d Hd). now destruct (lookup d).
Qed.

Lemma catalogue_distinct d i j :
  In d timecodes -> (i < j)%nat -> Z.of_nat j < length d ->
  lfsr_seq d i <> lfsr_seq d j.
Proof.
  intros Hd Hij Hj.
  destruct (catalogue_bounds d Hd) as (Hb & Ht & Hs & Hl).
  pose proof timecodes_never_recur as Hw. rewrite forallb_forall in Hw.
  specialize (Hw d Hd). pose proof Hw as Hw'.
  unfold seed_never_recurs in Hw'. cbv zeta in Hw'.
  rewrite !andb_true_iff in Hw'. destruct Hw' as [[Hb' Ht'] _].
  apply lfsr_seq_injective; try assumption; lia.
Qed.

(** What [build_lookup] does on an entry of the catalogue. *)
Lemma build_lookup_catalogue_facts d :
  In d timecodes ->
  exists l, build_lookup true d = Some (0, set_lut d l true) /\
            forall i, Z.of_nat i < length d ->
                      lut_lookup l (lfsr_seq d i) = Z.of_nat i.
Proof.
  intros Hd. destruct (catalogue_bounds d Hd) as (Hb & Ht & Hs & Hl).
  unfold build_lookup. rewrite (timecodes_unbuilt d Hd). cbn [negb].
  assert (Hloop : exists l,
             build_loop d (Z.to_nat (length d)) lut_init (lfsr_seq d 0) = Some l /\
             lut_holds d l (0 + Z.to_nat (length d))).
  { apply build_loop_spec; try assumption.
    - apply lut_holds_init.
    - intros i j Hij Hj. apply catalogue_distinct; [assumption|assumption|lia]. }
  destruct Hloop as (l & E & Hl').
  cbn [lfsr_seq] in E. rewrite E. exists l. split; [reflexivity|].
  intros i Hi. apply (lut_holds_lookup d l (0 + Z.to_nat (length d)));
    [assumption|lia].
Qed.



(** ** The bitstream register *)

Lemma s32_range z : - 2 ^ 31 <= s32 z < 2 ^ 31.
Proof. unfold s32. pose proof (Z.mod_pos_bound (z + 2 ^ 31) (2 ^ 32)). lia. Qed.

Lemma s32_small z : - 2 ^ 31 <= z < 2 ^ 31 -> s32 z = z.
Proof. intros H. unfold s32. rewrite Z.mod_small; lia. Qed.

Lemma u128_range z : 0 <= u128 z < 2 ^ 128.
Proof. unfold u128. apply Z.mod_pos_bound. lia. Qed.

Lemma int_mask_bits (k : Z) :
  - 2 ^ 31 <= k < 2 ^ 31 ->
  Z.testbit (u128 k) 51 = Z.testbit (u128 k) 110.
Proof.
  intros Hk. unfold u128. rewrite !Z.testbit_mod_pow2 by lia.
  destruct (Z.neg_nonneg_cases k) as [Hn|Hp].
  - assert (Hlog : Z.log2 (Z.pred (- k)) < 31).
    { destruct (Z.eq_dec (Z.pred (- k)) 0) as [->|]; [cbn; lia|].
      apply Z.log2_lt_pow2; lia. }
    rewrite !Z.bits_above_log2_neg by lia. reflexivity.
  - rewrite !(testbit_above k 31) by lia. reflexivity.
Qed.

(** Reading a field of an updated decoder. *)
Ltac fields :=
  cbn [def speed dt zero_alpha threshold forwards primary secondary pitch
       ref_level bitstream timecode valid_counter timecode_ticker mon
       mon_size mon_counter cbuf
       set_def set_speed set_dt set_zero_alpha set_threshold set_forwards
       set_primary set_secondary set_pitch set_ref_level set_bitstream
       set_timecode set_valid_counter set_timecode_ticker set_mon
       set_mon_size set_mon_counter set_cbuf
       positive swapped zero crossing_ticker] in *.

Lemma score_validity_bitstream tc : bitstream (score_validity tc) = bitstream tc.
Proof. unfold score_validity. destruct (_ =? _); reflexivity. Qed.

Lemma process_bitstream_register wide_shl tbl tc m :
  bitstream (process_bitstream wide_shl tbl tc m) =
  bitstream (shift_bit wide_shl tbl
               (if has_flag (flags (tc_def tbl tc)) OFFSET_MODULATION
                then set_cbuf tc (cbuf_push (cbuf tc) m) else tc)
               (Z.b2z (ref_level tc <? m))).
Proof.
  unfold process_bitstream, track_envelope. fields.
  rewrite score_validity_bitstream.
  destruct (has_flag _ _); reflexivity.
Qed.

Lemma shift_bit_reverse_eq wide_shl tbl tc b :
  forwards tc = false ->
  bitstream (shift_bit wide_shl tbl tc b) =
  u128 (Z.land (u128 (Z.shiftl (bitstream tc) 1))
          (u128 (s32 (int_shl1 wide_shl (bits (tc_def tbl tc)) - 1))) + b).
Proof. intros Hf. unfold shift_bit. rewrite Hf. reflexivity. Qed.

Lemma int_shl1_wide wide_shl n : 31 <= n -> int_shl1 wide_shl n = s32 (wide_shl n).
Proof.
  intros Hn. unfold int_shl1.
  replace (n <? 31) with false by (symmetry; apply Z.ltb_ge; lia).
  now rewrite andb_false_r.
Qed.

Lemma mk2_reverse_state :
  bitstream mk2_reverse = 2 ^ 109 + 2 ^ 50 /\
  forwards mk2_reverse = false /\
  def mk2_reverse = 5%nat /\
  (ref_level mk2_reverse <? 0) = false /\
  valid_counter mk2_forward = 0.
Proof. vm_compute. repeat split. Qed.

(** Any decoder on entry 5 in reverse whose bitstream holds the bits 109
    and 50. *)
Lemma wide_mask_lost wide_shl tc :
  def tc = 5%nat -> forwards tc = false ->
  bitstream tc = 2 ^ 109 + 2 ^ 50 -> (ref_level tc <? 0) = false ->
  bits (tc_def found_table tc) = 110 /\
  Z.testbit (bitstream (process_bitstream wide_shl found_table tc 0)) 51
  = Z.testbit (bitstream (process_bitstream wide_shl found_table tc 0)) 110 /\
  bitstream (process_bitstream wide_shl found_table tc 0) <> 2 ^ 51.
Proof.
  intros Hdef Hfw Hbs Hrl.
  assert (Hbits : bits (tc_def found_table tc) = 110)
    by (unfold tc_def; rewrite Hdef; reflexivity).
  assert (E : bitstream (process_bitstream wide_shl found_table tc 0)
              = u128 (Z.land (2 ^ 110 + 2 ^ 51)
                        (u128 (s32 (s32 (wide_shl 110) - 1))) + 0)).
  { rewrite process_bitstream_register, Hrl. cbn [Z.b2z].
    set (tc' := if has_flag _ _ then _ else _).
    assert (H' : forwards tc' = false /\ bitstream tc' = 2 ^ 109 + 2 ^ 50 /\
                 tc_def found_table tc' = tc_def found_table tc)
      by (unfold tc'; destruct (has_flag _ _); fields; auto).
    destruct H' as (Hf' & Hb' & Hd').
    rewrite shift_bit_reverse_eq, Hd', Hbits, Hb' by exact Hf'.
    rewrite int_shl1_wide by lia. reflexivity. }
  split; [exact Hbits|].
  assert (Hb : Z.testbit (bitstream (process_bitstream wide_shl found_table tc 0)) 51
             = Z.testbit (bitstream (process_bitstream wide_shl found_table tc 0)) 110).
  { rewrite E, Z.add_0_r. set (k := s32 (s32 (wide_shl 110) - 1)).
    pose proof (int_mask_bits k (s32_range _)) as Hk.
    rewrite u128_small.
    - rewrite !Z.land_spec, Hk. reflexivity.
    - pose proof (u128_range k).
      split; [apply Z.land_nonneg; lia|].
      apply (land_bound_r (2 ^ 110 + 2 ^ 51) (u128 k) 128); lia. }
  split; [exact Hb|]. intros Heq. rewrite Heq in Hb.
  vm_compute in Hb. discriminate Hb.
Qed.

(** C1.  On the 110-bit format [traktor_mk2_a], in reverse, the register
    after one bit is not [((bitstream << 1) & ((1 << bits) - 1)) | b]
    with the mask at the width of the register: the mask is computed in
    [int], and whatever [int] the out-of-range shift yields, the bit 51 of
    the result (kept by the full mask) and its bit 110 (cleared by it) are
    equal. *)
Theorem process_bitstream_wide_mask wide_shl :
  let tc := process_bitstream wide_shl found_table mk2_reverse 0 in
  bits (tc_def found_table mk2_reverse) = 110 /\
  bitstream mk2_reverse = 2 ^ 109 + 2 ^ 50 /\
  Z.lor (Z.land (Z.shiftl (2 ^ 109 + 2 ^ 50) 1) (Z.shiftl 1 110 - 1)) 0 = 2 ^ 51 /\
  Z.testbit (bitstream tc) 51 = Z.testbit (bitstream tc) 110 /\
  bitstream tc <> 2 ^ 51.
Proof.
  cbv zeta. destruct mk2_reverse_state as (Hbs & Hfw & Hdef & Hrl & _).
  destruct (wide_mask_lost wide_shl mk2_reverse Hdef Hfw Hbs Hrl) as (H1 & H2 & H3).
  split; [exact H1|]. split; [exact Hbs|]. split; [reflexivity|].
  split; [exact H2|exact H3].
Qed.

Section Register.
Variable wide_shl : Z -> Z.
Variable tbl : list timecode_def.
Variable tc : timecoder.
Variable b : Z.
Hypothesis bit : b = 0 \/ b = 1.
Hypothesis fits : 0 <= bitstream tc < 2 ^ bits (tc_def tbl tc).

(** Forwards, the register keeps its width, whatever the format. *)
Lemma shift_bit_forwards :
  forwards tc = true -> 0 < bits (tc_def tbl tc) < 128 ->
  bitstream (shift_bit wide_shl tbl tc b) =
  Z.lor (Z.shiftr (bitstream tc) 1) (Z.shiftl b (bits (tc_def tbl tc) - 1)) /\
  0 <= bitstream (shift_bit wide_shl tbl tc b) < 2 ^ bits (tc_def tbl tc).
Proof.
  intros Hf Hb. unfold shift_bit. rewrite Hf. fields.
  set (n := bits (tc_def tbl tc)) in *.
  assert (Hp : 2 ^ n = 2 * 2 ^ (n - 1)).
  { rewrite <- Z.pow_succ_r by lia. f_equal. lia. }
  assert (0 < 2 ^ (n - 1)) by (apply Z.pow_pos_nonneg; lia).
  assert (2 ^ n <= 2 ^ 127) by (apply Z.pow_le_mono_r; lia).
  assert (Hs : 0 <= Z.shiftr (bitstream tc) 1 < 2 ^ (n - 1)).
  { rewrite Z.shiftr_div_pow2 by lia. change (2 ^ 1) with 2.
    split; [apply Z.div_pos; lia|]. apply Z.div_lt_upper_bound; lia. }
  assert (Hl : 0 <= Z.shiftl b (n - 1) <= 2 ^ (n - 1)).
  { rewrite Z.shiftl_mul_pow2 by lia. destruct bit as [-> | ->]; lia. }
  rewrite (u128_small (Z.shiftl b (n - 1))) by lia.
  rewrite u128_small by lia.
  assert (E : Z.shiftr (bitstream tc) 1 + Z.shiftl b (n - 1)
              = Z.lor (Z.shiftr (bitstream tc) 1) (Z.shiftl b (n - 1))).
  { symmetry. apply Z.or_to_plus.
    rewrite (small_land _ _ Hs).
    destruct bit as [-> | ->]; rewrite ?Z.shiftl_0_l, ?Z.shiftl_1_l;
      bitblast_eqb. }
  rewrite E. split; [reflexivity|]. rewrite <- E. lia.
Qed.

(** In reverse, it does when the format is narrower than [int]. *)
Lemma shift_bit_reverse_narrow :
  forwards tc = false -> 0 < bits (tc_def tbl tc) < 31 ->
  bitstream (shift_bit wide_shl tbl tc b) =
  Z.lor (Z.land (Z.shiftl (bitstream tc) 1) (Z.shiftl 1 (bits (tc_def tbl tc)) - 1)) b /\
  0 <= bitstream (shift_bit wide_shl tbl tc b) < 2 ^ bits (tc_def tbl tc).
Proof.
  intros Hf Hb. unfold shift_bit, int_shl1. rewrite Hf. fields.
  set (n := bits (tc_def tbl tc)) in *.
  replace ((0 <=? n) && (n <? 31)) with true by (symmetry; apply andb_true_iff; lia).
  assert (0 < 2 ^ n) by (apply Z.pow_pos_nonneg; lia).
  assert (2 ^ n <= 2 ^ 30) by (apply Z.pow_le_mono_r; lia).
  rewrite s32_small, (u128_small (2 ^ n - 1)) by lia.
  rewrite Z.shiftl_1_l. replace (2 ^ n - 1) with (Z.ones n) by (rewrite Z.ones_equiv; lia).
  assert (Hm : 0 <= Z.land (u128 (Z.shiftl (bitstream tc) 1)) (Z.ones n) < 2 ^ n).
  { apply land_bound_r; [apply u128_range|]. rewrite Z.ones_equiv. lia. }
  assert (E1 : Z.land (u128 (Z.shiftl (bitstream tc) 1)) (Z.ones n)
               = Z.land (Z.shiftl (bitstream tc) 1) (Z.ones n)).
  { unfold u128. bitblast_eqb. }
  assert (E2 : Z.land (Z.shiftl (bitstream tc) 1) (Z.ones n) + b
               = Z.lor (Z.land (Z.shiftl (bitstream tc) 1) (Z.ones n)) b).
  { symmetry. apply Z.or_to_plus.
    destruct bit as [-> | ->]; [apply Z.land_0_r|].
    change 1 with (Z.ones 1) at 2. bitblast_eqb. }
  rewrite E1 in *. rewrite E2.
  assert (Hr : 0 <= Z.lor (Z.land (Z.shiftl (bitstream tc) 1) (Z.ones n)) b < 2 ^ n).
  { assert (2 ^ n = 2 * 2 ^ (n - 1)).
    { rewrite <- Z.pow_succ_r by lia. f_equal. lia. }
    assert (0 < 2 ^ (n - 1)) by (apply Z.pow_pos_nonneg; lia).
    apply lor_bound; [assumption|]. destruct bit; lia. }
  rewrite u128_small by lia. split; [reflexivity|assumption].
Qed.
End Register.

(** The usual build takes the shift count modulo 32: the mask of the
    110-bit formats is [0x3fff], and the register loses its bits from 14
    upwards. *)
Example mk2_reverse_x86 :
  bitstream (process_bitstream x86_shl found_table mk2_reverse 0) = 0 /\
  Z.lor (Z.land (Z.shiftl (bitstream mk2_reverse) 1) (Z.shiftl 1 110 - 1)) 0
  = 2 ^ 51.
Proof. split; vm_compute; reflexivity. Qed.

(** ** Zero crossings *)

(** [detect_zero_crossing] as the code computes it, field by field: with
    [up] the test [v > zero + threshold && !positive] and [down] the test
    [v < zero - threshold && positive] of the [else] branch, both sums
    taken in [int], the channel has crossed exactly when one of them
    holds, it is then positive or not accordingly and its ticker is 0,
    otherwise the ticker has advanced by one and [positive] is kept; in
    every case [zero] has moved by [alpha] times the [int] difference
    [v - zero]. *)
Lemma detect_zero_crossing_spec ch v alpha th :
  let ch' := detect_zero_crossing ch v alpha th in
  let up := (s32 (zero ch + th) <? v) && negb (positive ch) in
  let down := negb up && ((v <? s32 (zero ch - th)) && positive ch) in
  swapped ch' = up || down /\
  positive ch' = (if up then true else if down then false else positive ch) /\
  crossing_ticker ch' =
    (if up || down then 0 else u32 (crossing_ticker ch + 1)) /\
  zero ch' =
    int_of_double
      (PrimFloat.add (double_of_int (zero ch))
         (PrimFloat.mul alpha (double_of_int (s32 (v - zero ch))))).
Proof.
  cbv zeta. unfold detect_zero_crossing.
  cbn [zero positive swapped crossing_ticker set_crossing_ticker set_swapped].
  destruct ((s32 (zero ch + th) <? v) && negb (positive ch)); cbn [negb andb orb].
  - repeat split.
  - destruct ((v <? s32 (zero ch - th)) && positive ch); repeat split.
Qed.

(** While the sums stay within [int] the two tests are the comparisons of
    the integers themselves. *)
Lemma detect_zero_crossing_tests ch v th :
  - 2 ^ 31 <= zero ch + th < 2 ^ 31 -> - 2 ^ 31 <= zero ch - th < 2 ^ 31 ->
  (s32 (zero ch + th) <? v) = (zero ch + th <? v) /\
  (v <? s32 (zero ch - th)) = (v <? zero ch - th).
Proof. intros H1 H2. now rewrite !s32_small. Qed.

(** While the two sums and the difference [v - zero] are representable in
    [int], the function does what its tests and its update say of the
    integers themselves. *)
Lemma detect_zero_crossing_in_range ch v alpha th :
  - 2 ^ 31 <= zero ch + th < 2 ^ 31 -> - 2 ^ 31 <= zero ch - th < 2 ^ 31 ->
  - 2 ^ 31 <= v - zero ch < 2 ^ 31 ->
  let ch' := detect_zero_crossing ch v alpha th in
  let up := (zero ch + th <? v) && negb (positive ch) in
  let down := negb up && ((v <? zero ch - th) && positive ch) in
  swapped ch' = up || down /\
  positive ch' = (if up then true else if down then false else positive ch) /\
  crossing_ticker ch' =
    (if up || down then 0 else u32 (crossing_ticker ch + 1)) /\
  zero ch' =
    int_of_double
      (PrimFloat.add (double_of_int (zero ch))
         (PrimFloat.mul alpha (double_of_int (v - zero ch)))).
Proof.
  intros H1 H2 H3. pose proof (detect_zero_crossing_spec ch v alpha th) as H.
  cbv zeta in *. rewrite !s32_small in H by assumption. exact H.
Qed.

(** C8.  The claim fails on a sample the decoder receives.  A decoder on
    [serato_2a] at 44100 Hz that has read a hundred frames of pcm -2 has
    its zero level at -117129; the next frame is at full scale, pcm 32767,
    [v = 2147418112].  The difference [v - zero] does not fit [int]: the
    code computes it as -2147432055, and [zero] goes to -47732030, away
    from [v], where [zero += alpha * (v - zero)] with [0 < alpha < 1]
    gives 47500060, between the two. *)
Theorem detect_zero_crossing_overflow :
  let ch := primary drifted in
  let v := full_scale in
  let alpha := zero_alpha drifted in
  let ch' := detect_zero_crossing ch v alpha (threshold drifted) in
  zero ch = -117129 /\ v = 2147418112 /\
  PrimFloat.ltb 0 alpha = true /\ PrimFloat.ltb alpha 1 = true /\
  v - zero ch = 2147535241 /\ s32 (v - zero ch) = -2147432055 /\
  int_of_double
    (PrimFloat.add (double_of_int (zero ch))
       (PrimFloat.mul alpha (double_of_int (v - zero ch)))) = 47500060 /\
  zero ch' = -47732030 /\
  zero ch' < zero ch < v /\
  match timecoder_submit x86_shl found_table (blank_filters, drifted)
          [(32767, 32767)] with
  | Some (_, tc) => zero (primary tc) = zero ch'
  | None => False
  end.
Proof. vm_compute. repeat split. Qed.

(** The sums of the two tests wrap in the same way: on a channel whose
    zero level is within the threshold of [INT_MAX], a sample 0 counts as
    being above [zero + threshold]. *)
Example detect_zero_crossing_threshold_wraps :
  let ch' := detect_zero_crossing edge_channel 0 ALPHA ZERO_THRESHOLD in
  (zero edge_channel + ZERO_THRESHOLD <? 0) = false /\
  s32 (zero edge_channel + ZERO_THRESHOLD) = -2139095046 /\
  swapped ch' = true /\ positive ch' = true.
Proof. vm_compute. repeat split. Qed.

(** A sample above the threshold on a channel that is not positive. *)
Example detect_zero_crossing_up :
  let ch := detect_zero_crossing blank_channel (Z.shiftl 200 16) ALPHA ZERO_THRESHOLD in
  (positive ch, swapped ch, crossing_ticker ch, zero ch) = (true, true, 0, 3932160).
Proof. vm_compute. reflexivity. Qed.

(** A sample within the threshold. *)
Example detect_zero_crossing_quiet :
  let ch := detect_zero_crossing blank_channel (- Z.shiftl 100 16) ALPHA ZERO_THRESHOLD in
  (positive ch, swapped ch, crossing_ticker ch, zero ch) = (false, false, 1, -1966080).
Proof. vm_compute. reflexivity. Qed.

(** ** Direction of the vinyl *)

Lemma track_channels_frame tbl fs tc p s :
  let tc1 := snd (track_channels tbl fs tc p s) in
  def tc1 = def tc /\ forwards tc1 = forwards tc /\
  valid_counter tc1 = valid_counter tc /\ ref_level tc1 = ref_level tc /\
  bitstream tc1 = bitstream tc /\ timecode tc1 = timecode tc /\
  mon tc1 = mon tc.
Proof.
  cbv zeta. unfold track_channels.
  destruct (has_flag _ _).
  - destruct (ema p _ _), (ema s _ _).
    destruct (discrete_derivative z _), (discrete_derivative z1 _).
    repeat split.
  - repeat split.
Qed.

Lemma observe_pitch_frame tbl tc :
  def (observe_pitch tbl tc) = def tc /\
  forwards (observe_pitch tbl tc) = forwards tc /\
  valid_counter (observe_pitch tbl tc) = valid_counter tc /\
  ref_level (observe_pitch tbl tc) = ref_level tc /\
  bitstream (observe_pitch tbl tc) = bitstream tc /\
  timecode (observe_pitch tbl tc) = timecode tc /\
  primary (observe_pitch tbl tc) = primary tc /\
  secondary (observe_pitch tbl tc) = secondary tc /\
  mon (observe_pitch tbl tc) = mon tc.
Proof. unfold observe_pitch. destruct (_ && _); repeat split. Qed.

Lemma score_validity_frame tc :
  def (score_validity tc) = def tc /\
  forwards (score_validity tc) = forwards tc /\
  ref_level (score_validity tc) = ref_level tc /\
  primary (score_validity tc) = primary tc /\
  mon (score_validity tc) = mon tc.
Proof. unfold score_validity. destruct (_ =? _); repeat split. Qed.

Lemma shift_bit_frame wide_shl tbl tc b :
  def (shift_bit wide_shl tbl tc b) = def tc /\
  forwards (shift_bit wide_shl tbl tc b) = forwards tc /\
  ref_level (shift_bit wide_shl tbl tc b) = ref_level tc /\
  valid_counter (shift_bit wide_shl tbl tc b) = valid_counter tc /\
  primary (shift_bit wide_shl tbl tc b) = primary tc /\
  mon (shift_bit wide_shl tbl tc b) = mon tc.
Proof. unfold shift_bit. destruct (forwards tc) eqn:E; repeat split; auto. Qed.

Lemma process_bitstream_frame wide_shl tbl tc m :
  def (process_bitstream wide_shl tbl tc m) = def tc /\
  forwards (process_bitstream wide_shl tbl tc m) = forwards tc /\
  primary (process_bitstream wide_shl tbl tc m) = primary tc /\
  mon (process_bitstream wide_shl tbl tc m) = mon tc.
Proof.
  unfold process_bitstream, track_envelope. fields.
  set (tc' := if has_flag _ _ then _ else tc).
  assert (H : def tc' = def tc /\ forwards tc' = forwards tc /\
              primary tc' = primary tc /\ mon tc' = mon tc)
    by (unfold tc'; destruct (has_flag _ _); repeat split).
  destruct H as (H1 & H2 & H3 & H4).
  destruct (score_validity_frame (shift_bit wide_shl tbl tc' (Z.b2z (ref_level tc' <? m))))
    as (S1 & S2 & _ & S3 & S4).
  destruct (shift_bit_frame wide_shl tbl tc' (Z.b2z (ref_level tc' <? m)))
    as (B1 & B2 & _ & _ & B3 & B4).
  rewrite S1, S2, S3, S4, B1, B2, B3, B4. auto.
Qed.

Lemma read_bit_frame wide_shl tbl tc p :
  def (read_bit wide_shl tbl tc p) = def tc /\
  forwards (read_bit wide_shl tbl tc p) = forwards tc /\
  primary (read_bit wide_shl tbl tc p) = primary tc /\
  mon (read_bit wide_shl tbl tc p) = mon tc.
Proof.
  unfold read_bit. destruct (_ && _); [apply process_bitstream_frame|auto].
Qed.

Lemma process_sample_forwards wide_shl tbl fs tc p s :
  forwards (snd (process_sample wide_shl tbl fs tc p s)) =
  forwards (infer_direction tbl (snd (track_channels tbl fs tc p s))).
Proof.
  unfold process_sample. destruct (track_channels tbl fs tc p s) as [fs1 tc1].
  cbn [snd]. fields.
  destruct (read_bit_frame wide_shl tbl (observe_pitch tbl (infer_direction tbl tc1)) p)
    as (_ & -> & _).
  now destruct (observe_pitch_frame tbl (infer_direction tbl tc1)) as (_ & -> & _).
Qed.

(** C7.  On a sample at which a channel has crossed (after both channels
    went through the detector), the direction is computed from the primary
    channel's crossing as [primary.positive != secondary.positive],
    otherwise as their equality, and inverted under [SWITCH_PHASE]; the
    decoder takes it, and this step resets [valid_counter] exactly when it
    differs from the direction held before, leaving it alone otherwise. *)
Theorem process_sample_direction wide_shl tbl fs tc p s :
  let tc1 := snd (track_channels tbl fs tc p s) in
  let computed :=
    xorb (has_flag (flags (tc_def tbl tc)) SWITCH_PHASE)
         (if swapped (primary tc1)
          then negb (eqb (positive (primary tc1)) (positive (secondary tc1)))
          else eqb (positive (primary tc1)) (positive (secondary tc1))) in
  swapped (primary tc1) || swapped (secondary tc1) = true ->
  forwards (infer_direction tbl tc1) = computed /\
  valid_counter (infer_direction tbl tc1) =
    (if eqb computed (forwards tc) then valid_counter tc else 0) /\
  forwards (snd (process_sample wide_shl tbl fs tc p s)) = computed.
Proof.
  cbv zeta. intros Hc. rewrite process_sample_forwards.
  destruct (track_channels_frame tbl fs tc p s) as (Hd & Hf & Hv & _).
  cbv zeta in Hd, Hf, Hv.
  set (tc1 := snd (track_channels tbl fs tc p s)) in *.
  assert (Hdef : tc_def tbl tc1 = tc_def tbl tc) by (unfold tc_def; now rewrite Hd).
  unfold infer_direction, crossing_direction. rewrite Hc, Hdef, Hf.
  set (ph := has_flag (flags (tc_def tbl tc)) SWITCH_PHASE).
  set (raw := if swapped (primary tc1) then _ else _).
  assert (E : (if ph then negb raw else raw) = xorb ph raw)
    by (destruct ph, raw; reflexivity).
  rewrite E.
  destruct (eqb (xorb ph raw) (forwards tc)) eqn:Heq; cbn [negb]; fields.
  - apply eqb_prop in Heq. rewrite Hf, Hv, Heq. auto.
  - auto.
Qed.

Lemma process_sample_direction_witness :
  let tc := set_threshold (set_zero_alpha blank_timecoder ALPHA) ZERO_THRESHOLD in
  let p := Z.shiftl 200 16 in
  let tc1 := snd (track_channels timecodes blank_filters tc p 0) in
  (swapped (primary tc1), swapped (secondary tc1),
   positive (primary tc1), positive (secondary tc1)) = (true, false, true, false) /\
  forwards (infer_direction timecodes tc1) = true /\
  valid_counter (infer_direction timecodes tc1) = 0 /\
  forwards (snd (process_sample x86_shl timecodes blank_filters tc p 0)) = true.
Proof.
  intros tc p tc1. split; [vm_compute; reflexivity|].
  apply (process_sample_direction x86_shl timecodes blank_filters tc p 0).
  vm_compute. reflexivity.
Defined.

(** When no channel has crossed, the step leaves the decoder alone. *)
Lemma infer_direction_quiet tbl tc :
  swapped (primary tc) || swapped (secondary tc) = false ->
  infer_direction tbl tc = tc.
Proof. intros H. unfold infer_direction. now rewrite H. Qed.


(** ** The position query *)

Lemma s32_absent : s32 LUT_ABSENT = -1.
Proof. reflexivity. Qed.

(** C3.  [timecoder_get_position] returns -1 (position unknown) exactly
    when [valid_counter <= 24] or the bitstream is not in the lookup table
    of the format; otherwise it returns the position the table gives for
    the bitstream, and what [when] points to, if anything, becomes
    [timecode_ticker * dt]. When it returns -1 it leaves [when] alone. *)
Theorem timecoder_get_position_spec tbl tc when :
  lut_positions_fit (lut (tc_def tbl tc)) ->
  let '(r, when', _) := timecoder_get_position tbl tc when in
  (r = -1 <-> valid_counter tc <= 24 \/
              slots (lut (tc_def tbl tc)) !! bitstream tc = None) /\
  (r <> -1 ->
   slots (lut (tc_def tbl tc)) !! bitstream tc = Some r /\
   when' = match when with
           | None => None
           | Some _ =>
               Some (PrimFloat.mul (double_of_int (timecode_ticker tc)) (dt tc))
           end) /\
  (r = -1 -> when' = when).
Proof.
  intros Hfit. unfold timecoder_get_position, VALID_BITS.
  destruct (Z.leb_spec (valid_counter tc) 24) as [Hv|Hv].
  { split; [split; auto|]. split; [intros H; now elim H|auto]. }
  unfold lut_lookup.
  destruct (slots (lut (tc_def tbl tc)) !! bitstream tc) as [p|] eqn:E.
  - pose proof (Hfit _ _ E) as Hp. rewrite s32_small by lia.
    destruct (Z.eqb_spec p (-1)) as [->|Hne]; [lia|].
    split; [split; [intros ->; lia|intros [H|H]; [lia|discriminate H]]|].
    split; [auto|intros ->; lia].
  - rewrite s32_absent. cbn [Z.eqb].
    split; [split; auto|]. split; [intros H; now elim H|auto].
Qed.

Lemma lut_init_fits : lut_positions_fit lut_init.
Proof. intros x p. cbn [slots lut_init]. now rewrite lookup_empty. Qed.

Lemma lut_push_fits l x :
  lut_positions_fit l -> 0 <= avail l < 2 ^ 31 -> lut_positions_fit (lut_push l x).
Proof.
  intros Hl Ha y p. cbn [slots lut_push].
  destruct (Z.eq_dec x y) as [->|Hne].
  - rewrite lookup_insert_eq. intros [= <-]. exact Ha.
  - rewrite lookup_insert_ne by assumption. apply Hl.
Qed.

Lemma small_table_fits : lut_positions_fit (lut (tc_def small_table small_decoder)).
Proof.
  change (lut (tc_def small_table small_decoder))
    with (lut_push (lut_push lut_init 5) 9).
  apply lut_push_fits; [apply lut_push_fits; [apply lut_init_fits|]|]; cbn; lia.
Qed.

Lemma timecoder_get_position_spec_witness :
  let '(r, when', _) := timecoder_get_position small_table small_decoder (Some 0%float) in
  (r = -1 <-> valid_counter small_decoder <= 24 \/
              slots (lut (tc_def small_table small_decoder)) !! bitstream small_decoder = None) /\
  (r <> -1 ->
   slots (lut (tc_def small_table small_decoder)) !! bitstream small_decoder = Some r /\
   when' = Some (PrimFloat.mul (double_of_int (timecode_ticker small_decoder))
                   (dt small_decoder))) /\
  (r = -1 -> when' = Some 0%float).
Proof.
  exact (timecoder_get_position_spec small_table small_decoder (Some 0%float)
           small_table_fits).
Defined.

Example small_decoder_position :
  timecoder_get_position small_table small_decoder (Some 0%float)
  = (1, Some 1.5%float, small_decoder).
Proof. vm_compute. reflexivity. Qed.

Example small_decoder_lost :
  timecoder_get_position small_table (set_bitstream small_decoder 7) (Some 0%float)
  = (-1, Some 0%float, set_bitstream small_decoder 7).
Proof. vm_compute. reflexivity. Qed.

Example small_decoder_unsure :
  timecoder_get_position small_table (set_valid_counter small_decoder 24) None
  = (-1, None, set_valid_counter small_decoder 24).
Proof. vm_compute. reflexivity. Qed.

Lemma get_position_decoder tbl tc when :
  snd (timecoder_get_position tbl tc when) = tc.
Proof.
  unfold timecoder_get_position.
  destruct (_ <=? _); [reflexivity|]. destruct (_ =? _); reflexivity.
Qed.

Lemma lut_holds_fits d l k :
  lut_holds d l k -> Z.of_nat k <= 2 ^ 31 -> lut_positions_fit l.
Proof.
  intros [_ Hs] Hk x p E. apply Hs in E. destruct E as (i & Hi & _ & ->). lia.
Qed.

(** C10.  [timecoder_get_position] changes nothing of the decoder, whether
    it knows the position or not: the decoder it leaves is the decoder it
    was given (its format, registers, counters, channels, reference level
    and monitor), and so is the world around it. *)
Theorem timecoder_get_position_pure wide_shl w when :
  snd (timecoder_get_position (w_tbl w) (w_tc w) when) = w_tc w /\
  run_op wide_shl w (GetPosition when) = Some w.
Proof.
  pose proof (get_position_decoder (w_tbl w) (w_tc w) when) as H.
  split; [exact H|]. unfold run_op.
  destruct (timecoder_get_position (w_tbl w) (w_tc w) when) as [[r wh] tc].
  cbn [snd] in H. subst tc. now destruct w.
Qed.

(** ** What every reachable decoder satisfies *)

Lemma int_of_double_range f : INT_MIN <= int_of_double f <= INT_MAX.
Proof.
  unfold int_of_double, INT_MIN, INT_MAX.
  destruct (Prim2SF f) as [s|s| |s m e]; try lia.
  match goal with |- context [if ?c then _ else _] => destruct c eqn:E end; [|lia].
  apply andb_true_iff in E. unfold INT_MIN, INT_MAX in E. lia.
Qed.

Lemma quot2_range p :
  INT_MIN <= p <= INT_MAX -> - 2 ^ 30 <= Z.quot p 2 <= 2 ^ 30 - 1.
Proof.
  unfold INT_MIN, INT_MAX. intros Hp. destruct (Z.le_gt_cases 0 p).
  - rewrite Z.quot_div_nonneg by lia.
    pose proof (Z.div_mod p 2). pose proof (Z.mod_pos_bound p 2). lia.
  - replace p with (- (- p)) by lia.
    rewrite Z.quot_opp_l, Z.quot_div_nonneg by lia.
    pose proof (Z.div_mod (- p) 2). pose proof (Z.mod_pos_bound (- p) 2). lia.
Qed.

Lemma peak_range p z :
  INT_MIN <= p <= INT_MAX -> INT_MIN <= z <= INT_MAX ->
  0 <= s32 (Z.abs (s32 (Z.quot p 2 - Z.quot z 2))) <= INT_MAX.
Proof.
  intros Hp Hz. apply quot2_range in Hp, Hz. unfold INT_MAX.
  rewrite (s32_small (_ - _)) by lia. rewrite s32_small by lia. lia.
Qed.

Lemma envelope_step r m :
  1 <= r <= INT_MAX -> 0 <= m <= INT_MAX ->
  s32 (s32 (r - Z.quot r REF_PEAKS_AVG) + Z.quot m REF_PEAKS_AVG)
  = r - Z.quot r 48 + Z.quot m 48 /\
  1 <= r - Z.quot r 48 + Z.quot m 48 <= INT_MAX.
Proof.
  unfold INT_MAX, REF_PEAKS_AVG. intros Hr Hm.
  rewrite !Z.quot_div_nonneg by lia.
  pose proof (Z.div_mod r 48) as Dr. pose proof (Z.mod_pos_bound r 48) as Br.
  pose proof (Z.div_mod m 48) as Dm. pose proof (Z.mod_pos_bound m 48) as Bm.
  assert (Hlow : 1 <= r - r / 48 <= r) by lia.
  assert (Hup : r - r / 48 + m / 48 <= 2 ^ 31 - 1) by lia.
  assert (0 <= m / 48) by lia.
  rewrite (s32_small (r - r / 48)) by lia. rewrite s32_small by lia. lia.
Qed.

Lemma detect_zero_crossing_zero_range ch v alpha th :
  INT_MIN <= zero (detect_zero_crossing ch v alpha th) <= INT_MAX.
Proof.
  unfold detect_zero_crossing. cbn [zero set_zero].
  apply int_of_double_range.
Qed.

Lemma track_channels_inv tbl fs tc p s :
  decoder_inv tc -> decoder_inv (snd (track_channels tbl fs tc p s)).
Proof.
  intros (Ht & Hr & _).
  destruct (track_channels_frame tbl fs tc p s) as (_ & _ & _ & Er & Eb & Et & _).
  cbv zeta in *. unfold decoder_inv. rewrite Er, Eb, Et.
  split; [assumption|]. split; [assumption|].
  unfold track_channels. destruct (has_flag _ _).
  - destruct (ema p _ _), (ema s _ _).
    destruct (discrete_derivative z _), (discrete_derivative z1 _).
    cbn [snd]. fields. apply detect_zero_crossing_zero_range.
  - cbn [snd]. fields. apply detect_zero_crossing_zero_range.
Qed.

Lemma infer_direction_inv tbl tc :
  decoder_inv tc -> decoder_inv (infer_direction tbl tc).
Proof.
  intros H. unfold infer_direction.
  destruct (_ || _); [|assumption]. destruct (negb _); assumption.
Qed.

Lemma observe_pitch_inv tbl tc :
  decoder_inv tc -> decoder_inv (observe_pitch tbl tc).
Proof.
  intros H. unfold decoder_inv.
  destruct (observe_pitch_frame tbl tc) as (_ & _ & _ & -> & -> & -> & -> & _).
  exact H.
Qed.

Lemma score_validity_registers tc :
  timecode (score_validity tc) = bitstream (score_validity tc).
Proof.
  unfold score_validity. destruct (Z.eqb_spec (timecode tc) (bitstream tc));
    fields; [assumption|reflexivity].
Qed.

Lemma process_bitstream_level wide_shl tbl tc m :
  ref_level (process_bitstream wide_shl tbl tc m) =
  s32 (s32 (ref_level tc - Z.quot (ref_level tc) REF_PEAKS_AVG)
       + Z.quot m REF_PEAKS_AVG).
Proof.
  unfold process_bitstream, track_envelope. fields.
  set (tc' := if has_flag _ _ then _ else tc).
  assert (E : ref_level tc' = ref_level tc)
    by (unfold tc'; destruct (has_flag _ _); reflexivity).
  destruct (score_validity_frame (shift_bit wide_shl tbl tc' (Z.b2z (ref_level tc' <? m))))
    as (_ & _ & -> & _).
  destruct (shift_bit_frame wide_shl tbl tc' (Z.b2z (ref_level tc' <? m)))
    as (_ & _ & -> & _).
  now rewrite E.
Qed.

Lemma process_bitstream_registers wide_shl tbl tc m :
  timecode (process_bitstream wide_shl tbl tc m) =
  bitstream (process_bitstream wide_shl tbl tc m).
Proof.
  unfold process_bitstream, track_envelope. fields. apply score_validity_registers.
Qed.

Lemma process_bitstream_inv wide_shl tbl tc m :
  1 <= ref_level tc <= INT_MAX -> 0 <= m <= INT_MAX ->
  INT_MIN <= zero (primary tc) <= INT_MAX ->
  decoder_inv (process_bitstream wide_shl tbl tc m).
Proof.
  intros Hr Hm Hz. split; [apply process_bitstream_registers|].
  rewrite process_bitstream_level.
  destruct (envelope_step _ _ Hr Hm) as [-> Hb]. split; [exact Hb|].
  now destruct (process_bitstream_frame wide_shl tbl tc m) as (_ & _ & -> & _).
Qed.

Lemma read_bit_inv wide_shl tbl tc p :
  INT_MIN <= p <= INT_MAX -> decoder_inv tc ->
  decoder_inv (read_bit wide_shl tbl tc p).
Proof.
  intros Hp H. pose proof H as (Ht & Hr & Hz). unfold read_bit.
  destruct (_ && _); [|exact H].
  apply process_bitstream_inv; try assumption. now apply peak_range.
Qed.

Lemma process_sample_inv wide_shl tbl fs tc p s :
  INT_MIN <= p <= INT_MAX -> decoder_inv tc ->
  decoder_inv (snd (process_sample wide_shl tbl fs tc p s)).
Proof.
  intros Hp H. unfold process_sample.
  pose proof (track_channels_inv tbl fs tc p s H) as H1.
  destruct (track_channels tbl fs tc p s) as [fs1 tc1]. cbn [snd] in *.
  apply infer_direction_inv with (tbl := tbl) in H1.
  apply observe_pitch_inv with (tbl := tbl) in H1.
  apply (read_bit_inv wide_shl tbl _ p Hp) in H1. exact H1.
Qed.

Lemma update_monitor_inv tc x y :
  decoder_inv tc ->
  exists tc', update_monitor tc x y = Some tc' /\ decoder_inv tc' /\ def tc' = def tc.
Proof.
  intros H. pose proof H as (Ht & Hr & Hz). unfold update_monitor.
  destruct (mon tc) as [buf|]; [|eauto].
  fields. replace (0 <? ref_level tc) with true by (symmetry; apply Z.ltb_lt; lia).
  cbn [negb]. destruct (_ || _); eexists; (split; [reflexivity|]); split; auto.
Qed.

Lemma submit_frame_inv wide_shl tbl fs tc frame :
  decoder_inv tc ->
  exists st', submit_frame wide_shl tbl (fs, tc) frame = Some st' /\
              decoder_inv (snd st').
Proof.
  intros H. unfold submit_frame.
  set (left := s32 (Z.shiftl (s16 (fst frame)) 16)).
  set (right := s32 (Z.shiftl (s16 (snd frame)) 16)).
  set (p := if has_flag _ SWITCH_PRIMARY then left else right).
  set (s := if has_flag _ SWITCH_PRIMARY then right else left).
  assert (Hp : INT_MIN <= p <= INT_MAX).
  { unfold p, INT_MIN, INT_MAX.
    pose proof (s32_range (Z.shiftl (s16 (fst frame)) 16)).
    pose proof (s32_range (Z.shiftl (s16 (snd frame)) 16)).
    destruct (has_flag _ _); unfold left, right; lia. }
  pose proof (process_sample_inv wide_shl tbl fs tc p s Hp H) as H1.
  destruct (process_sample wide_shl tbl fs tc p s) as [fs1 tc1]. cbn [snd] in H1.
  destruct (has_flag (flags (tc_def tbl tc1)) OFFSET_MODULATION).
  - destruct (discrete_derivative left _) as [ml lo].
    destruct (discrete_derivative right _) as [mr ro].
    destruct (update_monitor_inv tc1
                (int_of_double (PrimFloat.mul (double_of_int ml) MON_SCALE))
                (int_of_double (PrimFloat.mul (double_of_int mr) MON_SCALE)) H1)
      as (tc' & -> & H' & _).
    eexists. split; [reflexivity|exact H'].
  - destruct (update_monitor_inv tc1 left right H1) as (tc' & -> & H' & _).
    eexists. split; [reflexivity|exact H'].
Qed.

Lemma timecoder_submit_inv wide_shl tbl pcm : forall st,
  decoder_inv (snd st) ->
  exists st', timecoder_submit wide_shl tbl st pcm = Some st' /\
              decoder_inv (snd st').
Proof.
  induction pcm as [|frame rest IH]; intros [fs tc] H; cbn [timecoder_submit].
  - eauto.
  - destruct (submit_frame_inv wide_shl tbl fs tc frame H) as (st1 & -> & H1).
    apply IH, H1.
Qed.

Lemma timecoder_init_inv tbl tc0 d sp rate phono tc :
  timecoder_init tbl tc0 d sp rate phono = Some tc ->
  decoder_inv tc /\ valid_counter tc = 0.
Proof.
  unfold timecoder_init. destruct d as [i|]; [|discriminate].
  destruct (negb _); [discriminate|]. intros [= <-]. fields.
  unfold decoder_inv, INT_MIN, INT_MAX. fields.
  cbn [init_channel zero set_zero]. lia.
Qed.

Lemma run_op_inv wide_shl w o w' :
  run_op wide_shl w o = Some w' -> decoder_inv (w_tc w) -> decoder_inv (w_tc w').
Proof.
  intros Hrun H. destruct o; cbn [run_op] in Hrun.
  - destruct (timecoder_submit_inv wide_shl (w_tbl w) pcm (w_filters w, w_tc w) H)
      as ([fs tc] & E & H').
    rewrite E in Hrun. injection Hrun as <-. exact H'.
  - unfold timecoder_cycle_definition in Hrun.
    destruct (next_definition _ _); [|discriminate]. injection Hrun as <-. exact H.
  - unfold timecoder_monitor_init in Hrun.
    destruct (mon (w_tc w)); [discriminate|].
    destruct (_ && _); injection Hrun as <-; exact H.
  - unfold timecoder_monitor_clear in Hrun.
    destruct (mon (w_tc w)); [|discriminate]. injection Hrun as <-. exact H.
  - pose proof (get_position_decoder (w_tbl w) (w_tc w) when) as E.
    destruct (timecoder_get_position (w_tbl w) (w_tc w) when) as [[r wh] tc].
    cbn [snd] in E. subst tc. injection Hrun as <-. exact H.
  - destruct (timecoder_find_definition _ _ _) as [[tbl' r]|]; [|discriminate].
    injection Hrun as <-. exact H.
  - injection Hrun as <-. exact H.
  - unfold timecoder_clear in Hrun.
    destruct (mon (w_tc w)); [discriminate|]. injection Hrun as <-. exact H.
Qed.

Lemma reachable_inv wide_shl w : reachable wide_shl w -> decoder_inv (w_tc w).
Proof.
  induction 1 as [tbl fs tc0 i sp rate phono tc Hinit|w o w' _ IH Hrun].
  - apply (timecoder_init_inv _ _ _ _ _ _ _ Hinit).
  - exact (run_op_inv _ _ _ _ Hrun IH).
Qed.

Lemma small_world_reachable wide_shl : reachable wide_shl small_world.
Proof.
  unfold small_world.
  apply (reachable_init wide_shl small_table blank_filters blank_timecoder O
           1%float 48000 false).
  vm_compute. reflexivity.
Qed.

Lemma shift_bit_cbuf wide_shl tbl tc c b :
  timecode (shift_bit wide_shl tbl (set_cbuf tc c) b)
  = timecode (shift_bit wide_shl tbl tc b) /\
  bitstream (shift_bit wide_shl tbl (set_cbuf tc c) b)
  = bitstream (shift_bit wide_shl tbl tc b).
Proof.
  unfold shift_bit. fields. change (tc_def tbl (set_cbuf tc c)) with (tc_def tbl tc).
  destruct (forwards tc); split; reflexivity.
Qed.

(** C5.  On every decoded bit, with [shifted] the decoder after the shifts
    of the bit: if its expected register equals its bitstream,
    [valid_counter] is incremented by one (as the [unsigned int] it is) and
    the expected register is kept; otherwise the expected register is set
    to the bitstream and [valid_counter] to 0.  Either way the two
    registers are equal afterwards, and in every state a host can reach,
    [valid_counter] is 0 whenever they differ. *)
Theorem validity_scoring wide_shl w tbl tc m :
  reachable wide_shl w ->
  let shifted := shift_bit wide_shl tbl tc (Z.b2z (ref_level tc <? m)) in
  let tc' := process_bitstream wide_shl tbl tc m in
  (if timecode shifted =? bitstream shifted
   then valid_counter tc' = u32 (valid_counter tc + 1) /\
        timecode tc' = timecode shifted
   else valid_counter tc' = 0 /\ timecode tc' = bitstream shifted) /\
  bitstream tc' = bitstream shifted /\
  (timecode tc' <> bitstream tc' -> valid_counter tc' = 0) /\
  (timecode (w_tc w) <> bitstream (w_tc w) -> valid_counter (w_tc w) = 0).
Proof.
  intros Hw. cbv zeta.
  assert (Hreg : timecode (process_bitstream wide_shl tbl tc m) =
                 bitstream (process_bitstream wide_shl tbl tc m))
    by apply process_bitstream_registers.
  assert (Hs : exists tc0,
             process_bitstream wide_shl tbl tc m
             = track_envelope (set_timecode_ticker (score_validity
                 (shift_bit wide_shl tbl tc0 (Z.b2z (ref_level tc <? m)))) 0) m /\
             timecode (shift_bit wide_shl tbl tc0 (Z.b2z (ref_level tc <? m)))
             = timecode (shift_bit wide_shl tbl tc (Z.b2z (ref_level tc <? m))) /\
             bitstream (shift_bit wide_shl tbl tc0 (Z.b2z (ref_level tc <? m)))
             = bitstream (shift_bit wide_shl tbl tc (Z.b2z (ref_level tc <? m))) /\
             valid_counter (shift_bit wide_shl tbl tc0 (Z.b2z (ref_level tc <? m)))
             = valid_counter tc).
  { unfold process_bitstream. destruct (has_flag _ _).
    - exists (set_cbuf tc (cbuf_push (cbuf tc) m)). split; [reflexivity|].
      destruct (shift_bit_cbuf wide_shl tbl tc (cbuf_push (cbuf tc) m)
                  (Z.b2z (ref_level tc <? m))) as [-> ->].
      repeat split.
      now destruct (shift_bit_frame wide_shl tbl (set_cbuf tc (cbuf_push (cbuf tc) m))
                      (Z.b2z (ref_level tc <? m))) as (_ & _ & _ & -> & _).
    - exists tc. repeat split.
      now destruct (shift_bit_frame wide_shl tbl tc (Z.b2z (ref_level tc <? m)))
        as (_ & _ & _ & -> & _). }
  destruct Hs as (tc0 & E & Et & Eb & Ev).
  split; [|split; [|split]].
  - rewrite E. unfold track_envelope, score_validity. fields.
    rewrite <- Et, <- Eb, <- Ev.
    destruct (timecode _ =? bitstream _); fields; auto.
  - rewrite E. unfold track_envelope. fields.
    now rewrite score_validity_bitstream.
  - intros Hne. now elim Hne.
  - intros Hne. elim Hne. apply (reachable_inv wide_shl w Hw).
Qed.

Lemma validity_scoring_witness :
  let tc := set_ref_level (w_tc small_world) 10 in
  let shifted := shift_bit x86_shl small_table tc (Z.b2z (ref_level tc <? 20)) in
  let tc' := process_bitstream x86_shl small_table tc 20 in
  (timecode shifted, bitstream shifted) = (0, 8) /\
  (if timecode shifted =? bitstream shifted
   then valid_counter tc' = u32 (valid_counter tc + 1) /\
        timecode tc' = timecode shifted
   else valid_counter tc' = 0 /\ timecode tc' = bitstream shifted) /\
  bitstream tc' = bitstream shifted /\
  (timecode tc' <> bitstream tc' -> valid_counter tc' = 0) /\
  (timecode (w_tc small_world) <> bitstream (w_tc small_world) ->
   valid_counter (w_tc small_world) = 0).
Proof.
  intros tc shifted tc'. split; [vm_compute; reflexivity|].
  apply (validity_scoring x86_shl small_world small_table tc 20).
  apply (reachable_init x86_shl small_table blank_filters blank_timecoder O
           1%float 48000 false).
  vm_compute. reflexivity.
Defined.

(** C9.  In every state a host can reach the reference level is a positive
    [int]; a peak [m] (never negative) moves it to
    [ref_level - ref_level / 48 + m / 48], which is positive again; so the
    assertion of [update_monitor] holds there, and a block of samples is
    decoded to its end without meeting it. *)
Theorem ref_level_positive wide_shl w pcm x y m :
  reachable wide_shl w -> 0 <= m <= INT_MAX ->
  let r := ref_level (w_tc w) in
  1 <= r <= INT_MAX /\
  ref_level (process_bitstream wide_shl (w_tbl w) (w_tc w) m)
  = r - Z.quot r 48 + Z.quot m 48 /\
  1 <= r - Z.quot r 48 + Z.quot m 48 <= INT_MAX /\
  update_monitor (w_tc w) x y <> None /\
  run_op wide_shl w (Submit pcm) <> None.
Proof.
  intros Hw Hm. cbv zeta. pose proof (reachable_inv wide_shl w Hw) as H.
  pose proof H as (_ & Hr & _).
  split; [exact Hr|]. rewrite process_bitstream_level.
  destruct (envelope_step _ _ Hr Hm) as [-> Hb].
  split; [reflexivity|]. split; [exact Hb|]. split.
  - destruct (update_monitor_inv (w_tc w) x y H) as (tc' & -> & _). discriminate.
  - cbn [run_op].
    destruct (timecoder_submit_inv wide_shl (w_tbl w) pcm (w_filters w, w_tc w) H)
      as ([fs tc] & -> & _). discriminate.
Qed.

Lemma ref_level_positive_witness :
  let r := ref_level (w_tc small_world) in
  r = INT_MAX /\
  1 <= r <= INT_MAX /\
  ref_level (process_bitstream x86_shl (w_tbl small_world) (w_tc small_world) 4800)
  = r - Z.quot r 48 + Z.quot 4800 48 /\
  1 <= r - Z.quot r 48 + Z.quot 4800 48 <= INT_MAX /\
  update_monitor (w_tc small_world) 7 (-7) <> None /\
  run_op x86_shl small_world (Submit [(1000, -1000); (-32768, 32767)]) <> None.
Proof.
  intros r. split; [vm_compute; reflexivity|].
  apply (ref_level_positive x86_shl small_world
           [(1000, -1000); (-32768, 32767)] 7 (-7) 4800).
  - apply (reachable_init x86_shl small_table blank_filters blank_timecoder O
             1%float 48000 false).
    vm_compute. reflexivity.
  - unfold INT_MAX. lia.
Defined.

(** ** Cycling through the definitions *)

Lemma next_index_iter tbl i k :
  (i < List.length tbl)%nat ->
  Nat.iter k (next_index tbl) i = ((i + k) mod List.length tbl)%nat.
Proof.
  intros Hi. induction k as [|k IH].
  - cbn [Nat.iter nat_rect]. rewrite Nat.add_0_r. symmetry. now apply Nat.mod_small.
  - rewrite Nat.iter_succ, IH. unfold next_index.
    set (n := List.length tbl) in *.
    assert (Hn : n <> O) by lia.
    pose proof (Nat.mod_upper_bound (i + k) n Hn) as Hb.
    pose proof (Nat.div_mod_eq (i + k) n) as Hd.
    destruct (Nat.leb_spec n (S ((i + k) mod n))) as [Hw|Hw].
    + assert (E : (i + S k = n * S ((i + k) / n))%nat) by nia.
      rewrite E, Nat.mul_comm. symmetry. apply Nat.Div0.mod_mul.
    + apply (Nat.mod_unique _ _ ((i + k) / n)); [exact Hw|]. nia.
Qed.

Lemma next_definition_loop_finds tbl fuel : forall i k,
  (k < fuel)%nat ->
  lookup (nth (Nat.iter (S k) (next_index tbl) i) tbl null_def) = true ->
  exists j, next_definition_loop tbl fuel i = Some j /\
            lookup (nth j tbl null_def) = true.
Proof.
  induction fuel as [|fuel IH]; intros i k Hk Hl; [lia|].
  cbn [next_definition_loop].
  destruct (lookup (nth (next_index tbl i) tbl null_def)) eqn:E; cbn [negb].
  - eauto.
  - destruct k as [|k].
    + cbn [Nat.iter nat_rect] in Hl. congruence.
    + apply (IH _ k); [lia|].
      rewrite Nat.iter_succ_r in Hl. exact Hl.
Qed.

(** Once round the table is enough: [next_definition] returns whenever the
    definition it starts from has its lookup table. *)
Lemma next_definition_returns tbl i :
  lookup (nth i tbl null_def) = true ->
  exists j, next_definition tbl i = Some j /\ lookup (nth j tbl null_def) = true.
Proof.
  intros Hl. assert (Hi : (i < List.length tbl)%nat).
  { destruct (Nat.lt_ge_cases i (List.length tbl)) as [|Hge]; [assumption|].
    rewrite nth_overflow in Hl by assumption. discriminate Hl. }
  unfold next_definition.
  apply (next_definition_loop_finds tbl _ i (List.length tbl - 1)); [lia|].
  replace (S (List.length tbl - 1)) with (List.length tbl) by lia.
  rewrite next_index_iter by assumption.
  replace (i + List.length tbl)%nat with (i + 1 * List.length tbl)%nat by lia.
  rewrite Nat.Div0.mod_add, Nat.mod_small by assumption. exact Hl.
Qed.

Lemma next_definition_loop_sound tbl fuel : forall i j,
  next_definition_loop tbl fuel i = Some j -> lookup (nth j tbl null_def) = true.
Proof.
  induction fuel as [|fuel IH]; intros i j; cbn [next_definition_loop];
    [discriminate|].
  destruct (lookup (nth (next_index tbl i) tbl null_def)) eqn:E; cbn [negb].
  - now intros [= <-].
  - apply IH.
Qed.

Lemma infer_direction_def tbl tc : def (infer_direction tbl tc) = def tc.
Proof.
  unfold infer_direction. destruct (_ || _); [|reflexivity].
  destruct (negb _); reflexivity.
Qed.

Lemma process_sample_def wide_shl tbl fs tc p s :
  def (snd (process_sample wide_shl tbl fs tc p s)) = def tc.
Proof.
  unfold process_sample.
  destruct (track_channels_frame tbl fs tc p s) as (Hd & _). cbv zeta in Hd.
  destruct (track_channels tbl fs tc p s) as [fs1 tc1]. cbn [snd] in *. fields.
  destruct (read_bit_frame wide_shl tbl (observe_pitch tbl (infer_direction tbl tc1)) p)
    as (-> & _).
  destruct (observe_pitch_frame tbl (infer_direction tbl tc1)) as (-> & _).
  now rewrite infer_direction_def.
Qed.

Lemma update_monitor_def tc x y tc' :
  update_monitor tc x y = Some tc' -> def tc' = def tc.
Proof.
  unfold update_monitor. destruct (mon tc); [|now intros [= <-]].
  destruct (negb _); [discriminate|]. destruct (_ || _); now intros [= <-].
Qed.

Lemma submit_frame_def wide_shl tbl fs tc frame st' :
  submit_frame wide_shl tbl (fs, tc) frame = Some st' -> def (snd st') = def tc.
Proof.
  unfold submit_frame.
  set (p := if has_flag _ SWITCH_PRIMARY then _ else _).
  set (s := if has_flag _ SWITCH_PRIMARY then _ else _).
  pose proof (process_sample_def wide_shl tbl fs tc p s) as Hd.
  destruct (process_sample wide_shl tbl fs tc p s) as [fs1 tc1]. cbn [snd] in Hd.
  destruct (has_flag _ OFFSET_MODULATION).
  - destruct (discrete_derivative _ _), (discrete_derivative _ _).
    destruct (update_monitor tc1 _ _) as [tc2|] eqn:E; [|discriminate].
    intros [= <-]. cbn [snd]. rewrite <- Hd. exact (update_monitor_def _ _ _ _ E).
  - destruct (update_monitor tc1 _ _) as [tc2|] eqn:E; [|discriminate].
    intros [= <-]. cbn [snd]. rewrite <- Hd. exact (update_monitor_def _ _ _ _ E).
Qed.

Lemma timecoder_submit_def wide_shl tbl pcm : forall st st',
  timecoder_submit wide_shl tbl st pcm = Some st' -> def (snd st') = def (snd st).
Proof.
  induction pcm as [|frame rest IH]; intros [fs tc] st'; cbn [timecoder_submit].
  - now intros [= <-].
  - destruct (submit_frame wide_shl tbl (fs, tc) frame) as [st1|] eqn:E;
      [|discriminate].
    intros H. rewrite (IH _ _ H). exact (submit_frame_def _ _ _ _ _ _ E).
Qed.

Lemma build_lookup_keeps mem_ok d r d' :
  build_lookup mem_ok d = Some (r, d') -> lookup d = true -> lookup d' = true.
Proof.
  unfold build_lookup. intros H Hl. rewrite Hl in H. now injection H as _ <-.
Qed.

Lemma find_definition_loop_keeps mem_ok nm todo : forall done tbl' r i,
  find_definition_loop mem_ok nm done todo = Some (tbl', r) ->
  lookup (nth i (done ++ todo) null_def) = true ->
  lookup (nth i tbl' null_def) = true.
Proof.
  induction todo as [|d rest IH]; intros done tbl' r i; cbn [find_definition_loop].
  - rewrite app_nil_r. now intros [= <- _].
  - destruct (negb _).
    + intros H Hl. apply (IH _ _ _ i H).
      now rewrite <- app_assoc.
    + destruct (build_lookup mem_ok d) as [[r' d']|] eqn:E; [|discriminate].
      intros H Hl.
      assert (Ht : tbl' = done ++ d' :: rest)
        by (destruct (r' =? -1); now injection H as <- _).
      subst tbl'. clear H.
      destruct (Nat.lt_ge_cases i (List.length done)) as [Hlt|Hge].
      * rewrite app_nth1 in * by assumption. exact Hl.
      * rewrite app_nth2 in * by assumption.
        destruct (i - List.length done)%nat; cbn [nth] in *; [|exact Hl].
        exact (build_lookup_keeps _ _ _ _ E Hl).
Qed.

Lemma timecoder_free_lookup_keeps tbl i :
  lookup (nth i tbl null_def) = true ->
  lookup (nth i (timecoder_free_lookup tbl) null_def) = true.
Proof.
  unfold timecoder_free_lookup. revert i.
  induction tbl as [|d rest IH]; intros [|i]; cbn [map nth]; auto.
  intros H. now rewrite H.
Qed.

(** The definition of a reachable decoder has its lookup flag set. *)
Lemma reachable_lookup wide_shl w :
  reachable wide_shl w -> lookup (tc_def (w_tbl w) (w_tc w)) = true.
Proof.
  unfold tc_def.
  induction 1 as [tbl fs tc0 i sp rate phono tc Hinit|w o w' _ IH Hrun];
    cbn [w_tbl w_tc].
  - unfold timecoder_init in Hinit.
    destruct (lookup (nth i tbl null_def)) eqn:E; [|discriminate].
    cbn [negb] in Hinit. now injection Hinit as <-.
  - destruct o; cbn [run_op] in Hrun.
    + destruct (timecoder_submit _ _ _ pcm) as [[fs tc]|] eqn:E; [|discriminate].
      injection Hrun as <-. cbn [w_tbl w_tc].
      apply timecoder_submit_def in E. cbn [snd] in E. now rewrite E.
    + unfold timecoder_cycle_definition, next_definition in Hrun.
      destruct (next_definition_loop _ _ _) as [j|] eqn:E; [|discriminate].
      injection Hrun as <-. cbn [w_tbl w_tc]. fields.
      exact (next_definition_loop_sound _ _ _ _ E).
    + unfold timecoder_monitor_init in Hrun.
      destruct (mon (w_tc w)); [discriminate|].
      destruct (_ && _); injection Hrun as <-; exact IH.
    + unfold timecoder_monitor_clear in Hrun.
      destruct (mon (w_tc w)); [|discriminate]. injection Hrun as <-. exact IH.
    + pose proof (get_position_decoder (w_tbl w) (w_tc w) when) as E.
      destruct (timecoder_get_position (w_tbl w) (w_tc w) when) as [[r wh] tc].
      cbn [snd] in E. subst tc. injection Hrun as <-. exact IH.
    + unfold timecoder_find_definition in Hrun.
      destruct (find_definition_loop _ _ _ _) as [[tbl' r]|] eqn:E; [|discriminate].
      injection Hrun as <-. cbn [w_tbl w_tc].
      exact (find_definition_loop_keeps _ _ _ _ _ _ _ E IH).
    + injection Hrun as <-. cbn [w_tbl w_tc].
      now apply timecoder_free_lookup_keeps.
    + unfold timecoder_clear in Hrun.
      destruct (mon (w_tc w)); [discriminate|]. injection Hrun as <-. exact IH.
Qed.

(** So a reachable decoder can always be moved to the next definition. *)
Lemma reachable_cycles wide_shl w :
  reachable wide_shl w -> run_op wide_shl w CycleDefinition <> None.
Proof.
  intros Hw. cbn [run_op]. unfold timecoder_cycle_definition.
  destruct (next_definition_returns _ _ (reachable_lookup _ _ Hw)) as (j & -> & _).
  discriminate.
Qed.

(** ** Finding a definition by name *)

(** Scenario: [timecoder_find_definition("serato_2a")] builds the table of
    the first entry and returns it; its seed is then found at position 0
    and the next state at position 1. *)
Lemma find_serato_2a :
  exists l,
    timecoder_find_definition true "serato_2a" timecodes
    = Some (set_lut (nth 0 timecodes null_def) l true :: tl timecodes, Some O) /\
    lut_lookup l 0x59017 = 0 /\
    lut_lookup l (fwd 0x59017 (nth 0 timecodes null_def)) = 1.
Proof.
  assert (Hd : In (nth 0 timecodes null_def) timecodes) by (left; reflexivity).
  destruct (build_lookup_catalogue_facts _ Hd) as (l & E & Hl).
  exists l. split; [|split].
  - unfold timecoder_find_definition.
    change timecodes with (nth 0 timecodes null_def :: tl timecodes) at 1.
    cbn [find_definition_loop]. rewrite E.
    change (negb (String.eqb (name (nth 0 timecodes null_def)) "serato_2a"))
      with false.
    cbn [Z.eqb app List.length]. reflexivity.
  - apply (Hl O). cbn. lia.
  - apply (Hl 1%nat). cbn. lia.
Qed.

(** ** The feedback bit is linear *)

Lemma land_lxor_distr_r a b c :
  Z.land (Z.lxor a b) c = Z.lxor (Z.land a c) (Z.land b c).
Proof.
  apply Z.bits_inj'. intros n Hn.
  rewrite !Z.lxor_spec, !Z.land_spec, !Z.lxor_spec.
  destruct (Z.testbit a n), (Z.testbit b n), (Z.testbit c n); reflexivity.
Qed.

Lemma b2z_xorb a b : Z.b2z (xorb a b) = Z.lxor (Z.b2z a) (Z.b2z b).
Proof. destruct a, b; reflexivity. Qed.

Lemma lfsr_lxor x y t :
  0 <= x -> 0 <= y -> 0 <= t ->
  lfsr (Z.lxor x y) t = Z.lxor (lfsr x t) (lfsr y t).
Proof.
  intros Hx Hy Ht. rewrite !lfsr_parity, land_lxor_distr_r.
  rewrite Zparity_lxor by (apply Z.land_nonneg; auto).
  apply b2z_xorb.
Qed.

(** X1.  [lfsr] returns a single bit, 0 on the register 0, and is additive
    over exclusive or: the feedback of [x ^ y] is the exclusive or of the
    feedbacks of [x] and of [y]. *)
Theorem lfsr_additive x y t :
  0 <= x -> 0 <= y -> 0 <= t ->
  (lfsr x t = 0 \/ lfsr x t = 1) /\
  lfsr 0 t = 0 /\
  lfsr (Z.lxor x y) t = Z.lxor (lfsr x t) (lfsr y t).
Proof.
  intros Hx Hy Ht. split; [apply lfsr_bit|]. split; [reflexivity|].
  now apply lfsr_lxor.
Qed.

Lemma lfsr_additive_witness :
  (lfsr 0x59017 0x361e5 = 0 \/ lfsr 0x59017 0x361e5 = 1) /\
  lfsr 0 0x361e5 = 0 /\
  lfsr (Z.lxor 0x59017 0x8f3c6) 0x361e5
  = Z.lxor (lfsr 0x59017 0x361e5) (lfsr 0x8f3c6 0x361e5).
Proof. apply (lfsr_additive 0x59017 0x8f3c6 0x361e5); lia. Defined.

Lemma b2z_shiftl_bit (l : bool) k n :
  0 <= k -> 0 <= n ->
  Z.testbit (Z.shiftl (Z.b2z l) k) n = l && (n =? k).
Proof.
  intros Hk Hn. rewrite Z.shiftl_spec by lia.
  destruct (Z.eqb_spec n k) as [->|Hne].
  - rewrite Z.sub_diag. destruct l; reflexivity.
  - rewrite andb_false_r. destruct (Z.ltb_spec n k).
    + apply Z.testbit_neg_r. lia.
    + destruct l; [|apply Z.bits_0].
      cbn [Z.b2z]. change 1 with (2 ^ 0). apply Z.pow2_bits_false. lia.
Qed.

Section Lfsr_linear.
Variable def : timecode_def.
Hypothesis bits_range : 0 < bits def < 128.
Hypothesis taps_nonneg : 0 <= taps def.

Lemma fwd_lxor x y :
  0 <= x < 2 ^ bits def -> 0 <= y < 2 ^ bits def ->
  fwd (Z.lxor x y) def = Z.lxor (fwd x def) (fwd y def).
Proof.
  intros Hx Hy. rewrite !fwd_eq by assumption.
  rewrite land_lxor_distr_r.
  assert (0 <= Z.lor (taps def) 1) by (apply Z.lor_nonneg; lia).
  rewrite Zparity_lxor by (apply Z.land_nonneg; lia).
  apply Z.bits_inj'. intros n Hn.
  rewrite !Z.lxor_spec, !Z.lor_spec, !Z.shiftr_spec, !b2z_shiftl_bit,
    !Z.lxor_spec by lia.
  destruct (Z.eqb_spec n (bits def - 1)) as [->|Hne].
  - rewrite (testbit_above x (bits def)), (testbit_above y (bits def)) by lia.
    repeat match goal with |- context [Zparity ?z] => destruct (Zparity z) end;
      reflexivity.
  - rewrite !andb_false_r, !orb_false_r. reflexivity.
Qed.

(** X2.  One step forwards is additive over exclusive or on the registers
    of a definition, and leaves the register 0 where it is: the sequences
    of a definition are those of a linear recurrence. *)
Theorem fwd_additive x y :
  0 <= x < 2 ^ bits def -> 0 <= y < 2 ^ bits def ->
  fwd 0 def = 0 /\
  fwd (Z.lxor x y) def = Z.lxor (fwd x def) (fwd y def).
Proof.
  intros Hx Hy. split; [|now apply fwd_lxor].
  rewrite fwd_eq by assumption. rewrite Z.land_0_l. cbn [Zparity Z.b2z].
  now rewrite Z.shiftl_0_l, Z.shiftr_0_l.
Qed.

(** X3.  For any definition whose register fits [bits_t], both steps keep a
    register within [bits] bits and undo each other on every register
    value, on the sequence or not. *)
Theorem fwd_rev_permute x :
  0 <= x < 2 ^ bits def ->
  0 <= fwd x def < 2 ^ bits def /\ 0 <= rev x def < 2 ^ bits def /\
  rev (fwd x def) def = x /\ fwd (rev x def) def = x.
Proof.
  intros Hx. split; [now apply fwd_bound|]. split; [apply rev_bound; lia|].
  split; [now apply rev_fwd_id | now apply fwd_rev_id].
Qed.
End Lfsr_linear.

Lemma fwd_additive_witness :
  let d := entry "pioneer_a" "" 1000 SWITCH_POLARITY 20 0x78370 0x7933a 635000 614000 in
  fwd 0 d = 0 /\
  fwd (Z.lxor 0x78370 0x12345) d = Z.lxor (fwd 0x78370 d) (fwd 0x12345 d).
Proof.
  intros d. apply (fwd_additive d); unfold d; cbn [bits taps entry]; lia.
Defined.

Lemma fwd_rev_permute_witness :
  let d := entry "x" "" 3000 OFFSET_MODULATION 113 7
             (UINT128 0x400000000000 0x1000010800000001) 100 90 in
  let x := 2 ^ 112 + 12345 in
  0 <= fwd x d < 2 ^ bits d /\ 0 <= rev x d < 2 ^ bits d /\
  rev (fwd x d) d = x /\ fwd (rev x d) d = x.
Proof.
  intros d x. apply (fwd_rev_permute d); unfold x, d; cbn [bits taps entry];
    try (vm_compute; intuition congruence); lia.
Defined.

(** ** What a finished build guarantees *)

Section Build_sound.
Variable d : timecode_def.
Hypothesis bits_range : 0 < bits d < 128.

Lemma lut_holds_present l k y :
  lut_holds d l k -> Z.of_nat k < LUT_ABSENT ->
  lut_lookup l y = LUT_ABSENT -> forall i, (i < k)%nat -> lfsr_seq d i <> y.
Proof.
  intros Hl Hk Hy i Hi E.
  rewrite <- E, (lut_holds_lookup d l k i Hl Hi) in Hy. lia.
Qed.

Lemma build_loop_sound n : forall k l l',
  lut_holds d l k -> Z.of_nat (k + n) < LUT_ABSENT ->
  (forall i j, (i < j)%nat -> (j < k)%nat -> lfsr_seq d i <> lfsr_seq d j) ->
  build_loop d n l (lfsr_seq d k) = Some l' ->
  lut_holds d l' (k + n) /\
  (forall i j, (i < j)%nat -> (j < k + n)%nat -> lfsr_seq d i <> lfsr_seq d j).
Proof.
  induction n as [|n IH]; intros k l l' Hl Hk Hd; cbn [build_loop].
  - intros [= <-]. rewrite Nat.add_0_r. auto.
  - destruct (Z.eqb_spec (lut_lookup l (lfsr_seq d k)) LUT_ABSENT) as [Hab|];
      [|discriminate]. cbn [negb].
    destruct (Z.eqb_spec (rev (fwd (lfsr_seq d k) d) d) (lfsr_seq d k));
      [|discriminate]. cbn [negb].
    change (fwd (lfsr_seq d k) d) with (lfsr_seq d (S k)). intros E.
    assert (Hfresh : forall i, (i < k)%nat -> lfsr_seq d i <> lfsr_seq d k)
      by (apply (lut_holds_present l k); [assumption|lia|assumption]).
    destruct (lut_holds_push d bits_range l k Hl Hfresh) as [_ Hl'].
    replace (k + S n)%nat with (S k + n)%nat by lia.
    apply (IH (S k) _ l' Hl'); [lia| |exact E].
    intros i j Hij Hj. destruct (Nat.eq_dec j k) as [->|];
      [now apply Hfresh | apply Hd; lia].
Qed.

Lemma lfsr_seq_set_lut l b i : lfsr_seq (set_lut d l b) i = lfsr_seq d i.
Proof. induction i as [|i IH]; cbn [lfsr_seq]; [reflexivity|now rewrite IH]. Qed.

Lemma build_lookup_holds r d' :
  lookup d = false -> 0 <= length d < 2 ^ 32 ->
  build_lookup true d = Some (r, d') ->
  lut_holds d' (lut d') (Z.to_nat (length d')).
Proof.
  intros Hl Hlen. unfold build_lookup. rewrite Hl. cbn [negb].
  destruct (build_loop d (Z.to_nat (length d)) lut_init (seed d)) as [l|] eqn:E;
    [|discriminate].
  intros [= <- <-]. cbn [lut length set_lut].
  destruct (build_loop_sound (Z.to_nat (length d)) 0 lut_init l) as [[Ha Hs] _].
  - apply lut_holds_init.
  - unfold LUT_ABSENT. cbn [Nat.add].
    assert (2 ^ 32 < 2 ^ 128 - 1) by (vm_compute; reflexivity). lia.
  - intros i j Hij Hj. lia.
  - exact E.
  - cbn [Nat.add] in Ha, Hs. split; [exact Ha|].
    intros y p. rewrite Hs.
    split; intros (i & Hi & Hy & Hp); exists i;
      rewrite lfsr_seq_set_lut in *; auto.
Qed.

Lemma build_lookup_sound_aux r d' :
  lookup d = false -> 0 <= length d < 2 ^ 32 ->
  build_lookup true d = Some (r, d') ->
  forall i j, (i < j)%nat -> Z.of_nat j < length d ->
              lfsr_seq d i <> lfsr_seq d j.
Proof.
  intros Hl Hlen. unfold build_lookup. rewrite Hl. cbn [negb].
  destruct (build_loop d (Z.to_nat (length d)) lut_init (seed d)) as [l|] eqn:E;
    [|discriminate].
  intros _.
  destruct (build_loop_sound (Z.to_nat (length d)) 0 lut_init l) as [Hh Hd].
  - apply lut_holds_init.
  - unfold LUT_ABSENT. cbn [Nat.add].
    assert (2 ^ 32 < 2 ^ 128 - 1) by (vm_compute; reflexivity). lia.
  - intros i j Hij Hj. lia.
  - exact E.
  - intros i j Hij Hj. apply Hd; cbn [Nat.add]; lia.
Qed.

(** X4.  Whenever [build_lookup] builds a table and returns, it returns 0,
    the definition is marked as built, no state of the sequence occurs
    twice within [length], and the table is the inverse of the sequence on
    [0, length): a state [x_i] is looked up as [i] and any other register
    value as absent. *)
Theorem build_lookup_sound r d' :
  lookup d = false -> 0 <= length d < 2 ^ 32 ->
  build_lookup true d = Some (r, d') ->
  r = 0 /\ lookup d' = true /\
  (forall i j, (i < j)%nat -> Z.of_nat j < length d ->
               lfsr_seq d i <> lfsr_seq d j) /\
  (forall i, Z.of_nat i < length d ->
             lut_lookup (lut d') (lfsr_seq d i) = Z.of_nat i) /\
  (forall y, (forall i, Z.of_nat i < length d -> lfsr_seq d i <> y) ->
             lut_lookup (lut d') y = LUT_ABSENT).
Proof.
  intros Hl Hlen. unfold build_lookup. rewrite Hl. cbn [negb].
  destruct (build_loop d (Z.to_nat (length d)) lut_init (seed d)) as [l|] eqn:E;
    [|discriminate].
  intros [= <- <-]. cbn [lookup lut set_lut].
  destruct (build_loop_sound (Z.to_nat (length d)) 0 lut_init l) as [Hh Hd].
  - apply lut_holds_init.
  - unfold LUT_ABSENT. cbn [Nat.add].
    assert (2 ^ 32 < 2 ^ 128 - 1) by (vm_compute; reflexivity). lia.
  - intros i j Hij Hj. lia.
  - exact E.
  - cbn [Nat.add] in Hh, Hd. repeat split.
    + intros i j Hij Hj. apply Hd; lia.
    + intros i Hi. apply (lut_holds_lookup d l _ i Hh). lia.
    + intros y Hy. apply (lut_holds_absent d l _ y Hh).
      intros i Hi. apply Hy. lia.
Qed.

End Build_sound.

Section Build_stops.
Variable d : timecode_def.
Hypothesis bits_range : 0 < bits d < 128.
Hypothesis seed_range : 0 <= seed d < 2 ^ bits d.

Lemma build_loop_stops_agree n : forall l x,
  build_loop d n l x = None <-> build_loop_stops d n l x <> None.
Proof.
  induction n as [|n IH]; intros l x; cbn [build_loop build_loop_stops].
  - split; [discriminate|congruence].
  - destruct (negb (lut_lookup l x =? LUT_ABSENT)); [split; congruence|].
    destruct (negb (rev (fwd x d) d =? x)); [split; congruence|]. apply IH.
Qed.

Lemma build_loop_stops_wrap n : forall k l,
  lut_holds d l k -> Z.of_nat (k + n) < LUT_ABSENT ->
  (forall i j, (i < j)%nat -> (j < k)%nat -> lfsr_seq d i <> lfsr_seq d j) ->
  (exists i j, (i < j)%nat /\ (j < k + n)%nat /\ lfsr_seq d i = lfsr_seq d j) ->
  build_loop_stops d n l (lfsr_seq d k) = Some stop_wrap.
Proof.
  induction n as [|n IH]; intros k l Hl Hk Hd (i & j & Hij & Hj & E).
  - elim (Hd i j); [assumption|lia|assumption].
  - cbn [build_loop_stops].
    destruct (Z.eqb_spec (lut_lookup l (lfsr_seq d k)) LUT_ABSENT) as [Hab|];
      [|reflexivity]. cbn [negb].
    rewrite rev_fwd_id, Z.eqb_refl
      by (try apply lfsr_seq_in_range; assumption).
    cbn [negb]. change (fwd (lfsr_seq d k) d) with (lfsr_seq d (S k)).
    assert (Hfresh : forall i, (i < k)%nat -> lfsr_seq d i <> lfsr_seq d k)
      by (apply (lut_holds_present d l k); [assumption|lia|assumption]).
    destruct (lut_holds_push d bits_range l k Hl Hfresh) as [_ Hl'].
    apply (IH (S k) _ Hl'); [lia| |].
    + intros i' j' Hij' Hj'. destruct (Nat.eq_dec j' k) as [->|];
        [now apply Hfresh | apply Hd; lia].
    + exists i, j. repeat split; auto; lia.
Qed.

(** X5.  A definition whose seed fits its register and whose sequence comes
    back to a state within [length] cannot be built: the symmetry of the
    two steps holds all along, and [build_lookup] stops on its assertion
    that the timecode must not wrap. *)
Theorem build_lookup_wrap i j :
  lookup d = false -> 0 <= length d < 2 ^ 32 ->
  (i < j)%nat -> Z.of_nat j < length d -> lfsr_seq d i = lfsr_seq d j ->
  build_lookup true d = None /\
  build_loop_stops d (Z.to_nat (length d)) lut_init (seed d) = Some stop_wrap.
Proof.
  intros Hl Hlen Hij Hj E.
  assert (Hs : build_loop_stops d (Z.to_nat (length d)) lut_init (lfsr_seq d 0)
               = Some stop_wrap).
  { apply build_loop_stops_wrap.
    - apply lut_holds_init.
    - unfold LUT_ABSENT. cbn [Nat.add].
      assert (2 ^ 32 < 2 ^ 128 - 1) by (vm_compute; reflexivity). lia.
    - intros i' j' _ Hj'. lia.
    - exists i, j. cbn [Nat.add]. repeat split; auto; lia. }
  cbn [lfsr_seq] in Hs. split; [|exact Hs].
  unfold build_lookup. rewrite Hl. cbn [negb].
  destruct (build_loop d (Z.to_nat (length d)) lut_init (seed d)) as [l|] eqn:Hb;
    [|reflexivity].
  assert (Hn : build_loop d (Z.to_nat (length d)) lut_init (seed d) = None)
    by (apply build_loop_stops_agree; rewrite Hs; discriminate).
  congruence.
Qed.
End Build_stops.

Lemma build_lookup_sound_witness :
  let d := entry "small" "small" 1000 0 4 5 1 2 2 in
  exists r d', build_lookup true d = Some (r, d') /\
  r = 0 /\ lookup d' = true /\
  (forall i j, (i < j)%nat -> Z.of_nat j < length d ->
               lfsr_seq d i <> lfsr_seq d j) /\
  (forall i, Z.of_nat i < length d ->
             lut_lookup (lut d') (lfsr_seq d i) = Z.of_nat i) /\
  (forall y, (forall i, Z.of_nat i < length d -> lfsr_seq d i <> y) ->
             lut_lookup (lut d') y = LUT_ABSENT).
Proof.
  intros d. eexists. eexists. split; [vm_compute; reflexivity|].
  apply (build_lookup_sound d); [cbn; lia|reflexivity|cbn; lia|vm_compute; reflexivity].
Defined.

Lemma build_lookup_wrap_witness :
  let d := entry "" "" 1000 0 4 1 1 5 5 in
  lfsr_seq d 0 = lfsr_seq d 4 /\
  build_lookup true d = None /\
  build_loop_stops d (Z.to_nat (length d)) lut_init (seed d) = Some stop_wrap.
Proof.
  intros d. split; [reflexivity|].
  apply (build_lookup_wrap d ltac:(cbn; lia) ltac:(cbn; lia) 0 4);
    [reflexivity|cbn; lia|lia|cbn; lia|vm_compute; reflexivity].
Defined.

(** A seed that does not fit the register is another matter: with four
    bits and the seed 16 the sequence 16, 8, 4, 2, 1, 8 comes back to 8,
    but the build stops before, at its first step, on the symmetry of the
    two steps ([rev] of 8 is 1). *)
Example build_lookup_asymmetric :
  let d := entry "" "" 1000 0 4 16 0 6 6 in
  map (lfsr_seq d) [0; 1; 2; 3; 4; 5]%nat = [16; 8; 4; 2; 1; 8] /\
  build_lookup true d = None /\
  build_loop_stops d (Z.to_nat (length d)) lut_init (seed d) = Some stop_symmetry.
Proof. vm_compute. repeat split. Qed.


Lemma ring_table_holds :
  lut_holds (nth 0 ring_table null_def) (lut (nth 0 ring_table null_def)) 8.
Proof.
  assert (E : build_lookup true ring_def = Some (0, nth 0 ring_table null_def))
    by (vm_compute; reflexivity).
  apply (build_lookup_holds ring_def) in E;
    [exact E|cbn; lia|reflexivity|cbn; lia].
Qed.

(** ** Finding a definition *)

Lemma build_lookup_result mem_ok d r d' :
  build_lookup mem_ok d = Some (r, d') ->
  (r = 0 /\ lookup d' = true /\ name d' = name d) \/
  (r = -1 /\ d' = d /\ lookup d = false /\ mem_ok = false).
Proof.
  unfold build_lookup. destruct (lookup d) eqn:El.
  - intros [= <- <-]. auto.
  - destruct mem_ok; cbn [negb].
    + destruct (build_loop _ _ _ _); [|discriminate].
      intros [= <- <-]. auto.
    + intros [= <- <-]. auto.
Qed.

Lemma build_lookup_built mem_ok d :
  lookup d = true -> build_lookup mem_ok d = Some (0, d).
Proof. intros H. unfold build_lookup. now rewrite H. Qed.

Lemma find_definition_loop_skip mem_ok nm pre : forall done todo,
  (forall x, In x pre -> name x <> nm) ->
  find_definition_loop mem_ok nm done (pre ++ todo)
  = find_definition_loop mem_ok nm (done ++ pre) todo.
Proof.
  induction pre as [|x pre IH]; intros done todo Hpre.
  - now rewrite app_nil_r.
  - cbn [app find_definition_loop].
    destruct (String.eqb_spec (name x) nm) as [E|_].
    + elim (Hpre x); [left; reflexivity|assumption].
    + cbn [negb]. rewrite IH by (intros y Hy; apply Hpre; now right).
      now rewrite <- app_assoc.
Qed.

Lemma find_definition_loop_found mem_ok nm todo : forall done tbl' i,
  find_definition_loop mem_ok nm done todo = Some (tbl', Some i) ->
  exists pre d d' rest,
    todo = pre ++ d :: rest /\ tbl' = done ++ pre ++ d' :: rest /\
    i = List.length (done ++ pre) /\
    (forall x, In x pre -> name x <> nm) /\ name d = nm /\
    build_lookup mem_ok d = Some (0, d').
Proof.
  induction todo as [|x todo IH]; intros done tbl' i; cbn [find_definition_loop].
  - discriminate.
  - destruct (String.eqb_spec (name x) nm) as [E|Hne]; cbn [negb].
    + destruct (build_lookup mem_ok x) as [[r x']|] eqn:Hb; [|discriminate].
      destruct (build_lookup_result _ _ _ _ Hb) as [(-> & _)|(-> & _)];
        cbn [Z.eqb Pos.eqb]; [|discriminate].
      intros [= <- <-]. exists [], x, x', todo.
      rewrite app_nil_r. cbn [app]. repeat split; auto.
    + intros H. apply IH in H.
      destruct H as (pre & d & d' & rest & -> & -> & -> & Hpre & Hn & Hb).
      exists (x :: pre), d, d', rest. rewrite <- !app_assoc. cbn [app].
      repeat split; auto. intros y [<-|Hy]; auto.
Qed.

Lemma find_definition_loop_failed mem_ok nm todo : forall done tbl',
  find_definition_loop mem_ok nm done todo = Some (tbl', None) ->
  tbl' = done ++ todo.
Proof.
  induction todo as [|x todo IH]; intros done tbl'; cbn [find_definition_loop].
  - intros [= <-]. now rewrite app_nil_r.
  - destruct (String.eqb_spec (name x) nm) as [E|Hne]; cbn [negb].
    + destruct (build_lookup mem_ok x) as [[r x']|] eqn:Hb; [|discriminate].
      destruct (build_lookup_result _ _ _ _ Hb) as [(-> & _)|(-> & -> & _)];
        cbn [Z.eqb Pos.eqb]; [discriminate|].
      now intros [= <-].
    + intros H. apply IH in H. now rewrite <- app_assoc in H.
Qed.

(** X6.  A name that no entry of the table bears is not found, and the
    table is left as it was. *)
Theorem find_definition_unknown mem_ok nm tbl :
  (forall d, In d tbl -> name d <> nm) ->
  timecoder_find_definition mem_ok nm tbl = Some (tbl, None).
Proof.
  intros H. unfold timecoder_find_definition.
  rewrite <- (app_nil_r tbl) at 1.
  rewrite find_definition_loop_skip by assumption. reflexivity.
Qed.

Lemma find_definition_unknown_witness :
  timecoder_find_definition true "serato_3a" timecodes = Some (timecodes, None).
Proof.
  apply (find_definition_unknown true "serato_3a" timecodes).
  intros d Hd. cbn in Hd.
  repeat (destruct Hd as [<-|Hd]; [discriminate|]). destruct Hd.
Defined.

(** X7.  When a definition is found, it is the first entry of that name;
    its lookup table is the one [build_lookup] leaves and it is marked as
    built; every other entry of the table is as before. *)
Theorem find_definition_found mem_ok nm tbl tbl' i :
  timecoder_find_definition mem_ok nm tbl = Some (tbl', Some i) ->
  (i < List.length tbl)%nat /\ List.length tbl' = List.length tbl /\
  name (nth i tbl null_def) = nm /\
  (forall j, (j < i)%nat -> name (nth j tbl null_def) <> nm) /\
  build_lookup mem_ok (nth i tbl null_def) = Some (0, nth i tbl' null_def) /\
  lookup (nth i tbl' null_def) = true /\
  (forall j, j <> i -> nth j tbl' null_def = nth j tbl null_def).
Proof.
  intros H. apply find_definition_loop_found in H.
  destruct H as (pre & d & d' & rest & -> & -> & -> & Hpre & Hn & Hb).
  cbn [app]. rewrite !length_app. cbn [List.length].
  rewrite !nth_middle.
  destruct (build_lookup_result _ _ _ _ Hb) as [(_ & Hl & _)|(? & _)]; [|lia].
  repeat split; auto; try lia.
  - intros j Hj. rewrite app_nth1 by assumption. apply Hpre, nth_In. assumption.
  - intros j Hj. destruct (Nat.lt_ge_cases j (List.length pre)).
    + now rewrite !app_nth1.
    + rewrite !app_nth2 by assumption.
      destruct (j - List.length pre)%nat as [|k] eqn:E; [lia|reflexivity].
Qed.

Lemma find_definition_found_witness :
  let tbl := [entry "a" "" 1000 0 4 5 1 2 2; entry "small" "" 1000 0 4 5 1 2 2;
              entry "small" "" 1000 0 4 5 1 3 3] in
  exists tbl',
  timecoder_find_definition true "small" tbl = Some (tbl', Some 1%nat) /\
  (1 < List.length tbl)%nat /\ List.length tbl' = List.length tbl /\
  name (nth 1 tbl null_def) = "small"%string /\
  (forall j, (j < 1)%nat -> name (nth j tbl null_def) <> "small"%string) /\
  build_lookup true (nth 1 tbl null_def) = Some (0, nth 1 tbl' null_def) /\
  lookup (nth 1 tbl' null_def) = true /\
  (forall j, j <> 1%nat -> nth j tbl' null_def = nth j tbl null_def).
Proof.
  intros tbl. eexists. split; [vm_compute; reflexivity|].
  apply (find_definition_found true "small" tbl). vm_compute. reflexivity.
Defined.

(** X8.  A search that fails, for want of the name or of memory, leaves
    the table as it was; one that succeeds can be repeated at no cost: the
    second search returns the same entry and the same table, whether
    memory is left or not. *)
Theorem find_definition_again mem_ok mem_ok' nm tbl tbl' r :
  timecoder_find_definition mem_ok nm tbl = Some (tbl', r) ->
  match r with
  | None => tbl' = tbl
  | Some i => timecoder_find_definition mem_ok' nm tbl' = Some (tbl', Some i)
  end.
Proof.
  destruct r as [i|]; intros H.
  - apply find_definition_loop_found in H.
    destruct H as (pre & d & d' & rest & -> & -> & -> & Hpre & Hn & Hb).
    destruct (build_lookup_result _ _ _ _ Hb) as [(_ & Hl & Hn')|(? & _)]; [|lia].
    unfold timecoder_find_definition. cbn [app].
    rewrite find_definition_loop_skip by assumption.
    cbn [find_definition_loop app].
    rewrite Hn', Hn, String.eqb_refl. cbn [negb].
    now rewrite (build_lookup_built _ _ Hl).
  - now apply find_definition_loop_failed in H.
Qed.

Lemma find_definition_again_witness :
  let tbl := [entry "a" "" 1000 0 4 5 1 2 2; entry "small" "" 1000 0 4 5 1 2 2] in
  exists tbl',
  timecoder_find_definition true "small" tbl = Some (tbl', Some 1%nat) /\
  timecoder_find_definition false "small" tbl' = Some (tbl', Some 1%nat).
Proof.
  intros tbl. eexists. split; [vm_compute; reflexivity|].
  apply (find_definition_again true false "small" tbl _ (Some 1%nat)).
  vm_compute. reflexivity.
Defined.

Lemma timecodes_names : List.NoDup (map name timecodes).
Proof.
  repeat (apply List.NoDup_cons;
          [cbn; intros H; repeat (destruct H as [H|H]; [discriminate H|]); exact H|]).
  apply List.NoDup_nil.
Qed.

(** X9.  Each of the twelve names of the catalogue is found, when memory is
    left: the search returns the entry of that name, built, with a table
    that gives every state of its sequence its position. *)
Theorem find_definition_catalogue d :
  In d timecodes ->
  exists tbl' i,
    timecoder_find_definition true (name d) timecodes = Some (tbl', Some i) /\
    nth i timecodes null_def = d /\
    lookup (nth i tbl' null_def) = true /\
    forall k, Z.of_nat k < length d ->
              lut_lookup (lut (nth i tbl' null_def)) (lfsr_seq d k) = Z.of_nat k.
Proof.
  intros Hd. destruct (build_lookup_catalogue_facts d Hd) as (l & Hb & Hl).
  destruct (in_split d timecodes Hd) as (pre & rest & E).
  pose proof timecodes_names as Hnd. rewrite E, map_app in Hnd. cbn [map] in Hnd.
  assert (Hpre : forall x, In x pre -> name x <> name d).
  { intros x Hx Hn. apply List.NoDup_remove_2 in Hnd. apply Hnd.
    apply in_or_app. left. rewrite <- Hn. now apply in_map. }
  exists (pre ++ set_lut d l true :: rest), (List.length pre).
  unfold timecoder_find_definition. rewrite E.
  rewrite find_definition_loop_skip by assumption.
  cbn [find_definition_loop app]. rewrite String.eqb_refl. cbn [negb].
  rewrite Hb. cbn [Z.eqb]. rewrite !nth_middle. auto.
Qed.

Lemma find_definition_catalogue_witness :
  let d := entry "serato_2a" "Serato 2nd Ed., side A"
      1000 0 20 0x59017 0x361e4 712000 707000 in
  exists tbl' i,
    timecoder_find_definition true (name d) timecodes = Some (tbl', Some i) /\
    nth i timecodes null_def = d /\
    lookup (nth i tbl' null_def) = true /\
    forall k, Z.of_nat k < length d ->
              lut_lookup (lut (nth i tbl' null_def)) (lfsr_seq d k) = Z.of_nat k.
Proof.
  intros d. apply (find_definition_catalogue d). left. reflexivity.
Defined.

(** ** Freeing the lookup tables *)

Lemma free_entry_facts d :
  name (free_entry d) = name d /\ lookup (free_entry d) = lookup d /\
  lut (free_entry d) = (if lookup d then lut_clear (lut d) else lut d) /\
  bits (free_entry d) = bits d /\ seed (free_entry d) = seed d /\
  taps (free_entry d) = taps d /\ length (free_entry d) = length d /\
  flags (free_entry d) = flags d /\ resolution (free_entry d) = resolution d.
Proof. unfold free_entry. destruct (lookup d) eqn:E; cbn; auto 10. Qed.

Lemma free_lookup_nth tbl i :
  nth i (timecoder_free_lookup tbl) null_def = free_entry (nth i tbl null_def).
Proof.
  unfold timecoder_free_lookup.
  change null_def with (free_entry null_def) at 1.
  apply (map_nth free_entry).
Qed.

(** [timecoder_free_lookup] clears the table of every built entry and
    of no other, and changes nothing else of an entry: in particular an
    entry stays marked as built. *)
Lemma free_lookup_entries tbl i :
  let d := nth i tbl null_def in
  let d' := nth i (timecoder_free_lookup tbl) null_def in
  List.length (timecoder_free_lookup tbl) = List.length tbl /\
  name d' = name d /\ lookup d' = lookup d /\
  lut d' = (if lookup d then lut_clear (lut d) else lut d) /\
  bits d' = bits d /\ seed d' = seed d /\ taps d' = taps d /\
  length d' = length d /\ flags d' = flags d /\ resolution d' = resolution d.
Proof.
  cbv zeta. rewrite free_lookup_nth. split; [|apply free_entry_facts].
  unfold timecoder_free_lookup. apply length_map.
Qed.

(** X10.  Once the tables are freed, a definition found before is found
    again without being rebuilt: the search returns the entry as freed,
    and the table as freed. *)
Theorem find_definition_after_free mem_ok mem_ok' nm tbl tbl' i :
  timecoder_find_definition mem_ok nm tbl = Some (tbl', Some i) ->
  timecoder_find_definition mem_ok' nm (timecoder_free_lookup tbl')
  = Some (timecoder_free_lookup tbl', Some i) /\
  lut (nth i (timecoder_free_lookup tbl') null_def)
  = lut_clear (lut (nth i tbl' null_def)).
Proof.
  intros H. apply find_definition_loop_found in H.
  destruct H as (pre & d & d' & rest & -> & -> & -> & Hpre & Hn & Hb).
  destruct (build_lookup_result _ _ _ _ Hb) as [(_ & Hl & Hn')|(? & _)]; [|lia].
  cbn [app]. split.
  - unfold timecoder_free_lookup at 1 2. rewrite !map_app. cbn [map].
    fold (free_entry d').
    unfold timecoder_find_definition.
    rewrite find_definition_loop_skip.
    + cbn [find_definition_loop app].
      destruct (free_entry_facts d') as (E1 & E2 & _).
      rewrite E1, Hn', Hn, String.eqb_refl. cbn [negb].
      rewrite build_lookup_built by congruence.
      cbn [Z.eqb]. now rewrite length_map.
    + intros x Hx. apply in_map_iff in Hx. destruct Hx as (y & <- & Hy).
      fold (free_entry y). destruct (free_entry_facts y) as (-> & _). auto.
  - rewrite free_lookup_nth, nth_middle.
    destruct (free_entry_facts d') as (_ & _ & -> & _). now rewrite Hl.
Qed.

Lemma find_definition_after_free_witness :
  let tbl := [entry "a" "" 1000 0 4 5 1 2 2; entry "small" "" 1000 0 4 5 1 2 2] in
  exists tbl',
  timecoder_find_definition true "small" tbl = Some (tbl', Some 1%nat) /\
  timecoder_find_definition true "small" (timecoder_free_lookup tbl')
  = Some (timecoder_free_lookup tbl', Some 1%nat) /\
  lut (nth 1 (timecoder_free_lookup tbl') null_def)
  = lut_clear (lut (nth 1 tbl' null_def)).
Proof.
  intros tbl. eexists. split; [vm_compute; reflexivity|].
  apply (find_definition_after_free true true "small" tbl). vm_compute. reflexivity.
Defined.

(** ** Starting a decoder *)

(** X11.  [timecoder_init] stops on an assertion when it is given no
    definition, or one whose lookup table is not built.  Otherwise the
    decoder starts forwards on that definition, with the reference level
    at [INT_MAX], empty registers, no monitor and the threshold
    [128 << 16] ([>> 5] for a phono input); it reports no position, and
    can be cleared at once. *)
Theorem timecoder_init_fresh tbl tc0 d sp rate phono when :
  match timecoder_init tbl tc0 d sp rate phono with
  | None => d = None \/ exists i, d = Some i /\ lookup (nth i tbl null_def) = false
  | Some tc =>
      d = Some (def tc) /\ lookup (tc_def tbl tc) = true /\
      forwards tc = true /\ ref_level tc = INT_MAX /\
      bitstream tc = 0 /\ timecode tc = 0 /\
      valid_counter tc = 0 /\ timecode_ticker tc = 0 /\ mon tc = None /\
      threshold tc = (if phono then 262144 else 8388608) /\
      positive (primary tc) = false /\ zero (primary tc) = 0 /\
      positive (secondary tc) = false /\ zero (secondary tc) = 0 /\
      timecoder_get_position tbl tc when = (-1, when, tc) /\
      timecoder_clear tc = Some tc
  end.
Proof.
  unfold timecoder_init. destruct d as [i|]; [|auto].
  destruct (lookup (nth i tbl null_def)) eqn:El; cbn [negb]; [|eauto].
  unfold tc_def, timecoder_get_position, timecoder_clear. fields.
  rewrite El. destruct phono; repeat split.
Qed.

(** ** The monitor *)

(** X12.  [timecoder_monitor_init] stops on an assertion exactly when the
    decoder has a monitor.  When it returns 0 the monitor is [size * size]
    black pixels; the decoder can then neither be cleared nor given
    another monitor until [timecoder_monitor_clear] has released this one.
    When it returns -1 there is no monitor, and nothing to release. *)
Theorem monitor_lifecycle malloc_ok malloc_ok' tc sz sz' :
  match timecoder_monitor_init malloc_ok tc sz with
  | None => mon tc <> None
  | Some (r, tc') =>
      mon tc = None /\ mon_size tc' = sz /\
      ((r = 0 /\ mon tc' = Some (repeat 0 (Z.to_nat (s32 (sz * sz)))) /\
        mon_counter tc' = 0 /\
        timecoder_clear tc' = None /\
        timecoder_monitor_init malloc_ok' tc' sz' = None /\
        exists tc'', timecoder_monitor_clear tc' = Some tc'' /\
                     mon tc'' = None /\ timecoder_clear tc'' = Some tc'') \/
       (r = -1 /\ mon tc' = None /\ timecoder_monitor_clear tc' = None /\
        timecoder_clear tc' = Some tc'))
  end.
Proof.
  unfold timecoder_monitor_init. destruct (mon tc) eqn:Em; [discriminate|].
  fields. destruct (malloc_ok && _).
  - split; [reflexivity|]. split; [reflexivity|]. left.
    unfold timecoder_clear, timecoder_monitor_clear, timecoder_monitor_init.
    fields. repeat split. eexists. repeat split.
  - split; [reflexivity|]. split; [reflexivity|]. right.
    unfold timecoder_clear, timecoder_monitor_clear. fields. rewrite Em. auto.
Qed.

(** ** Plotting *)

Lemma decay_pixel p :
  pixel p ->
  pixel (if p =? 0 then p else u8 (Z.quot (p * 7) 8)) /\
  (if p =? 0 then p else u8 (Z.quot (p * 7) 8)) <= p.
Proof.
  unfold pixel, u8. intros Hp. destruct (p =? 0); [lia|].
  assert (H : 0 <= Z.quot (p * 7) 8 <= p).
  { rewrite Z.quot_div_nonneg by lia.
    pose proof (Z.div_mod (p * 7) 8 ltac:(lia)).
    pose proof (Z.mod_pos_bound (p * 7) 8 ltac:(lia)). lia. }
  rewrite Z.mod_small by lia. lia.
Qed.

Lemma decay_buffer n (buf : list Z) :
  Forall pixel buf ->
  let buf' := map (fun p => if p =? 0 then p else u8 (Z.quot (p * 7) 8))
                (firstn n buf) ++ skipn n buf in
  List.length buf' = List.length buf /\ Forall pixel buf' /\
  forall i p p', buf !! i = Some p -> buf' !! i = Some p' -> p' <= p.
Proof.
  cbv zeta. intros H. revert n. induction H as [|q buf Hq Hbuf IH]; intros n.
  - rewrite firstn_nil, skipn_nil. cbn. repeat split; auto.
    intros i p p' H. destruct i; discriminate H.
  - destruct n as [|n].
    + cbn [firstn skipn map app]. repeat split; auto.
      intros i p p' H1 H2. rewrite H1 in H2. injection H2 as <-. lia.
    + cbn [firstn skipn map app]. destruct (IH n) as (H1 & H2 & H3).
      destruct (decay_pixel q Hq) as [D1 D2].
      split; [cbn [List.length]; now rewrite H1|].
      split; [now constructor|].
      intros [|i] p p'; cbn.
      * intros [= <-] [= <-]. exact D2.
      * apply H3.
Qed.

(** X13.  With a monitor of [size * size] pixels and a positive reference
    level, [update_monitor] returns; the monitor keeps its size, its
    pixels stay within a byte, and each of them is white or no brighter
    than before.  A sample whose point falls inside the square is plotted
    white at [py * size + px], which lies inside the buffer.  Nothing but
    the monitor and its counter changes. *)
Theorem update_monitor_plot tc x y buf :
  mon tc = Some buf -> 0 < ref_level tc ->
  0 <= mon_size tc -> mon_size tc * mon_size tc <= INT_MAX ->
  List.length buf = Z.to_nat (mon_size tc * mon_size tc) ->
  Forall pixel buf ->
  let sz := mon_size tc in
  let px := s32 (Z.quot sz 2 + Z.quot (Z.quot (x * sz) (ref_level tc)) 8) in
  let py := s32 (Z.quot sz 2 + Z.quot (Z.quot (y * sz) (ref_level tc)) 8) in
  exists tc' buf',
    update_monitor tc x y = Some tc' /\ mon tc' = Some buf' /\
    List.length buf' = List.length buf /\ Forall pixel buf' /\
    (forall i p p', buf !! i = Some p -> buf' !! i = Some p' ->
                    p' = 255 \/ p' <= p) /\
    (0 <= px < sz -> 0 <= py < sz ->
     0 <= py * sz + px < sz * sz /\
     buf' !! Z.to_nat (py * sz + px) = Some 255) /\
    tc' = set_mon (set_mon_counter tc (s32 (mon_counter tc + 1))) (Some buf').
Proof.
  intros Hm Hr Hs Hsq Hlen Hpix. cbv zeta.
  unfold update_monitor. rewrite Hm. fields.
  replace (0 <? ref_level tc) with true by (symmetry; apply Z.ltb_lt; lia).
  cbn [negb].
  set (sz := mon_size tc) in *.
  set (px := s32 (Z.quot sz 2 + Z.quot (Z.quot (x * sz) (ref_level tc)) 8)).
  set (py := s32 (Z.quot sz 2 + Z.quot (Z.quot (y * sz) (ref_level tc)) 8)).
  set (buf1 := if Z.rem _ _ =? 0 then _ else buf).
  assert (H1 : List.length buf1 = List.length buf /\ Forall pixel buf1 /\
               forall i p p', buf !! i = Some p -> buf1 !! i = Some p' -> p' <= p).
  { unfold buf1. destruct (Z.rem _ _ =? 0).
    - now apply decay_buffer.
    - repeat split; auto. intros i p p' E1 E2. rewrite E1 in E2.
      injection E2 as <-. lia. }
  destruct H1 as (L1 & P1 & D1).
  destruct ((px <? 0) || (sz <=? px) || (py <? 0) || (sz <=? py)) eqn:Eout.
  - exists (set_mon (set_mon_counter tc (s32 (mon_counter tc + 1))) (Some buf1)), buf1.
    fields. repeat split; auto.
    + intros i p p' E1 E2. right. eauto.
    + rewrite !orb_true_iff in Eout. lia.
    + rewrite !orb_true_iff in Eout. lia.
    + rewrite !orb_true_iff in Eout. exfalso. lia.
  - rewrite !orb_false_iff in Eout.
    assert (Hin : 0 <= px < sz /\ 0 <= py < sz) by lia.
    assert (Hidx : 0 <= py * sz + px < sz * sz) by nia.
    rewrite (s32_small (py * sz + px)) by (unfold INT_MAX in Hsq; lia).
    assert (Hlt : (Z.to_nat (py * sz + px) < List.length buf1)%nat) by lia.
    eexists. exists (<[Z.to_nat (py * sz + px) := 255]> buf1).
    split; [reflexivity|]. fields.
    split; [reflexivity|].
    split; [now rewrite length_insert|].
    split.
    { apply Forall_insert; [assumption|unfold pixel; lia]. }
    split.
    { intros i p p' E1 E2.
      destruct (Nat.eq_dec i (Z.to_nat (py * sz + px))) as [->|Hne].
      - rewrite list_lookup_insert_eq in E2 by assumption.
        injection E2 as <-. now left.
      - rewrite list_lookup_insert_ne in E2 by auto. right. eauto. }
    split; [|reflexivity].
    intros _ _. split; [assumption|].
    now apply list_lookup_insert_eq.
Qed.

Lemma update_monitor_plot_witness :
  let tc := set_ref_level (set_mon_size (set_mon blank_timecoder
              (Some [0; 200; 0; 7])) 2) 1000 in
  exists tc' buf',
    update_monitor tc 0 0 = Some tc' /\ mon tc' = Some buf' /\
    List.length buf' = 4%nat /\ Forall pixel buf' /\
    (forall i p p', [0; 200; 0; 7] !! i = Some p -> buf' !! i = Some p' ->
                    p' = 255 \/ p' <= p) /\
    buf' !! 3%nat = Some 255.
Proof.
  intros tc.
  destruct (update_monitor_plot tc 0 0 [0; 200; 0; 7])
    as (tc' & buf' & H1 & H2 & H3 & H4 & H5 & H6 & _);
    try (vm_compute; intuition congruence).
  { repeat constructor; unfold pixel; lia. }
  exists tc', buf'. repeat split; auto.
  destruct H6 as [_ H6]; [vm_compute; intuition congruence..|]. exact H6.
Defined.

(** ** Decoding a bit *)

Lemma process_bitstream_shifted wide_shl tbl tc m :
  let sh := shift_bit wide_shl tbl tc (Z.b2z (ref_level tc <? m)) in
  let tc' := process_bitstream wide_shl tbl tc m in
  valid_counter tc' =
    (if timecode sh =? bitstream sh then u32 (valid_counter tc + 1) else 0) /\
  bitstream tc' = bitstream sh /\ timecode tc' = bitstream sh /\
  timecode_ticker tc' = 0 /\ def tc' = def tc /\ forwards tc' = forwards tc /\
  dt tc' = dt tc.
Proof.
  cbv zeta.
  assert (Hs : exists tc0,
             process_bitstream wide_shl tbl tc m
             = track_envelope (set_timecode_ticker (score_validity
                 (shift_bit wide_shl tbl tc0 (Z.b2z (ref_level tc <? m)))) 0) m /\
             timecode (shift_bit wide_shl tbl tc0 (Z.b2z (ref_level tc <? m)))
             = timecode (shift_bit wide_shl tbl tc (Z.b2z (ref_level tc <? m))) /\
             bitstream (shift_bit wide_shl tbl tc0 (Z.b2z (ref_level tc <? m)))
             = bitstream (shift_bit wide_shl tbl tc (Z.b2z (ref_level tc <? m))) /\
             valid_counter tc0 = valid_counter tc /\ def tc0 = def tc /\
             forwards tc0 = forwards tc /\ dt tc0 = dt tc).
  { unfold process_bitstream. destruct (has_flag _ _).
    - exists (set_cbuf tc (cbuf_push (cbuf tc) m)). split; [reflexivity|].
      destruct (shift_bit_cbuf wide_shl tbl tc (cbuf_push (cbuf tc) m)
                  (Z.b2z (ref_level tc <? m))) as [-> ->].
      repeat split.
    - exists tc. repeat split. }
  destruct Hs as (tc0 & E & Et & Eb & Ev & Ed & Ef & Edt).
  rewrite <- Et, <- Eb, <- Ev, <- Ed, <- Ef, <- Edt, E.
  set (b := Z.b2z _).
  assert (Hsh : valid_counter (shift_bit wide_shl tbl tc0 b) = valid_counter tc0 /\
                def (shift_bit wide_shl tbl tc0 b) = def tc0 /\
                forwards (shift_bit wide_shl tbl tc0 b) = forwards tc0 /\
                dt (shift_bit wide_shl tbl tc0 b) = dt tc0)
    by (unfold shift_bit; destruct (forwards tc0) eqn:Ef0; repeat split; auto).
  destruct Hsh as (<- & <- & <- & <-).
  unfold track_envelope, score_validity. fields.
  destruct (timecode _ =? bitstream _) eqn:Eq; fields; repeat split.
  now apply Z.eqb_eq.
Qed.

Section Lock.
Variable wide_shl : Z -> Z.
Variable tbl : list timecode_def.
Variable tc : timecoder.
Variable m : Z.
Hypothesis bits_range : 0 < bits (tc_def tbl tc) < 128.
Hypothesis taps_nonneg : 0 <= taps (tc_def tbl tc).
Hypothesis fits : 0 <= bitstream tc < 2 ^ bits (tc_def tbl tc).
Hypothesis locked : timecode tc = bitstream tc.

Lemma shift_bit_predicted :
  forwards tc = true ->
  let b := Z.b2z (ref_level tc <? m) in
  let sh := shift_bit wide_shl tbl tc b in
  (timecode sh =? bitstream sh)
  = (b =? lfsr (bitstream tc) (Z.lor (taps (tc_def tbl tc)) 1)) /\
  timecode sh = fwd (bitstream tc) (tc_def tbl tc).
Proof.
  intros Hf. cbv zeta.
  destruct (shift_bit_forwards wide_shl tbl tc (Z.b2z (ref_level tc <? m)))
    as [Eb _]; try assumption.
  { destruct (ref_level tc <? m); auto. }
  rewrite Eb. unfold shift_bit at 1 2. rewrite Hf. fields. rewrite locked.
  split; [|reflexivity].
  rewrite fwd_eq, lfsr_parity by assumption.
  set (l := Zparity _). set (c := ref_level tc <? m).
  destruct (Bool.bool_dec c l) as [->|Hne].
  - now rewrite !Z.eqb_refl.
  - replace (Z.b2z c =? Z.b2z l) with false
      by (symmetry; apply Z.eqb_neq; destruct c, l; cbn; congruence).
    apply Z.eqb_neq. intros E.
    apply (f_equal (fun z => Z.testbit z (bits (tc_def tbl tc) - 1))) in E.
    rewrite !Z.lor_spec, !Z.shiftr_spec, !b2z_shiftl_bit in E by lia.
    replace (bits (tc_def tbl tc) - 1 + 1) with (bits (tc_def tbl tc)) in E by lia.
    rewrite (testbit_above (bitstream tc) (bits (tc_def tbl tc))) in E by lia.
    rewrite Z.eqb_refl, !andb_true_r in E. cbn [orb] in E. congruence.
Qed.

(** X14.  Forwards, on a decoder whose two registers agree, the bit read
    counts as valid exactly when it is the bit the shift register
    predicts, [lfsr(bitstream, taps | 1)]: then [valid_counter] goes up by
    one and the bitstream moves one step along the sequence; any other bit
    sets [valid_counter] back to 0. *)
Theorem process_bitstream_predicted :
  forwards tc = true ->
  let b := Z.b2z (ref_level tc <? m) in
  let l := lfsr (bitstream tc) (Z.lor (taps (tc_def tbl tc)) 1) in
  let tc' := process_bitstream wide_shl tbl tc m in
  valid_counter tc' = (if b =? l then u32 (valid_counter tc + 1) else 0) /\
  (b = l -> bitstream tc' = fwd (bitstream tc) (tc_def tbl tc)) /\
  timecode tc' = bitstream tc'.
Proof.
  intros Hf. cbv zeta.
  destruct (process_bitstream_shifted wide_shl tbl tc m)
    as (Hv & Hb & Ht & _).
  destruct (shift_bit_predicted Hf) as [Hp Hfw]. cbv zeta in Hp, Hfw.
  rewrite Hv, Hb, Ht, Hp. repeat split.
  intros E. apply Z.eqb_eq in E. rewrite E in Hp. apply Z.eqb_eq in Hp.
  now rewrite <- Hp.
Qed.

(** X15.  Forwards, the register keeps its width on every format: the bit
    read goes in at the top, [bitstream = (bitstream >> 1) | (b << (bits -
    1))], and the result has at most [bits] significant bits. *)
Theorem process_bitstream_forwards_width :
  forwards tc = true ->
  let b := Z.b2z (ref_level tc <? m) in
  let tc' := process_bitstream wide_shl tbl tc m in
  bitstream tc' =
    Z.lor (Z.shiftr (bitstream tc) 1) (Z.shiftl b (bits (tc_def tbl tc) - 1)) /\
  0 <= bitstream tc' < 2 ^ bits (tc_def tbl tc').
Proof.
  intros Hf. cbv zeta.
  destruct (process_bitstream_shifted wide_shl tbl tc m)
    as (_ & Hb & _ & _ & Hd & _).
  assert (Ed : tc_def tbl (process_bitstream wide_shl tbl tc m) = tc_def tbl tc)
    by (unfold tc_def; now rewrite Hd).
  rewrite Ed, Hb.
  apply shift_bit_forwards; try assumption.
  destruct (ref_level tc <? m); auto.
Qed.

Lemma shift_bit_reverse_predicted :
  forwards tc = false -> bits (tc_def tbl tc) < 31 ->
  let b := Z.b2z (ref_level tc <? m) in
  let sh := shift_bit wide_shl tbl tc b in
  (timecode sh =? bitstream sh)
  = (b =? lfsr (bitstream tc)
            (Z.lor (Z.shiftr (taps (tc_def tbl tc)) 1)
               (u128 (Z.shiftl 1 (u128 (bits (tc_def tbl tc) - 1)))))) /\
  timecode sh = rev (bitstream tc) (tc_def tbl tc) /\
  bitstream sh =
    Z.lor (Z.land (Z.shiftl (bitstream tc) 1)
             (Z.shiftl 1 (bits (tc_def tbl tc)) - 1)) b /\
  0 <= bitstream sh < 2 ^ bits (tc_def tbl tc).
Proof.
  intros Hf Hn. cbv zeta.
  destruct (shift_bit_reverse_narrow wide_shl tbl tc (Z.b2z (ref_level tc <? m)))
    as [Eb Hw]; try assumption; try lia.
  { destruct (ref_level tc <? m); auto. }
  split; [|split; [|split; assumption]].
  2:{ unfold shift_bit. rewrite Hf. fields. now rewrite locked. }
  rewrite Eb. unfold shift_bit at 1. rewrite Hf. fields. rewrite locked.
  unfold rev. cbv zeta. rewrite mask_ones by assumption.
  rewrite Z.shiftl_1_l.
  replace (2 ^ bits (tc_def tbl tc) - 1) with (Z.ones (bits (tc_def tbl tc)))
    by (rewrite Z.ones_equiv; lia).
  rewrite lfsr_parity. set (l := Zparity _). set (c := ref_level tc <? m).
  replace (Z.land (u128 (Z.shiftl (bitstream tc) 1)) (Z.ones (bits (tc_def tbl tc))))
    with (Z.land (Z.shiftl (bitstream tc) 1) (Z.ones (bits (tc_def tbl tc))))
    by (unfold u128; bitblast_eqb).
  destruct (Bool.bool_dec c l) as [->|Hne].
  - now rewrite !Z.eqb_refl.
  - replace (Z.b2z c =? Z.b2z l) with false
      by (symmetry; apply Z.eqb_neq; destruct c, l; cbn; congruence).
    apply Z.eqb_neq. intros E.
    apply (f_equal (fun z => Z.testbit z 0)) in E.
    rewrite !Z.lor_spec, !Z.land_spec, !Z.shiftl_spec, !Z.testbit_neg_r in E by lia.
    cbn [andb orb] in E. rewrite !Z.bit0_odd in E.
    destruct c, l; cbn in E; congruence.
Qed.

(** X16.  In reverse, on a format of fewer than 31 bits and a decoder
    whose two registers agree, the bit read goes in at the bottom,
    [bitstream = ((bitstream << 1) & mask) | b] with
    [mask = (1 << bits) - 1], and the register keeps its width; the bit
    counts as valid exactly when it is the one [rev] predicts, and the
    bitstream then moves one step back along the sequence. *)
Theorem process_bitstream_reverse_narrow :
  forwards tc = false -> bits (tc_def tbl tc) < 31 ->
  let d := tc_def tbl tc in
  let b := Z.b2z (ref_level tc <? m) in
  let l := lfsr (bitstream tc)
             (Z.lor (Z.shiftr (taps d) 1) (u128 (Z.shiftl 1 (u128 (bits d - 1))))) in
  let tc' := process_bitstream wide_shl tbl tc m in
  bitstream tc' =
    Z.lor (Z.land (Z.shiftl (bitstream tc) 1) (Z.shiftl 1 (bits d) - 1)) b /\
  0 <= bitstream tc' < 2 ^ bits d /\
  valid_counter tc' = (if b =? l then u32 (valid_counter tc + 1) else 0) /\
  (b = l -> bitstream tc' = rev (bitstream tc) d).
Proof.
  intros Hf Hn. cbv zeta.
  destruct (process_bitstream_shifted wide_shl tbl tc m)
    as (Hv & Hb & Ht & _).
  destruct (shift_bit_reverse_predicted Hf Hn) as (Hp & Hr & He & Hw).
  cbv zeta in Hp, Hr, He, Hw.
  rewrite Hv, Hb, Hp. repeat split; try assumption; try apply Hw.
  intros E. apply Z.eqb_eq in E. rewrite E in Hp. apply Z.eqb_eq in Hp.
  now rewrite <- Hp.
Qed.


End Lock.

Lemma quot48_between r m :
  0 <= r -> 0 <= m ->
  Z.min r m <= r - Z.quot r 48 + Z.quot m 48 <= Z.max r m.
Proof.
  intros Hr Hm. rewrite !Z.quot_div_nonneg by lia.
  pose proof (Z.div_mod r 48) as Dr. pose proof (Z.mod_pos_bound r 48) as Br.
  pose proof (Z.div_mod m 48) as Dm. pose proof (Z.mod_pos_bound m 48) as Bm.
  lia.
Qed.

(** X19.  The reference level follows the peaks without overshooting: after
    a peak [m] it lies between its former value and [m], and stays at
    least 1. *)
Theorem ref_level_follows wide_shl tbl tc m :
  1 <= ref_level tc <= INT_MAX -> 0 <= m <= INT_MAX ->
  let r' := ref_level (process_bitstream wide_shl tbl tc m) in
  Z.min (ref_level tc) m <= r' <= Z.max (ref_level tc) m /\ 1 <= r'.
Proof.
  intros Hr Hm. cbv zeta. rewrite process_bitstream_level.
  destruct (envelope_step _ _ Hr Hm) as [-> Hb].
  split; [apply quot48_between; lia|lia].
Qed.

Lemma ref_level_follows_witness :
  let tc := set_ref_level blank_timecoder 1000 in
  let r' := ref_level (process_bitstream x86_shl small_table tc 5000) in
  Z.min 1000 5000 <= r' <= Z.max 1000 5000 /\ 1 <= r'.
Proof.
  intros tc. apply (ref_level_follows x86_shl small_table tc 5000);
    vm_compute; intuition congruence.
Defined.


Lemma process_bitstream_predicted_witness :
  let tc := ring_decoder in
  let b := Z.b2z (ref_level tc <? 20) in
  let l := lfsr (bitstream tc) (Z.lor (taps (tc_def ring_table tc)) 1) in
  let tc' := process_bitstream x86_shl ring_table tc 20 in
  (b, l) = (1, 1) /\
  valid_counter tc' = (if b =? l then u32 (valid_counter tc + 1) else 0) /\
  (b = l -> bitstream tc' = fwd (bitstream tc) (tc_def ring_table tc)) /\
  timecode tc' = bitstream tc'.
Proof.
  intros tc b l tc'. split; [vm_compute; reflexivity|].
  apply (process_bitstream_predicted x86_shl ring_table tc 20);
    vm_compute; intuition congruence.
Defined.

Lemma process_bitstream_forwards_width_witness :
  let tc := ring_decoder in
  let b := Z.b2z (ref_level tc <? 20) in
  let tc' := process_bitstream x86_shl ring_table tc 20 in
  bitstream tc' =
    Z.lor (Z.shiftr (bitstream tc) 1)
      (Z.shiftl b (bits (tc_def ring_table tc) - 1)) /\
  0 <= bitstream tc' < 2 ^ bits (tc_def ring_table tc').
Proof.
  intros tc b tc'.
  apply (process_bitstream_forwards_width x86_shl ring_table tc 20);
    vm_compute; intuition congruence.
Defined.

Lemma process_bitstream_reverse_narrow_witness :
  let tc := ring_decoder_reverse in
  let d := tc_def ring_table tc in
  let b := Z.b2z (ref_level tc <? 20) in
  let l := lfsr (bitstream tc)
             (Z.lor (Z.shiftr (taps d) 1) (u128 (Z.shiftl 1 (u128 (bits d - 1))))) in
  let tc' := process_bitstream x86_shl ring_table tc 20 in
  (b, l, bitstream tc') = (1, 1, 1) /\
  bitstream tc' =
    Z.lor (Z.land (Z.shiftl (bitstream tc) 1) (Z.shiftl 1 (bits d) - 1)) b /\
  0 <= bitstream tc' < 2 ^ bits d /\
  valid_counter tc' = (if b =? l then u32 (valid_counter tc + 1) else 0) /\
  (b = l -> bitstream tc' = rev (bitstream tc) d).
Proof.
  intros tc d b l tc'. split; [vm_compute; reflexivity|].
  apply (process_bitstream_reverse_narrow x86_shl ring_table tc 20);
    vm_compute; intuition congruence.
Defined.




(** ** Blocks of samples *)

Lemma process_bitstream_settings wide_shl tbl tc m :
  settings (process_bitstream wide_shl tbl tc m) = settings tc /\
  mon (process_bitstream wide_shl tbl tc m) = mon tc /\
  primary (process_bitstream wide_shl tbl tc m) = primary tc /\
  secondary (process_bitstream wide_shl tbl tc m) = secondary tc /\
  pitch (process_bitstream wide_shl tbl tc m) = pitch tc.
Proof.
  unfold process_bitstream, track_envelope, score_validity, shift_bit, settings.
  destruct (has_flag _ _); fields;
    change (tc_def tbl (set_cbuf tc (cbuf_push (cbuf tc) m))) with (tc_def tbl tc);
    destruct (forwards tc); fields; destruct (_ =? _); repeat split.
Qed.

Lemma process_sample_settings wide_shl tbl fs tc p s :
  settings (snd (process_sample wide_shl tbl fs tc p s)) = settings tc /\
  mon (snd (process_sample wide_shl tbl fs tc p s)) = mon tc.
Proof.
  unfold process_sample.
  assert (H1 : settings (snd (track_channels tbl fs tc p s)) = settings tc /\
               mon (snd (track_channels tbl fs tc p s)) = mon tc).
  { unfold track_channels. destruct (has_flag _ _).
    - destruct (ema p _ _), (ema s _ _).
      destruct (discrete_derivative z _), (discrete_derivative z1 _). split; reflexivity.
    - split; reflexivity. }
  destruct (track_channels tbl fs tc p s) as [fs1 tc1]. cbn [snd] in *.
  destruct H1 as [<- <-].
  assert (H2 : settings (infer_direction tbl tc1) = settings tc1 /\
               mon (infer_direction tbl tc1) = mon tc1).
  { unfold infer_direction. destruct (_ || _); [|auto]. destruct (negb _); auto. }
  destruct H2 as [<- <-]. set (tc2 := infer_direction tbl tc1).
  assert (H3 : settings (observe_pitch tbl tc2) = settings tc2 /\
               mon (observe_pitch tbl tc2) = mon tc2).
  { unfold observe_pitch. destruct (_ && _); auto. }
  destruct H3 as [<- <-]. set (tc3 := observe_pitch tbl tc2).
  assert (H4 : settings (read_bit wide_shl tbl tc3 p) = settings tc3 /\
               mon (read_bit wide_shl tbl tc3 p) = mon tc3).
  { unfold read_bit. destruct (_ && _); [|auto].
    destruct (process_bitstream_settings wide_shl tbl tc3
                (s32 (Z.abs (s32 (Z.quot p 2 - Z.quot (zero (primary tc3)) 2)))))
      as (? & ? & _). auto. }
  destruct H4 as [<- <-]. split; reflexivity.
Qed.

Lemma decay_length n (buf : list Z) :
  List.length (map (fun p => if p =? 0 then p else u8 (Z.quot (p * 7) 8))
                 (firstn n buf) ++ skipn n buf) = List.length buf.
Proof.
  rewrite length_app, length_map, <- length_app, firstn_skipn. reflexivity.
Qed.

Lemma update_monitor_settings tc x y tc' :
  update_monitor tc x y = Some tc' ->
  settings tc' = settings tc /\ monitor_pixels tc' = monitor_pixels tc /\
  valid_counter tc' = valid_counter tc /\ bitstream tc' = bitstream tc /\
  cbuf tc' = cbuf tc /\ forwards tc' = forwards tc /\
  timecode_ticker tc' = timecode_ticker tc.
Proof.
  unfold update_monitor, monitor_pixels. destruct (mon tc) as [buf|] eqn:Em.
  - fields. destruct (negb _); [discriminate|].
    set (buf1 := if Z.rem _ _ =? 0 then _ else buf).
    assert (L : List.length buf1 = List.length buf)
      by (unfold buf1; destruct (_ =? 0); [apply decay_length|reflexivity]).
    destruct (_ || _); intros [= <-]; fields; rewrite ?length_insert, L;
      repeat split.
  - intros [= <-]. rewrite Em. repeat split.
Qed.

Lemma u32_step v : 0 <= v -> 0 <= u32 (v + 1) <= v + 1.
Proof.
  intros Hv. unfold u32.
  pose proof (Z.mod_pos_bound (v + 1) (2 ^ 32) ltac:(lia)).
  pose proof (Z.mod_le (v + 1) (2 ^ 32) ltac:(lia) ltac:(lia)). lia.
Qed.

Lemma settings_def tc tc' : settings tc' = settings tc -> def tc' = def tc.
Proof. unfold settings. now intros [= -> _ _ _ _ _]. Qed.

Lemma process_sample_counter wide_shl tbl fs tc p s :
  0 <= valid_counter tc ->
  0 <= valid_counter (snd (process_sample wide_shl tbl fs tc p s))
    <= valid_counter tc + 1.
Proof.
  intros Hv. unfold process_sample.
  destruct (track_channels_frame tbl fs tc p s) as (_ & _ & E1 & _).
  cbv zeta in E1.
  destruct (track_channels tbl fs tc p s) as [fs1 tc1]. cbn [snd] in *.
  fields. rewrite <- E1 in *. clear E1.
  assert (H2 : 0 <= valid_counter (infer_direction tbl tc1) <= valid_counter tc1).
  { unfold infer_direction. destruct (_ || _); [|lia].
    destruct (negb _); fields; lia. }
  set (tc2 := infer_direction tbl tc1) in *.
  destruct (observe_pitch_frame tbl tc2) as (_ & _ & E3 & _).
  rewrite <- E3 in H2. set (tc3 := observe_pitch tbl tc2) in *.
  unfold read_bit. destruct (_ && _); [|lia].
  set (m := s32 _).
  destruct (process_bitstream_shifted wide_shl tbl tc3 m) as (-> & _).
  pose proof (u32_step (valid_counter tc3)).
  destruct (_ =? _); lia.
Qed.

Lemma process_sample_plain wide_shl tbl fs tc p s :
  has_flag (flags (tc_def tbl tc)) OFFSET_MODULATION = false ->
  fst (process_sample wide_shl tbl fs tc p s) = fs /\
  cbuf (snd (process_sample wide_shl tbl fs tc p s)) = cbuf tc.
Proof.
  intros Hfl. unfold process_sample, track_channels. rewrite Hfl.
  set (tc1 := set_secondary _ _).
  assert (D1 : def tc1 = def tc) by reflexivity.
  assert (C1 : cbuf tc1 = cbuf tc) by reflexivity.
  clearbody tc1.
  assert (H2 : def (infer_direction tbl tc1) = def tc1 /\
               cbuf (infer_direction tbl tc1) = cbuf tc1).
  { unfold infer_direction. destruct (_ || _); [|auto]. destruct (negb _); auto. }
  set (tc2 := infer_direction tbl tc1) in *.
  assert (H3 : def (observe_pitch tbl tc2) = def tc2 /\
               cbuf (observe_pitch tbl tc2) = cbuf tc2).
  { unfold observe_pitch. destruct (_ && _); auto. }
  set (tc3 := observe_pitch tbl tc2) in *.
  assert (Hfl3 : has_flag (flags (tc_def tbl tc3)) OFFSET_MODULATION = false).
  { unfold tc_def in *. destruct H2 as [E2 _], H3 as [E3 _].
    now rewrite E3, E2, D1. }
  cbn [fst snd]. split; [reflexivity|]. fields.
  unfold read_bit. destruct (_ && _).
  - unfold process_bitstream. rewrite Hfl3.
    unfold track_envelope, score_validity, shift_bit. fields.
    destruct (forwards tc3); fields; destruct (_ =? _); fields;
      destruct H2 as [_ E2], H3 as [_ E3]; congruence.
  - destruct H2 as [_ E2], H3 as [_ E3]; congruence.
Qed.

Lemma submit_frame_facts wide_shl tbl fs tc frame fs' tc' :
  submit_frame wide_shl tbl (fs, tc) frame = Some (fs', tc') ->
  settings tc' = settings tc /\ monitor_pixels tc' = monitor_pixels tc /\
  (0 <= valid_counter tc -> 0 <= valid_counter tc' <= valid_counter tc + 1) /\
  (has_flag (flags (tc_def tbl tc)) OFFSET_MODULATION = false ->
   fs' = fs /\ cbuf tc' = cbuf tc).
Proof.
  unfold submit_frame.
  set (p := if has_flag _ SWITCH_PRIMARY then _ else _).
  set (s := if has_flag _ SWITCH_PRIMARY then _ else _).
  destruct (process_sample_settings wide_shl tbl fs tc p s) as [S1 M1].
  pose proof (process_sample_counter wide_shl tbl fs tc p s) as V1.
  pose proof (process_sample_plain wide_shl tbl fs tc p s) as P1.
  destruct (process_sample wide_shl tbl fs tc p s) as [fs1 tc1].
  cbn [fst snd] in *.
  assert (Ed : tc_def tbl tc1 = tc_def tbl tc)
    by (unfold tc_def; now rewrite (settings_def _ _ S1)).
  rewrite Ed.
  assert (Mp : monitor_pixels tc1 = monitor_pixels tc)
    by (unfold monitor_pixels; now rewrite M1).
  destruct (has_flag (flags (tc_def tbl tc)) OFFSET_MODULATION) eqn:Efl.
  - destruct (discrete_derivative _ _), (discrete_derivative _ _).
    destruct (update_monitor tc1 _ _) as [tc2|] eqn:E; [|discriminate].
    intros [= <- <-].
    destruct (update_monitor_settings _ _ _ _ E) as (S2 & M2 & V2 & _).
    rewrite S2, M2, V2. repeat split; auto; try discriminate; apply V1; assumption.
  - destruct (update_monitor tc1 _ _) as [tc2|] eqn:E; [|discriminate].
    intros [= <- <-].
    destruct (update_monitor_settings _ _ _ _ E) as (S2 & M2 & V2 & _ & C2 & _).
    rewrite S2, M2, V2, C2. destruct (P1 eq_refl) as [-> ->].
    repeat split; auto; apply V1; assumption.
Qed.

(** A block decoded in two parts is decoded as the whole block: the
    decoder and the filters after [timecoder_submit] on [a ++ b] are those
    after [timecoder_submit] on [a], then on [b]; and an empty block
    changes nothing. *)
Lemma timecoder_submit_app wide_shl tbl a b st :
  timecoder_submit wide_shl tbl st [] = Some st /\
  timecoder_submit wide_shl tbl st (a ++ b)
  = match timecoder_submit wide_shl tbl st a with
    | None => None
    | Some st' => timecoder_submit wide_shl tbl st' b
    end.
Proof.
  split; [reflexivity|]. revert st.
  induction a as [|frame a IH]; intros st; cbn [app timecoder_submit].
  - reflexivity.
  - destruct (submit_frame wide_shl tbl st frame); [apply IH|reflexivity].
Qed.

Lemma timecoder_submit_facts wide_shl tbl pcm : forall fs tc fs' tc',
  timecoder_submit wide_shl tbl (fs, tc) pcm = Some (fs', tc') ->
  settings tc' = settings tc /\ monitor_pixels tc' = monitor_pixels tc /\
  (0 <= valid_counter tc ->
   0 <= valid_counter tc' <= valid_counter tc + Z.of_nat (List.length pcm)) /\
  (has_flag (flags (tc_def tbl tc)) OFFSET_MODULATION = false ->
   fs' = fs /\ cbuf tc' = cbuf tc).
Proof.
  induction pcm as [|frame rest IH]; intros fs tc fs' tc'; cbn [timecoder_submit].
  - intros [= <- <-]. repeat split; auto; cbn; lia.
  - destruct (submit_frame wide_shl tbl (fs, tc) frame) as [[fs1 tc1]|] eqn:E;
      [|discriminate].
    intros H. apply IH in H. destruct H as (S2 & M2 & V2 & P2).
    destruct (submit_frame_facts _ _ _ _ _ _ _ E) as (S1 & M1 & V1 & P1).
    assert (Ed : tc_def tbl tc1 = tc_def tbl tc)
      by (unfold tc_def; now rewrite (settings_def _ _ S1)).
    rewrite Ed in P2.
    split; [congruence|]. split; [congruence|]. split.
    + intros Hv. specialize (V1 Hv). specialize (V2 ltac:(lia)).
      cbn [List.length]. lia.
    + intros Hfl. destruct (P1 Hfl) as [<- <-]. auto.
Qed.

(** X20.  [timecoder_submit] never changes the definition, the speed, the
    sample period, the filter constant, the threshold or the size of the
    monitor, and neither makes nor frees a monitor: the monitor has as
    many pixels after the block as before. *)
Theorem timecoder_submit_settings wide_shl tbl pcm fs tc fs' tc' :
  timecoder_submit wide_shl tbl (fs, tc) pcm = Some (fs', tc') ->
  def tc' = def tc /\ speed tc' = speed tc /\ dt tc' = dt tc /\
  zero_alpha tc' = zero_alpha tc /\ threshold tc' = threshold tc /\
  mon_size tc' = mon_size tc /\
  match mon tc, mon tc' with
  | None, None => True
  | Some buf, Some buf' => List.length buf' = List.length buf
  | _, _ => False
  end.
Proof.
  intros H. apply timecoder_submit_facts in H. destruct H as (S & M & _).
  unfold settings in S. injection S as -> -> -> -> -> ->.
  unfold monitor_pixels in M.
  destruct (mon tc), (mon tc'); try discriminate; repeat split.
  now injection M.
Qed.

(** X21.  Each frame adds at most one to [valid_counter], so a position is
    reported only after more than [VALID_BITS] frames: as long as
    [valid_counter] before the block plus the number of frames is at most
    24, [timecoder_get_position] returns -1 after it. *)
Theorem timecoder_submit_unsure wide_shl tbl pcm fs tc fs' tc' when :
  timecoder_submit wide_shl tbl (fs, tc) pcm = Some (fs', tc') ->
  0 <= valid_counter tc ->
  0 <= valid_counter tc' <= valid_counter tc + Z.of_nat (List.length pcm) /\
  (valid_counter tc + Z.of_nat (List.length pcm) <= VALID_BITS ->
   timecoder_get_position tbl tc' when = (-1, when, tc')).
Proof.
  intros H Hv. apply timecoder_submit_facts in H. destruct H as (_ & _ & V & _).
  specialize (V Hv). split; [exact V|]. intros Hn.
  unfold timecoder_get_position.
  replace (valid_counter tc' <=? VALID_BITS) with true
    by (symmetry; apply Z.leb_le; lia).
  reflexivity.
Qed.

(** X22.  On a timecode without offset modulation, [timecoder_submit]
    leaves the process-wide filter state and the circular buffer of the
    decoder untouched. *)
Theorem timecoder_submit_plain wide_shl tbl pcm fs tc fs' tc' :
  timecoder_submit wide_shl tbl (fs, tc) pcm = Some (fs', tc') ->
  has_flag (flags (tc_def tbl tc)) OFFSET_MODULATION = false ->
  fs' = fs /\ cbuf tc' = cbuf tc.
Proof.
  intros H Hfl. apply timecoder_submit_facts in H.
  destruct H as (_ & _ & _ & P). exact (P Hfl).
Qed.

(** ** The next definition *)

Lemma next_definition_loop_first tbl fuel : forall i,
  match next_definition_loop tbl fuel i with
  | Some j =>
      exists k, (1 <= k <= fuel)%nat /\ j = Nat.iter k (next_index tbl) i /\
                lookup (nth j tbl null_def) = true /\
                forall k', (1 <= k' < k)%nat ->
                  lookup (nth (Nat.iter k' (next_index tbl) i) tbl null_def) = false
  | None =>
      forall k, (1 <= k <= fuel)%nat ->
                lookup (nth (Nat.iter k (next_index tbl) i) tbl null_def) = false
  end.
Proof.
  induction fuel as [|fuel IH]; intros i; cbn [next_definition_loop].
  - intros k Hk. lia.
  - destruct (lookup (nth (next_index tbl i) tbl null_def)) eqn:E; cbn [negb].
    + exists 1%nat. repeat split; auto; try lia.
    + specialize (IH (next_index tbl i)).
      destruct (next_definition_loop tbl fuel (next_index tbl i)) as [j|].
      * destruct IH as (k & Hk & -> & Hl & Hfirst).
        exists (S k). rewrite Nat.iter_succ_r. repeat split; auto; try lia.
        intros [|k'] Hk'; [lia|]. rewrite Nat.iter_succ_r.
        destruct k' as [|k'']; [exact E|]. apply Hfirst. lia.
      * intros [|k] Hk; [lia|]. rewrite Nat.iter_succ_r.
        destruct k as [|k']; [exact E|]. apply IH. lia.
Qed.

(** X23.  From an entry of the table [next_definition] returns the first
    built entry after it, going round the table, which is the entry itself
    when no other is built; when no entry at all is built its loop never
    ends. *)
Theorem next_definition_first tbl i :
  (i < List.length tbl)%nat ->
  let n := List.length tbl in
  match next_definition tbl i with
  | Some j =>
      exists k, (1 <= k <= n)%nat /\ j = ((i + k) mod n)%nat /\
                lookup (nth j tbl null_def) = true /\
                forall k', (1 <= k' < k)%nat ->
                  lookup (nth ((i + k') mod n)%nat tbl null_def) = false
  | None => forall j, lookup (nth j tbl null_def) = false
  end.
Proof.
  intros Hi n. unfold next_definition.
  pose proof (next_definition_loop_first tbl (List.length tbl) i) as H.
  destruct (next_definition_loop tbl (List.length tbl) i) as [j|].
  - destruct H as (k & Hk & -> & Hl & Hfirst).
    exists k.
    split; [exact Hk|]. split; [now apply next_index_iter|].
    split; [exact Hl|]. intros k' Hk'. unfold n.
    rewrite <- (next_index_iter tbl i k') by assumption. now apply Hfirst.
  - intros j. destruct (Nat.lt_ge_cases j n) as [Hj|Hj].
    + fold n in H.
      assert (Hk : exists k, (1 <= k <= n)%nat /\ ((i + k) mod n)%nat = j).
      { destruct (Nat.lt_ge_cases i j).
        - exists (j - i)%nat. split; [lia|].
          replace (i + (j - i))%nat with j by lia. now apply Nat.mod_small.
        - exists (n + j - i)%nat. split; [lia|].
          replace (i + (n + j - i))%nat with (j + 1 * n)%nat by lia.
          rewrite Nat.Div0.mod_add. now apply Nat.mod_small. }
      destruct Hk as (k & Hk & <-). unfold n.
      rewrite <- (next_index_iter tbl i k) by assumption. now apply H.
    + now rewrite nth_overflow by assumption.
Qed.

Lemma next_definition_first_witness :
  let tbl := [set_lut null_def lut_init true; null_def; null_def;
              set_lut null_def lut_init true; null_def] in
  next_definition tbl 3 = Some 0%nat /\
  match next_definition tbl 3 with
  | Some j =>
      exists k, (1 <= k <= 5)%nat /\ j = ((3 + k) mod 5)%nat /\
                lookup (nth j tbl null_def) = true /\
                forall k', (1 <= k' < k)%nat ->
                  lookup (nth ((3 + k') mod 5)%nat tbl null_def) = false
  | None => forall j, lookup (nth j tbl null_def) = false
  end.
Proof.
  intros tbl. split; [reflexivity|].
  apply (next_definition_first tbl 3). cbn. lia.
Defined.

(** X24.  [timecoder_cycle_definition] moves the decoder to a built
    definition and forgets the position: [valid_counter] and
    [timecode_ticker] are 0 and [timecoder_get_position] returns -1; the
    registers, the direction and the reference level are kept as they
    were. *)
Theorem timecoder_cycle_definition_resets tbl tc tc' when :
  timecoder_cycle_definition tbl tc = Some tc' ->
  lookup (tc_def tbl tc') = true /\
  valid_counter tc' = 0 /\ timecode_ticker tc' = 0 /\
  timecoder_get_position tbl tc' when = (-1, when, tc') /\
  bitstream tc' = bitstream tc /\ timecode tc' = timecode tc /\
  forwards tc' = forwards tc /\ ref_level tc' = ref_level tc /\
  mon tc' = mon tc.
Proof.
  unfold timecoder_cycle_definition, next_definition.
  destruct (next_definition_loop tbl (List.length tbl) (def tc)) as [j|] eqn:E;
    [|discriminate].
  intros [= <-]. unfold tc_def, timecoder_get_position. fields.
  rewrite (next_definition_loop_sound _ _ _ _ E). repeat split.
Qed.

Lemma timecoder_cycle_definition_resets_witness :
  exists tc',
    timecoder_cycle_definition small_table small_decoder = Some tc' /\
    lookup (tc_def small_table tc') = true /\
    valid_counter tc' = 0 /\ timecode_ticker tc' = 0 /\
    timecoder_get_position small_table tc' None = (-1, None, tc') /\
    bitstream tc' = bitstream small_decoder /\
    timecode tc' = timecode small_decoder /\
    forwards tc' = forwards small_decoder /\
    ref_level tc' = ref_level small_decoder /\
    mon tc' = mon small_decoder.
Proof.
  eexists. split; [vm_compute; reflexivity|].
  apply (timecoder_cycle_definition_resets small_table small_decoder).
  vm_compute. reflexivity.
Defined.

(** ** The position reported *)

(** X25.  On a table built from the sequence, [timecoder_get_position]
    returns -1 or a position of the sequence: a value [r] in [0, length)
    such that the bitstream is the state [x_r], and that only when more
    than [VALID_BITS] bits were valid. *)
Theorem get_position_on_sequence tbl tc when k :
  let d := tc_def tbl tc in
  lut_holds d (lut d) k -> Z.of_nat k <= INT_MAX ->
  let r := fst (fst (timecoder_get_position tbl tc when)) in
  r = -1 \/
  (0 <= r < Z.of_nat k /\ bitstream tc = lfsr_seq d (Z.to_nat r) /\
   VALID_BITS < valid_counter tc).
Proof.
  intros d Hl Hk. cbv zeta. unfold timecoder_get_position. fold d.
  destruct (Z.leb_spec (valid_counter tc) VALID_BITS) as [|Hv]; [now left|].
  unfold lut_lookup. destruct (slots (lut d) !! bitstream tc) as [p|] eqn:E.
  - apply Hl in E. destruct E as (i & Hi & Hb & ->).
    unfold INT_MAX in Hk. rewrite s32_small by lia.
    replace (Z.of_nat i =? -1) with false by (symmetry; apply Z.eqb_neq; lia).
    right. cbn [fst]. rewrite Nat2Z.id. repeat split; auto; lia.
  - rewrite s32_absent. now left.
Qed.

Lemma get_position_on_sequence_witness :
  let tc := set_valid_counter (set_bitstream ring_decoder 2) 25 in
  let r := fst (fst (timecoder_get_position ring_table tc None)) in
  r = 3 /\
  (r = -1 \/
   (0 <= r < 8 /\
    bitstream tc = lfsr_seq (tc_def ring_table tc) (Z.to_nat r) /\
    VALID_BITS < valid_counter tc)).
Proof.
  intros tc r. split; [vm_compute; reflexivity|].
  apply (get_position_on_sequence ring_table tc None 8);
    [exact ring_table_holds|vm_compute; intuition congruence].
Defined.

(** ** Crossings *)

Ltac channel_fields :=
  cbn [positive swapped zero crossing_ticker
       set_positive set_swapped set_zero set_crossing_ticker] in *.

(** X26.  [detect_zero_crossing] reports a crossing exactly when the
    polarity of the channel changes; the ticker of the channel is back at
    0 on a crossing and has gone up by one otherwise. *)
Theorem detect_zero_crossing_flip ch v alpha th :
  let ch' := detect_zero_crossing ch v alpha th in
  swapped ch' = xorb (positive ch') (positive ch) /\
  crossing_ticker ch' =
    (if swapped ch' then 0 else u32 (crossing_ticker ch + 1)).
Proof.
  cbv zeta. unfold detect_zero_crossing. destruct ch as [pos sw z ct].
  channel_fields.
  destruct pos; cbn [negb]; rewrite ?andb_true_r, ?andb_false_r;
    repeat match goal with |- context [if ?c then _ else _] =>
             destruct c; channel_fields end; split; reflexivity.
Qed.

(** X27.  A sample within the threshold of the zero level of a channel is
    no crossing, whatever the polarity of the channel; one beyond it on the
    side the channel is already on is none either. *)
Theorem detect_zero_crossing_hysteresis ch v alpha th :
  - 2 ^ 31 <= zero ch - th -> zero ch + th < 2 ^ 31 -> 0 <= th ->
  (if positive ch then zero ch - th <= v else v <= zero ch + th) ->
  let ch' := detect_zero_crossing ch v alpha th in
  swapped ch' = false /\ positive ch' = positive ch /\
  crossing_ticker ch' = u32 (crossing_ticker ch + 1).
Proof.
  destruct ch as [pos sw z ct]. channel_fields.
  intros H1 H2 H3 Hv. cbv zeta. unfold detect_zero_crossing. channel_fields.
  rewrite !s32_small by lia.
  destruct pos; cbn [negb]; rewrite ?andb_true_r, ?andb_false_r.
  - replace (v <? z - th) with false by (symmetry; apply Z.ltb_ge; lia).
    channel_fields. auto.
  - replace (z + th <? v) with false by (symmetry; apply Z.ltb_ge; lia).
    channel_fields. auto.
Qed.

Lemma detect_zero_crossing_hysteresis_witness :
  let ch := {| positive := true; swapped := true; zero := 1000;
               crossing_ticker := 7 |} in
  let ch' := detect_zero_crossing ch (-500) ALPHA 2000 in
  swapped ch' = false /\ positive ch' = positive ch /\
  crossing_ticker ch' = u32 (crossing_ticker ch + 1).
Proof.
  intros ch. apply (detect_zero_crossing_hysteresis ch (-500) ALPHA 2000);
    cbn; lia.
Defined.

(** ** One sample *)

Lemma process_sample_stages wide_shl tbl fs tc p s :
  exists tc3,
    snd (process_sample wide_shl tbl fs tc p s)
    = set_timecode_ticker (read_bit wide_shl tbl tc3 p)
        (u32 (timecode_ticker (read_bit wide_shl tbl tc3 p) + 1)) /\
    timecode_ticker tc3 = timecode_ticker tc /\ def tc3 = def tc /\
    forwards tc3 = forwards (snd (process_sample wide_shl tbl fs tc p s)) /\
    (forwards tc3 <> forwards tc -> valid_counter tc3 = 0).
Proof.
  pose proof (process_sample_forwards wide_shl tbl fs tc p s) as Hfw.
  unfold process_sample in *.
  destruct (track_channels_frame tbl fs tc p s) as (D1 & F1 & _).
  assert (T1 : timecode_ticker (snd (track_channels tbl fs tc p s))
               = timecode_ticker tc).
  { unfold track_channels. destruct (has_flag _ _).
    - destruct (ema p _ _), (ema s _ _).
      destruct (discrete_derivative z _), (discrete_derivative z1 _). reflexivity.
    - reflexivity. }
  cbv zeta in D1, F1.
  destruct (track_channels tbl fs tc p s) as [fs1 tc1]. cbn [snd] in *.
  exists (observe_pitch tbl (infer_direction tbl tc1)).
  split; [reflexivity|].
  destruct (observe_pitch_frame tbl (infer_direction tbl tc1))
    as (D3 & F3 & V3 & _).
  assert (T3 : timecode_ticker (observe_pitch tbl (infer_direction tbl tc1))
               = timecode_ticker (infer_direction tbl tc1))
    by (unfold observe_pitch; destruct (_ && _); reflexivity).
  rewrite T3, D3, F3, V3, Hfw, infer_direction_def.
  unfold infer_direction. destruct (_ || _).
  - destruct (eqb (crossing_direction tbl tc1) (forwards tc1)) eqn:E;
      cbn [negb]; fields; repeat split; auto; congruence.
  - repeat split; auto; congruence.
Qed.

(** X28.  [timecode_ticker] counts the samples since the last bit was read:
    it is 1 after a sample on which a bit was read (the secondary channel
    has crossed while the primary is on the side the polarity asks for),
    and one more than before after any other sample. *)
Theorem process_sample_ticker wide_shl tbl fs tc p s :
  let tc' := snd (process_sample wide_shl tbl fs tc p s) in
  timecode_ticker tc' =
    (if swapped (secondary tc') &&
        eqb (positive (primary tc'))
            (Z.land (flags (tc_def tbl tc)) SWITCH_POLARITY =? 0)
     then 1 else u32 (timecode_ticker tc + 1)).
Proof.
  cbv zeta.
  destruct (process_sample_stages wide_shl tbl fs tc p s)
    as (tc3 & -> & T3 & D3 & _).
  fields. unfold read_bit.
  assert (Ed : tc_def tbl tc3 = tc_def tbl tc) by (unfold tc_def; now rewrite D3).
  rewrite Ed.
  destruct (swapped (secondary tc3) && _) eqn:Ec.
  - set (m := s32 _).
    destruct (process_bitstream_settings wide_shl tbl tc3 m)
      as (_ & _ & -> & -> & _).
    destruct (process_bitstream_shifted wide_shl tbl tc3 m)
      as (_ & _ & _ & -> & _).
    rewrite Ec. reflexivity.
  - rewrite Ec, T3. reflexivity.
Qed.

(** X29.  A sample on which the direction changes leaves at most one valid
    bit, so no position is reported after it. *)
Theorem process_sample_turn wide_shl tbl fs tc p s when :
  let tc' := snd (process_sample wide_shl tbl fs tc p s) in
  forwards tc' <> forwards tc ->
  0 <= valid_counter tc' <= 1 /\
  timecoder_get_position tbl tc' when = (-1, when, tc').
Proof.
  cbv zeta. intros Hturn.
  destruct (process_sample_stages wide_shl tbl fs tc p s)
    as (tc3 & E & _ & _ & F3 & V3).
  rewrite <- F3 in Hturn. specialize (V3 Hturn).
  assert (Hv : 0 <= valid_counter (snd (process_sample wide_shl tbl fs tc p s)) <= 1).
  { rewrite E. fields. unfold read_bit. destruct (_ && _); [|lia].
    set (m := s32 _).
    destruct (process_bitstream_shifted wide_shl tbl tc3 m) as (-> & _).
    rewrite V3. destruct (_ =? _); [vm_compute; intuition congruence|lia]. }
  split; [exact Hv|]. unfold timecoder_get_position.
  replace (valid_counter _ <=? VALID_BITS) with true
    by (symmetry; apply Z.leb_le; unfold VALID_BITS; lia).
  reflexivity.
Qed.

Lemma process_sample_turn_witness :
  let tc := set_valid_counter ring_decoder 40 in
  let tc' := snd (process_sample x86_shl ring_table blank_filters tc
                    (2 ^ 30) (2 ^ 30)) in
  (forwards tc, forwards tc') = (true, false) /\
  0 <= valid_counter tc' <= 1 /\
  timecoder_get_position ring_table tc' None = (-1, None, tc').
Proof.
  intros tc tc'. split; [vm_compute; reflexivity|].
  apply (process_sample_turn x86_shl ring_table blank_filters tc
           (2 ^ 30) (2 ^ 30) None).
  vm_compute. discriminate.
Defined.

Lemma timecoder_submit_settings_witness :
  let tc := ring_decoder in
  exists fs' tc',
    timecoder_submit x86_shl ring_table (blank_filters, tc)
      [(20000, 20000); (-20000, 300); (-20000, -20000)] = Some (fs', tc') /\
    def tc' = def tc /\ speed tc' = speed tc /\ dt tc' = dt tc /\
    zero_alpha tc' = zero_alpha tc /\ threshold tc' = threshold tc /\
    mon_size tc' = mon_size tc /\
    match mon tc, mon tc' with
    | None, None => True
    | Some buf, Some buf' => List.length buf' = List.length buf
    | _, _ => False
    end.
Proof.
  intros tc. eexists. eexists. split; [vm_compute; reflexivity|].
  eapply (timecoder_submit_settings x86_shl ring_table
           [(20000, 20000); (-20000, 300); (-20000, -20000)] blank_filters tc).
  vm_compute. reflexivity.
Defined.

Lemma timecoder_submit_unsure_witness :
  let tc := set_valid_counter ring_decoder 0 in
  exists fs' tc',
    timecoder_submit x86_shl ring_table (blank_filters, tc)
      [(20000, 20000); (-20000, 300); (-20000, -20000)] = Some (fs', tc') /\
    0 <= valid_counter tc' <= valid_counter tc + 3 /\
    (valid_counter tc + 3 <= VALID_BITS ->
     timecoder_get_position ring_table tc' None = (-1, None, tc')).
Proof.
  intros tc. eexists. eexists. split; [vm_compute; reflexivity|].
  eapply (timecoder_submit_unsure x86_shl ring_table
           [(20000, 20000); (-20000, 300); (-20000, -20000)] blank_filters tc).
  - vm_compute. reflexivity.
  - vm_compute. discriminate.
Defined.

Lemma timecoder_submit_plain_witness :
  let tc := ring_decoder in
  exists fs' tc',
    timecoder_submit x86_shl ring_table (blank_filters, tc)
      [(20000, 20000); (-20000, 300); (-20000, -20000)] = Some (fs', tc') /\
    fs' = blank_filters /\ cbuf tc' = cbuf tc.
Proof.
  intros tc. eexists. eexists. split; [vm_compute; reflexivity|].
  eapply (timecoder_submit_plain x86_shl ring_table
           [(20000, 20000); (-20000, 300); (-20000, -20000)] blank_filters tc).
  - vm_compute. reflexivity.
  - vm_compute. reflexivity.
Defined.

(** ** Resynchronisation *)

Section Resync.
Variable wide_shl : Z -> Z.
Variable tbl : list timecode_def.

Lemma agree_step k tc1 tc2 m :
  0 < bits (tc_def tbl tc1) < 128 -> 0 <= k < bits (tc_def tbl tc1) ->
  agree tbl k tc1 tc2 ->
  agree tbl (k + 1) (process_bitstream wide_shl tbl tc1 m)
    (process_bitstream wide_shl tbl tc2 m) /\
  tc_def tbl (process_bitstream wide_shl tbl tc1 m) = tc_def tbl tc1.
Proof.
  intros Hb Hk (Hd & F1 & F2 & Hr & W1 & W2 & Hs).
  assert (Ed : tc_def tbl tc2 = tc_def tbl tc1) by (unfold tc_def; now rewrite Hd).
  destruct (process_bitstream_shifted wide_shl tbl tc1 m)
    as (_ & B1 & _ & _ & D1 & G1 & _).
  destruct (process_bitstream_shifted wide_shl tbl tc2 m)
    as (_ & B2 & _ & _ & D2 & G2 & _).
  cbv zeta in *.
  assert (Ed1 : tc_def tbl (process_bitstream wide_shl tbl tc1 m) = tc_def tbl tc1)
    by (unfold tc_def; now rewrite D1).
  split; [|exact Ed1]. unfold agree. rewrite Ed1, B1, B2, D1, D2, G1, G2.
  rewrite !process_bitstream_level, <- Hr.
  assert (Hbit : Z.b2z (ref_level tc1 <? m) = 0 \/ Z.b2z (ref_level tc1 <? m) = 1)
    by (destruct (ref_level tc1 <? m); auto).
  destruct (shift_bit_forwards wide_shl tbl tc1 _ Hbit W1 F1 Hb) as [E1 R1].
  rewrite <- Ed in W2, Hb.
  destruct (shift_bit_forwards wide_shl tbl tc2 _ Hbit W2 F2 Hb) as [E2 R2].
  rewrite Ed in *. rewrite E1, E2 in *.
  repeat split; try assumption; try lia.
  rewrite !Z.shiftr_lor, !Z.shiftr_shiftr by lia.
  replace (1 + (bits (tc_def tbl tc1) - (k + 1))) with (bits (tc_def tbl tc1) - k)
    by lia.
  now rewrite Hs.
Qed.

Lemma agree_fold ms : forall k tc1 tc2,
  0 < bits (tc_def tbl tc1) < 128 ->
  0 <= k -> k + Z.of_nat (List.length ms) <= bits (tc_def tbl tc1) ->
  agree tbl k tc1 tc2 ->
  agree tbl (k + Z.of_nat (List.length ms))
    (fold_left (process_bitstream wide_shl tbl) ms tc1)
    (fold_left (process_bitstream wide_shl tbl) ms tc2) /\
  tc_def tbl (fold_left (process_bitstream wide_shl tbl) ms tc1) = tc_def tbl tc1.
Proof.
  induction ms as [|m ms IH]; intros k tc1 tc2 Hb Hk Hlen Ha.
  - cbn [fold_left List.length]. now rewrite Z.add_0_r.
  - cbn [fold_left]. cbn [List.length] in *.
    destruct (agree_step k tc1 tc2 m Hb ltac:(lia) Ha) as [Ha' Ed].
    destruct (IH (k + 1) _ _ ltac:(now rewrite Ed) ltac:(lia)
                ltac:(rewrite Ed; lia) Ha') as [Hf Ed'].
    rewrite Ed' in *. rewrite Ed in *.
    replace (k + Z.of_nat (S (List.length ms)))
      with (k + 1 + Z.of_nat (List.length ms)) by lia.
    auto.
Qed.

(** X30.  Forwards, the bitstream forgets what it held: two decoders on the
    same definition and with the same reference level, whatever their
    registers, hold the same bitstream once they have read the same
    [bits] peaks. *)
Theorem forwards_resync tc1 tc2 ms :
  def tc1 = def tc2 -> forwards tc1 = true -> forwards tc2 = true ->
  ref_level tc1 = ref_level tc2 ->
  0 < bits (tc_def tbl tc1) < 128 ->
  0 <= bitstream tc1 < 2 ^ bits (tc_def tbl tc1) ->
  0 <= bitstream tc2 < 2 ^ bits (tc_def tbl tc1) ->
  Z.of_nat (List.length ms) = bits (tc_def tbl tc1) ->
  bitstream (fold_left (process_bitstream wide_shl tbl) ms tc1)
  = bitstream (fold_left (process_bitstream wide_shl tbl) ms tc2).
Proof.
  intros Hd F1 F2 Hr Hb W1 W2 Hlen.
  destruct (agree_fold ms 0 tc1 tc2 Hb ltac:(lia) ltac:(lia)) as [Ha Ed].
  { unfold agree. repeat split; try assumption; try lia.
    rewrite Z.sub_0_r, !Z.shiftr_div_pow2 by lia.
    now rewrite !Z.div_small by lia. }
  destruct Ha as (_ & _ & _ & _ & _ & _ & Hs).
  rewrite Ed, Z.add_0_l, Hlen, Z.sub_diag, !Z.shiftr_0_r in Hs. exact Hs.
Qed.
End Resync.

Lemma forwards_resync_witness :
  let tc1 := ring_decoder in
  let tc2 := set_valid_counter (set_timecode (set_bitstream ring_decoder 13) 7) 0 in
  let ms := [20; 0; 0; 50] in
  bitstream (fold_left (process_bitstream x86_shl ring_table) ms tc1) = 9 /\
  bitstream (fold_left (process_bitstream x86_shl ring_table) ms tc1)
  = bitstream (fold_left (process_bitstream x86_shl ring_table) ms tc2).
Proof.
  intros tc1 tc2 ms. split; [vm_compute; reflexivity|].
  apply (forwards_resync x86_shl ring_table tc1 tc2 ms);
    vm_compute; intuition congruence.
Defined.
